(** * Block profiling plugins: hot-block report and basic-block vectors

    A shallow embedding of the two QEMU TCG plugins of the repository:
    the hot-block collector (struct [TBExecCount], its two comparators,
    [vcpu_tb_trans], [plugin_exit]) and the basic-block-vector collector
    (struct [BBExecutionFrequency], [print_bb_freq],
    [handle_interval_expiry], [vcpu_tb_exec], [vcpu_tb_trans],
    [plugin_exit], [qemu_plugin_install]).

    Conventions.
    - A [uint64_t] is a [Z] in [0, 2^64); every C operation that can leave
      that range is followed by [wrap64].
    - A [GHashTable] keyed by the block's start address is a [gmap Z _].
      The callbacks receive a pointer to the record stored in the table;
      records are never replaced, so the pointer is modelled by the key
      and every update writes back into the table.  The map holds what
      the table holds, not where: the order in which
      [g_hash_table_get_values] hands the records out is that of GLib's
      slot array, which is modelled by [GHashTable] and used wherever
      that order shows in the output (the ties of the hot-block report).
    - Callbacks are taken one at a time (one virtual CPU, or callbacks
      serialised by the plugin lock).
    - Text written with [fprintf]/[g_string_append_printf] is kept as the
      tuple of the printed arguments, each read the way its conversion
      reads it ([%ld] and [PRId64]: signed 64-bit). *)

From stdpp Require Import gmap strings list fin_maps sorting.
From Stdlib Require Import ZArith Lia Ascii.

Open Scope Z_scope.

(** ** 64-bit machine arithmetic *)

Module U64.

Definition modulus : Z := 2 ^ 64.

(** Value of an unsigned 64-bit result. *)
Definition wrap64 (x : Z) : Z := x mod modulus.

(** The same 64 bits read as a signed integer (what [%ld] prints on an
    LP64 host). *)
Definition signed64 (x : Z) : Z :=
  let u := wrap64 x in
  if Z_lt_dec u (2 ^ 63) then u else u - modulus.

(** Low 32 bits read as a signed integer (conversion to [gint]). *)
Definition signed32 (x : Z) : Z :=
  let u := x mod 2 ^ 32 in
  if Z_lt_dec u (2 ^ 31) then u else u - 2 ^ 32.

(** Sum of a list of integers (no wrap-around). *)
Definition sumZ (l : list Z) : Z := foldr Z.add 0 l.

End U64.

Import U64.

(** ** The parts of GLib the plugins call *)

Module GLib.

Section list_sort.
Context {A : Type}.
Variable compare_func : A -> A -> Z.

(** [g_list_sort_merge]: the head of the first run is taken when the
    comparison is [<= 0], the head of the second run otherwise. *)
Fixpoint g_list_sort_merge (l1 : list A) : list A -> list A :=
  fix merge_right (l2 : list A) : list A :=
    match l1, l2 with
    | [], _ => l2
    | _, [] => l1
    | x1 :: l1', x2 :: l2' =>
        if Z_le_dec (compare_func x1 x2) 0
        then x1 :: g_list_sort_merge l1' l2
        else x2 :: merge_right l2'
    end.

(** [g_list_sort_real]: a list of length [n >= 2] is cut after its
    first [n / 2] cells, both halves are sorted and merged.  The
    recursion of the C code is bounded here by [fuel]. *)
Fixpoint g_list_sort_real (fuel : nat) (l : list A) : list A :=
  match fuel with
  | O => l
  | S fuel' =>
      match l with
      | [] => []
      | [x] => [x]
      | _ =>
          let half := Nat.div2 (length l) in
          g_list_sort_merge
            (g_list_sort_real fuel' (take half l))
            (g_list_sort_real fuel' (drop half l))
      end
  end.

Definition g_list_sort (l : list A) : list A :=
  g_list_sort_real (length l) l.
End list_sort.

(** Descending order of a key, as a property of a list. *)
Definition descending {A} (key : A -> Z) (l : list A) : Prop :=
  StronglySorted (fun a b => key b <= key a) l.

(** [g_hash_table_get_values] on the contents of the table: every value
    once.  The list is in the order in which the map enumerates its
    keys, which is not the order of GLib's slots; it serves where the
    order of the list does not matter (sums, membership, sorting by keys
    that differ).  The list in GLib's order is
    [GHashTable.g_hash_table_get_values]. *)
Definition g_hash_table_get_values {V} (m : gmap Z V) : list V :=
  (map_to_list m).*2.

Definition g_hash_table_size {V} (m : gmap Z V) : Z :=
  Z.of_nat (size m).

Definition g_str_has_prefix (str prefix : string) : bool :=
  String.prefix prefix str.

(** Text after the first [n] characters ([opt + n] in C). *)
Fixpoint str_drop (n : nat) (s : string) : string :=
  match n, s with
  | O, _ => s
  | S n', String _ s' => str_drop n' s'
  | S _, EmptyString => EmptyString
  end.

Definition is_space (c : ascii) : bool :=
  let n := nat_of_ascii c in
  (n =? 32)%nat || ((9 <=? n)%nat && (n <=? 13)%nat).

Definition digit_of (c : ascii) : option Z :=
  let n := Z.of_nat (nat_of_ascii c) in
  if (48 <=? n) && (n <=? 57) then Some (n - 48) else None.

Fixpoint skip_spaces (s : string) : string :=
  match s with
  | String c s' => if is_space c then skip_spaces s' else s
  | EmptyString => s
  end.

(** Decimal digits at the head of [s], accumulated on [acc]; the
    accumulator is not bounded here. *)
Fixpoint parse_digits (acc : Z) (s : string) : Z :=
  match s with
  | String c s' =>
      match digit_of c with
      | Some d => parse_digits (10 * acc + d) s'
      | None => acc
      end
  | EmptyString => acc
  end.

(** [g_ascii_strtoull (s, NULL, 10)]: optional white space, optional
    sign, decimal digits; no digits give 0, a value that does not fit
    gives [G_MAXUINT64], a minus sign negates in 64 bits. *)
Definition g_ascii_strtoull (s : string) : Z :=
  let s1 := skip_spaces s in
  let '(negative, s2) :=
    match s1 with
    | String "-"%char r => (true, r)
    | String "+"%char r => (false, r)
    | _ => (false, s1)
    end in
  let v := parse_digits 0 s2 in
  if Z_lt_dec v modulus
  then (if negative then wrap64 (- v) else v)
  else modulus - 1.

End GLib.

Import GLib.

(** ** GLib's hash table

    The table of [ghash.c] (GLib 2.60 and later) as
    [g_hash_table_new (NULL, g_direct_equal)] makes it: open addressing
    in arrays of [size = 2^shift] slots, the hash of a key being the key
    itself cut to 32 bits.  The three arrays [hashes], [keys] and
    [values] are kept as one array of slots.  The counters are [guint]
    in C and are not wrapped here. *)

Module GHashTable.

Definition HASH_TABLE_MIN_SHIFT : Z := 3.

(** One slot: [hashes[i]], [keys[i]], [values[i]].  A slot whose hash
    is [UNUSED_HASH_VALUE] is [None]; the plugins never remove a key, so
    no slot holds a tombstone. *)
Record node (V : Type) := {
  node_hash : Z;
  node_key : Z;
  node_value : V
}.
Arguments node_hash {V} _.
Arguments node_key {V} _.
Arguments node_value {V} _.

Record GHashTable (V : Type) := {
  size : Z;
  mod_ : Z;
  mask : Z;
  nnodes : Z;
  noccupied : Z;
  nodes : list (option (node V))
}.
Arguments size {V} _.
Arguments mod_ {V} _.
Arguments mask {V} _.
Arguments nnodes {V} _.
Arguments noccupied {V} _.
Arguments nodes {V} _.

(** [prime_mod[shift]]: the largest prime below [2^shift]. *)
Definition prime_mod : list Z :=
  [1; 2; 3; 7; 13; 31; 61; 127; 251; 509; 1021; 2039; 4093; 8191; 16381;
   32749; 65521; 131071; 262139; 524287; 1048573; 2097143; 4194301;
   8388593; 16777213; 33554393; 67108859; 134217689; 268435399;
   536870909; 1073741789; 2147483647].

Definition g_hash_table_set_shift {V} (t : GHashTable V) (shift : Z)
  : GHashTable V :=
  {| size := 2 ^ shift;
     mod_ := default 1 (prime_mod !! Z.to_nat shift);
     mask := 2 ^ shift - 1;
     nnodes := nnodes t; noccupied := noccupied t; nodes := nodes t |}.

(** [for (i = 0; n; i++) n >>= 1;] on a 32-bit [n]. *)
Fixpoint find_closest_shift_loop (fuel : nat) (n i : Z) : Z :=
  match fuel with
  | O => i
  | S fuel' =>
      if decide (n = 0) then i
      else find_closest_shift_loop fuel' (Z.shiftr n 1) (i + 1)
  end.

Definition g_hash_table_find_closest_shift (n : Z) : Z :=
  find_closest_shift_loop 32 n 0.

Definition g_hash_table_set_shift_from_size {V} (t : GHashTable V) (n : Z)
  : GHashTable V :=
  g_hash_table_set_shift t
    (Z.max (g_hash_table_find_closest_shift n) HASH_TABLE_MIN_SHIFT).

(** [g_hash_table_new]: eight unused slots. *)
Definition g_hash_table_new {V} : GHashTable V :=
  g_hash_table_set_shift
    {| size := 0; mod_ := 0; mask := 0; nnodes := 0; noccupied := 0;
       nodes := replicate (Z.to_nat (2 ^ HASH_TABLE_MIN_SHIFT)) None |}
    HASH_TABLE_MIN_SHIFT.

(** [g_direct_hash]: the pointer converted to [guint]. *)
Definition g_direct_hash (key : Z) : Z := key mod 2 ^ 32.

(** The hash kept for a key: 0 and 1 mark unused slots and tombstones,
    a key that hashes to one of them is given 2. *)
Definition hash_value_of (key : Z) : Z :=
  let hash_value := g_direct_hash key in
  if decide (hash_value < 2) then 2 else hash_value.

(** [(hash * 11) % hash_table->mod], the product in 32 bits. *)
Definition g_hash_table_hash_to_index {V} (t : GHashTable V) (hash : Z) : Z :=
  ((hash * 11) mod 2 ^ 32) mod mod_ t.

(** The probe loop of [g_hash_table_lookup_node]: it ends at the slot
    of the key or at the first unused slot, stepping by 1, 2, 3, ...
    The loop of the C code is bounded here by [fuel]; [None] stands for
    a probe that does not end. *)
Fixpoint lookup_node_loop {V} (fuel : nat) (t : GHashTable V)
    (key hash_value node_index step : Z) : option Z :=
  match nodes t !! Z.to_nat node_index with
  | None => None
  | Some None => Some node_index
  | Some (Some n) =>
      if decide (node_hash n = hash_value /\ node_key n = key)
      then Some node_index
      else
        match fuel with
        | O => None
        | S fuel' =>
            lookup_node_loop fuel' t key hash_value
              (Z.land (node_index + (step + 1)) (mask t)) (step + 1)
        end
  end.

Definition g_hash_table_lookup_node {V} (t : GHashTable V) (key : Z)
  : option Z :=
  let hash_value := hash_value_of key in
  lookup_node_loop (Z.to_nat (size t)) t key hash_value
    (g_hash_table_hash_to_index t hash_value) 0.

(** [g_hash_table_lookup]: [Some None] is the [NULL] of a key that is
    not in the table. *)
Definition g_hash_table_lookup {V} (t : GHashTable V) (key : Z)
  : option (option V) :=
  match g_hash_table_lookup_node t key with
  | None => None
  | Some node_index =>
      match nodes t !! Z.to_nat node_index with
      | None => None
      | Some slot => Some (node_value <$> slot)
      end
  end.

(** Resizing moves the nodes in place; [bitmap] marks the slots that
    hold a node already moved.  [resize_probe] is the loop
    [while (get_status_bit (bitmap, hash_val))]. *)
Fixpoint resize_probe (fuel : nat) (bitmap : list bool)
    (mask hash_val step : Z) : option Z :=
  match bitmap !! Z.to_nat hash_val with
  | None => None
  | Some false => Some hash_val
  | Some true =>
      match fuel with
      | O => None
      | S fuel' =>
          resize_probe fuel' bitmap mask
            (Z.land (hash_val + (step + 1)) mask) (step + 1)
      end
  end.

(** The loop [for (;;)] of the resize: the node in hand is put into the
    first slot of its probe sequence that is not marked; a node found
    there is taken in hand next. *)
Fixpoint resize_place {V} (fuel : nat) (t : GHashTable V)
    (arrays : list (option (node V)) * list bool) (n : node V)
  : option (list (option (node V)) * list bool) :=
  match fuel with
  | O => None
  | S fuel' =>
      let '(hashes, bitmap) := arrays in
      match resize_probe (Z.to_nat (size t)) bitmap (mask t)
              (g_hash_table_hash_to_index t (node_hash n)) 0 with
      | None => None
      | Some hash_val =>
          let arrays' := (<[Z.to_nat hash_val := Some n]> hashes,
                          <[Z.to_nat hash_val := true]> bitmap) in
          match hashes !! Z.to_nat hash_val with
          | None => None
          | Some None => Some arrays'
          | Some (Some evicted) => resize_place fuel' t arrays' evicted
          end
      end
  end.

(** [resize_map]: the slots of the old array in order; a node that is
    not marked is taken out and placed. *)
Definition resize_map {V} (t : GHashTable V) (old_size : Z)
    (arrays : list (option (node V)) * list bool)
  : option (list (option (node V)) * list bool) :=
  foldl (fun acc i =>
           match acc with
           | None => None
           | Some (hashes, bitmap) =>
               match hashes !! i, bitmap !! i with
               | Some (Some n), Some false =>
                   resize_place (S (Z.to_nat (size t))) t
                     (<[i := None]> hashes, bitmap) n
               | _, _ => Some (hashes, bitmap)
               end
           end)
        (Some arrays) (seq 0 (Z.to_nat old_size)).

(** [g_hash_table_resize].  The new size is taken from
    [nnodes * 1.333] cut to an integer; only the number of bits of that
    integer is used, and it is that of [nnodes * 1333 / 1000]. *)
Definition g_hash_table_resize {V} (t : GHashTable V) : option (GHashTable V) :=
  let old_size := size t in
  let t1 := g_hash_table_set_shift_from_size t (nnodes t * 1333 / 1000) in
  let hashes :=
    if decide (size t1 > old_size)
    then nodes t ++ replicate (Z.to_nat (size t1 - old_size)) None
    else nodes t in
  let bitmap := replicate (Z.to_nat (Z.max (size t1) old_size)) false in
  match resize_map t1 old_size (hashes, bitmap) with
  | None => None
  | Some (hashes', _) =>
      Some {| size := size t1; mod_ := mod_ t1; mask := mask t1;
              nnodes := nnodes t; noccupied := nnodes t;
              nodes := take (Z.to_nat (size t1)) hashes' |}
  end.

Definition g_hash_table_maybe_resize {V} (t : GHashTable V)
  : option (GHashTable V) :=
  if decide ((size t > nnodes t * 4 /\ size t > 2 ^ HASH_TABLE_MIN_SHIFT) \/
             size t <= noccupied t + noccupied t / 16)
  then g_hash_table_resize t
  else Some t.

(** [g_hash_table_insert_node] as [g_hash_table_insert] calls it: the
    value of a key that is there is replaced and its key kept; a new key
    takes the unused slot and may make the table grow. *)
Definition g_hash_table_insert_node {V} (t : GHashTable V)
    (node_index key_hash new_key : Z) (new_value : V) : option (GHashTable V) :=
  match nodes t !! Z.to_nat node_index with
  | None => None
  | Some (Some n) =>
      Some {| size := size t; mod_ := mod_ t; mask := mask t;
              nnodes := nnodes t; noccupied := noccupied t;
              nodes := <[Z.to_nat node_index :=
                           Some {| node_hash := node_hash n;
                                   node_key := node_key n;
                                   node_value := new_value |}]> (nodes t) |}
  | Some None =>
      g_hash_table_maybe_resize
        {| size := size t; mod_ := mod_ t; mask := mask t;
           nnodes := nnodes t + 1; noccupied := noccupied t + 1;
           nodes := <[Z.to_nat node_index :=
                        Some {| node_hash := key_hash; node_key := new_key;
                                node_value := new_value |}]> (nodes t) |}
  end.

Definition g_hash_table_insert {V} (t : GHashTable V) (key : Z) (value : V)
  : option (GHashTable V) :=
  match g_hash_table_lookup_node t key with
  | None => None
  | Some node_index =>
      g_hash_table_insert_node t node_index (hash_value_of key) key value
  end.

(** [g_hash_table_get_values]: the slots from 0 upwards, the value of
    each occupied slot prepended to the list. *)
Definition g_hash_table_get_values {V} (t : GHashTable V) : list V :=
  foldl (fun retval i =>
           match nodes t !! i with
           | Some (Some n) => node_value n :: retval
           | _ => retval
           end)
        [] (seq 0 (Z.to_nat (size t))).

Definition g_hash_table_size {V} (t : GHashTable V) : Z := nnodes t.

(** The values of the occupied slots, from slot 0 upwards. *)
Definition values_by_slot {V} (t : GHashTable V) : list V :=
  omap (fun i => match nodes t !! i with
                 | Some (Some n) => Some (node_value n)
                 | _ => None
                 end)
       (seq 0 (Z.to_nat (size t))).

End GHashTable.

(** ** What the emulator hands to a translation callback *)

Module QemuPlugin.

Record qemu_plugin_insn := {
  insn_size : Z;
  insn_data : list Z;            (* the instruction bytes *)
  insn_disas : string;
  insn_symbol : option string
}.

Record qemu_plugin_tb := {
  tb_vaddr : Z;
  tb_insns : list qemu_plugin_insn
}.

Definition qemu_plugin_tb_vaddr (tb : qemu_plugin_tb) : Z :=
  wrap64 (tb_vaddr tb).

Definition qemu_plugin_tb_n_insns (tb : qemu_plugin_tb) : Z :=
  wrap64 (Z.of_nat (length (tb_insns tb))).

Definition qemu_plugin_tb_get_insn (tb : qemu_plugin_tb) (i : nat)
  : option qemu_plugin_insn :=
  tb_insns tb !! i.

(** [qemu_plugin_insn_symbol (qemu_plugin_tb_get_insn (tb, 0))]. *)
Definition first_insn_symbol (tb : qemu_plugin_tb) : option string :=
  match qemu_plugin_tb_get_insn tb 0 with
  | Some i => insn_symbol i
  | None => None
  end.

(** Value of the first [n] bytes of the instruction read as one integer
    on a little-endian host (the 32-bit and 16-bit loads of the
    translation loop). *)
Fixpoint load_le (n : nat) (bytes : list Z) : Z :=
  match n, bytes with
  | S n', b :: bs => b mod 256 + 256 * load_le n' bs
  | _, _ => 0
  end.

End QemuPlugin.

Import QemuPlugin.

(** ** The basic-block-vector plugin *)

Module Bbv.

Record BBExecutionFrequency := {
  tbid : Z;
  tb_pc : Z;
  n_insns : Z;
  tb_dynamic_count : Z;
  symbol : option string;
  offset_from_symbol : Z
}.

Definition set_tb_dynamic_count (v : Z) (info : BBExecutionFrequency)
  : BBExecutionFrequency :=
  {| tbid := tbid info; tb_pc := tb_pc info; n_insns := n_insns info;
     tb_dynamic_count := v; symbol := symbol info;
     offset_from_symbol := offset_from_symbol info |}.

(** One line of the BBV file: ["T"], then a [":%ld:%ld "] pair per
    printed block, then a newline. *)
Abbreviation bbv_line := (list (Z * Z)).

(** One line of the symbol map: ["F:%ld:%lx:%s\n"]. *)
Abbreviation pc_line := (Z * Z * string)%type.

(** The globals of the plugin.  An output stream is [None] when the
    [FILE *] is [NULL], otherwise the lines written so far. *)
Record state := {
  blocks : gmap Z BBExecutionFrequency;
  insns_interval_length : Z;
  bb_out : option (list bbv_line);
  pc_out : option (list pc_line);
  insns_executed : Z;
  next_tbid : Z
}.

Definition set_blocks (m : gmap Z BBExecutionFrequency) (st : state) : state :=
  {| blocks := m; insns_interval_length := insns_interval_length st;
     bb_out := bb_out st; pc_out := pc_out st;
     insns_executed := insns_executed st; next_tbid := next_tbid st |}.

Definition set_insns_executed (v : Z) (st : state) : state :=
  {| blocks := blocks st; insns_interval_length := insns_interval_length st;
     bb_out := bb_out st; pc_out := pc_out st;
     insns_executed := v; next_tbid := next_tbid st |}.

Definition set_bb_out (o : option (list bbv_line)) (st : state) : state :=
  {| blocks := blocks st; insns_interval_length := insns_interval_length st;
     bb_out := o; pc_out := pc_out st;
     insns_executed := insns_executed st; next_tbid := next_tbid st |}.

Definition set_pc_out (o : option (list pc_line)) (st : state) : state :=
  {| blocks := blocks st; insns_interval_length := insns_interval_length st;
     bb_out := bb_out st; pc_out := o;
     insns_executed := insns_executed st; next_tbid := next_tbid st |}.

Definition cmp_tbid (info_a info_b : BBExecutionFrequency) : Z :=
  signed32 (wrap64 (tbid info_a - tbid info_b)).

(** [print_bb_freq]: what is printed for one record, and the record it
    leaves behind. *)
Definition print_bb_freq (info : BBExecutionFrequency)
  : option (Z * Z) * BBExecutionFrequency :=
  if decide (tb_dynamic_count info = 0)
  then (None, info)
  else (Some (signed64 (tbid info), signed64 (tb_dynamic_count info)),
        set_tb_dynamic_count 0 info).

(** [g_hash_table_foreach (blocks, print_bb_freq, NULL)]: the pairs
    printed, in the enumeration order of the table, and the table with
    every printed record reset. *)
Definition foreach_print_bb_freq (m : gmap Z BBExecutionFrequency)
  : bbv_line * gmap Z BBExecutionFrequency :=
  (omap (fun kv => (print_bb_freq kv.2).1) (map_to_list m),
   (fun info => (print_bb_freq info).2) <$> m).

(** [handle_interval_expiry]: nothing at all without a BBV stream;
    otherwise one line is written. *)
Definition handle_interval_expiry (st : state) : state :=
  match bb_out st with
  | None => st
  | Some out =>
      let '(line, m) := foreach_print_bb_freq (blocks st) in
      set_bb_out (Some (out ++ [line])) (set_blocks m st)
  end.

(** [vcpu_tb_exec]; [pc] stands for the [udata] pointer, which is the
    record of the table under that key.  The callback is only ever
    registered with a record of the table: a key without a record stands
    for no callback, and leaves the globals as they are. *)
Definition vcpu_tb_exec (st : state) (pc : Z) : state :=
  match blocks st !! pc with
  | None => st
  | Some info =>
      let executed := wrap64 (insns_executed st + n_insns info) in
      let info1 :=
        set_tb_dynamic_count
          (wrap64 (tb_dynamic_count info + n_insns info)) info in
      let st1 :=
        set_insns_executed executed
          (set_blocks (<[pc := info1]> (blocks st)) st) in
      if decide (executed > insns_interval_length st)
      then
        let overshoot := wrap64 (executed - insns_interval_length st) in
        let info2 :=
          set_tb_dynamic_count
            (wrap64 (tb_dynamic_count info1 - overshoot)) info1 in
        let st2 :=
          set_insns_executed overshoot
            (set_blocks (<[pc := info2]> (blocks st1)) st1) in
        let st3 := handle_interval_expiry st2 in
        set_blocks
          (alter (set_tb_dynamic_count overshoot) pc (blocks st3)) st3
      else st1
  end.

(** [vcpu_tb_trans]; the result carries the key of the record that is
    registered as [udata] of the execution callback. *)
Definition vcpu_tb_trans (st : state) (tb : qemu_plugin_tb) : state * Z :=
  let pc := qemu_plugin_tb_vaddr tb in
  let n := qemu_plugin_tb_n_insns tb in
  match blocks st !! pc with
  | Some _ => (st, pc)
  | None =>
      let info :=
        {| tbid := next_tbid st; tb_pc := pc; n_insns := n;
           tb_dynamic_count := 0; symbol := first_insn_symbol tb;
           offset_from_symbol := 0 |} in
      ({| blocks := <[pc := info]> (blocks st);
          insns_interval_length := insns_interval_length st;
          bb_out := bb_out st; pc_out := pc_out st;
          insns_executed := insns_executed st;
          next_tbid := wrap64 (next_tbid st + 1) |}, pc)
  end.

Definition print_pc (info : BBExecutionFrequency) : pc_line :=
  (signed64 (tbid info), tb_pc info, default EmptyString (symbol info)).

(** [plugin_exit].  The loop over the sorted list reads [e->next] before
    anything else: on an empty list that is a null dereference ([None]),
    and on a non-empty one the last cell is never printed. *)
Definition plugin_exit (st : state) : option state :=
  let st1 := handle_interval_expiry st in
  let blocks_values := g_hash_table_get_values (blocks st1) in
  match pc_out st1 with
  | None => Some st1
  | Some out =>
      match g_list_sort cmp_tbid blocks_values with
      | [] => None
      | it => Some (set_pc_out (Some (out ++ (print_pc <$> removelast it))) st1)
      end
  end.

(** Globals before [qemu_plugin_install] runs. *)
Definition initial_state : state :=
  {| blocks := ∅; insns_interval_length := 100000000;
     bb_out := None; pc_out := None;
     insns_executed := 0; next_tbid := 0 |}.

(** The option loop of [qemu_plugin_install]: the two file names and
    the interval length so far, or [None] at the first option that is
    not recognised. *)
Fixpoint parse_options (argv : list string)
    (bb_name pc_name : option string) (len : Z)
  : option (option string * option string * Z) :=
  match argv with
  | [] => Some (bb_name, pc_name, len)
  | opt :: rest =>
      if g_str_has_prefix opt "bb-out-file="
      then parse_options rest (Some (str_drop 12 opt)) pc_name len
      else if g_str_has_prefix opt "pc-out-file="
      then parse_options rest bb_name (Some (str_drop 12 opt)) len
      else if g_str_has_prefix opt "interval-size="
      then parse_options rest bb_name pc_name
             (g_ascii_strtoull (str_drop 14 opt))
      else None
  end.

(** The options the loop accepts. *)
Definition recognised (opt : string) : bool :=
  g_str_has_prefix opt "bb-out-file=" || g_str_has_prefix opt "pc-out-file="
  || g_str_has_prefix opt "interval-size=".

(** [qemu_plugin_install]: the return code and, when it is 0, the
    globals with which the callbacks start.  [fopen_ok name] tells
    whether [fopen (name, "w")] succeeds. *)
Definition qemu_plugin_install (fopen_ok : string -> bool)
    (argv : list string) : Z * option state :=
  match parse_options argv None None (insns_interval_length initial_state) with
  | None => (-1, None)
  | Some (bb_name, pc_name, len) =>
      let open {T} (name : option string) : option (list T) :=
        match name with
        | Some f => if fopen_ok f then Some [] else None
        | None => None
        end in
      (0, Some {| blocks := ∅; insns_interval_length := len;
                  bb_out := open bb_name; pc_out := open pc_name;
                  insns_executed := 0; next_tbid := 0 |})
  end.

(** A run: the callbacks the emulator makes, in order. *)
Inductive event :=
| Translate (tb : qemu_plugin_tb)
| Execute (pc : Z).

Definition step (st : state) (e : event) : state :=
  match e with
  | Translate tb => (vcpu_tb_trans st tb).1
  | Execute pc => vcpu_tb_exec st pc
  end.

Definition run (evs : list event) (st : state) : state :=
  fold_left step evs st.

(** Instructions a callback accounts for: the [n_insns] of the record
    the execution callback is bound to. *)
Definition executed_by (st : state) (e : event) : Z :=
  match e with
  | Translate _ => 0
  | Execute pc =>
      match blocks st !! pc with
      | Some info => n_insns info
      | None => 0
      end
  end.

Fixpoint total_dynamic_instructions_executed
    (evs : list event) (st : state) : Z :=
  match evs with
  | [] => 0
  | e :: evs' =>
      executed_by st e + total_dynamic_instructions_executed evs' (step st e)
  end.

(** Sum of the counts of one line, and of a whole BBV stream. *)
Definition line_total (l : bbv_line) : Z := sumZ (l.*2).

Definition stream_total (out : list bbv_line) : Z :=
  sumZ (line_total <$> out).

(** Count with which a line credits the block of identifier [id]. *)
Definition credit (id : Z) (l : bbv_line) : Z :=
  sumZ ((filter (fun p => p.1 = id) l).*2).

(** Sum of a field over the records of the table. *)
Definition sum_counts (f : BBExecutionFrequency -> Z)
    (m : gmap Z BBExecutionFrequency) : Z :=
  sumZ (f <$> g_hash_table_get_values m).

(** The globals between two callbacks of a run that writes a BBV
    stream: counts are non-negative and add up to the running total. *)
Record consistent (st : state) : Prop := {
  consistent_out : is_Some (bb_out st);
  consistent_length : 0 <= insns_interval_length st;
  consistent_records : forall pc info,
    blocks st !! pc = Some info ->
    0 <= tb_dynamic_count info /\ 0 <= n_insns info;
  consistent_sum : sum_counts tb_dynamic_count (blocks st) = insns_executed st
}.

(** The same, modulo [2^64]: what holds with no bound on the counters. *)
Definition consistent_mod (st : state) : Prop :=
  is_Some (bb_out st) /\
  exists q, sum_counts tb_dynamic_count (blocks st) =
            insns_executed st + modulus * q.

Definition counted_insns_nonneg (st : state) : Prop :=
  forall pc info, blocks st !! pc = Some info -> 0 <= n_insns info.

(** Identifiers are handed out in order and never twice. *)
Record ids_allocated (st : state) : Prop := {
  ids_next : 0 <= next_tbid st < 2 ^ 63;
  ids_below : forall pc info,
    blocks st !! pc = Some info -> 0 <= tbid info < next_tbid st;
  ids_injective : forall pc1 pc2 info1 info2,
    blocks st !! pc1 = Some info1 -> blocks st !! pc2 = Some info2 ->
    tbid info1 = tbid info2 -> pc1 = pc2
}.

(** No two records of the table print the same block identifier. *)
Definition distinct_ids (st : state) : Prop :=
  forall pc1 pc2 info1 info2,
    blocks st !! pc1 = Some info1 -> blocks st !! pc2 = Some info2 ->
    signed64 (tbid info1) = signed64 (tbid info2) -> pc1 = pc2.

End Bbv.

(** ** The hot-block plugin *)

Module HotBlocks.

Record qemu_insn := {
  len : Z;
  data : option Z;      (* [None]: the cell was never written *)
  disasm : string
}.

Record TBExecCount := {
  start_addr : Z;
  exec_count : Z;
  trans_count : Z;
  n_insns : Z;
  insns : list qemu_insn;
  symbol : option string;
  next : option Z       (* only ever [NULL] *)
}.

Definition set_trans_count (v : Z) (cnt : TBExecCount) : TBExecCount :=
  {| start_addr := start_addr cnt; exec_count := exec_count cnt;
     trans_count := v; n_insns := n_insns cnt; insns := insns cnt;
     symbol := symbol cnt; next := next cnt |}.

Definition set_exec_count (v : Z) (cnt : TBExecCount) : TBExecCount :=
  {| start_addr := start_addr cnt; exec_count := v;
     trans_count := trans_count cnt; n_insns := n_insns cnt;
     insns := insns cnt; symbol := symbol cnt; next := next cnt |}.

(** The two sort keys, as the comparators compute them (in 64 bits). *)
Definition dynamic_insncount (e : TBExecCount) : Z :=
  wrap64 (exec_count e * n_insns e).

Definition dynamic_execcount (e : TBExecCount) : Z := exec_count e.

Definition cmp_dynamic_insncount (ea eb : TBExecCount) : Z :=
  if decide (dynamic_insncount ea > dynamic_insncount eb) then -1 else 1.

Definition cmp_dynamic_execcount (ea eb : TBExecCount) : Z :=
  if decide (exec_count ea > exec_count eb) then -1 else 1.

(** The cell [cnt->insns[i]] as the translation loop fills it: [data]
    is written for 4-byte and 2-byte instructions only. *)
Definition snapshot (insn : qemu_plugin_insn) : qemu_insn :=
  {| len := insn_size insn;
     data :=
       if decide (insn_size insn = 4)
       then Some (load_le 4 (insn_data insn))
       else if decide (insn_size insn = 2)
       then Some (load_le 2 (insn_data insn))
       else None;
     disasm := insn_disas insn |}.

(** [vcpu_tb_trans]; the second component is the key of the record
    whose [exec_count] is bound to the inline execution counter. *)
Definition vcpu_tb_trans (blocks : gmap Z TBExecCount) (tb : qemu_plugin_tb)
  : gmap Z TBExecCount * Z :=
  let pc := qemu_plugin_tb_vaddr tb in
  let n := qemu_plugin_tb_n_insns tb in
  let hash := pc in
  match blocks !! hash with
  | Some cnt =>
      (<[hash := set_trans_count (wrap64 (trans_count cnt + 1)) cnt]> blocks,
       hash)
  | None =>
      let cnt :=
        {| start_addr := pc; exec_count := 0; trans_count := 1;
           n_insns := n;
           insns := snapshot <$> take (Z.to_nat n) (tb_insns tb);
           symbol := first_insn_symbol tb; next := None |} in
      (<[hash := cnt]> blocks, hash)
  end.

(** The inline counter ([QEMU_PLUGIN_INLINE_ADD_U64] of 1 on
    [&cnt->exec_count]) at one execution of a block. *)
Definition tb_exec_inline (blocks : gmap Z TBExecCount) (pc : Z)
  : gmap Z TBExecCount :=
  alter (fun cnt => set_exec_count (wrap64 (exec_count cnt + 1)) cnt) pc blocks.

(** A percentage is kept as the operands of
    [((double) numerator * 100) / denominator]. *)
Record percentage := { numerator : Z; denominator : Z }.

Record block_line := {
  line_addr : Z;
  line_count : Z;
  line_percent : percentage;
  line_symbol : string;
  line_disasm : list string
}.

Record report := {
  collected : Z;
  by_dynamic_instructions : list block_line;
  by_dynamic_invocations : list block_line;
  dynamic_instruction_count : Z;
  translation_blocks_executed : Z
}.

(** The records a loop [for (e = it; e->next; e = e->next)] visits:
    all cells but the last. *)
Definition visited {A} (it : list A) : list A := removelast it.

(** The first loop of [plugin_exit]: the running 64-bit sum over the
    visited cells. *)
Definition total_insn_executed (it : list TBExecCount) : Z :=
  fold_left (fun total rec => wrap64 (total + wrap64 (n_insns rec * exec_count rec)))
    (visited it) 0.

Definition insn_line (total : Z) (rec : TBExecCount) : block_line :=
  let n_insn_executed := wrap64 (n_insns rec * exec_count rec) in
  {| line_addr := start_addr rec;
     line_count := signed64 n_insn_executed;
     line_percent := {| numerator := n_insn_executed; denominator := total |};
     line_symbol := default EmptyString (symbol rec);
     line_disasm := disasm <$> take (Z.to_nat (n_insns rec)) (insns rec) |}.

Definition exec_line (total : Z) (rec : TBExecCount) : block_line :=
  let n_insn_executed := exec_count rec in
  {| line_addr := start_addr rec;
     line_count := signed64 (exec_count rec);
     line_percent := {| numerator := n_insn_executed; denominator := total |};
     line_symbol := default EmptyString (symbol rec);
     line_disasm := [] |}.

(** The sorted lists of the two sections. *)
Definition sorted_by_insncount (blocks : gmap Z TBExecCount) : list TBExecCount :=
  g_list_sort cmp_dynamic_insncount (g_hash_table_get_values blocks).

Definition sorted_by_execcount (blocks : gmap Z TBExecCount) : list TBExecCount :=
  g_list_sort cmp_dynamic_execcount (g_hash_table_get_values blocks).

(** [plugin_exit]: the report handed to [qemu_plugin_outs]. *)
Definition plugin_exit (blocks : gmap Z TBExecCount) : report :=
  let it := sorted_by_insncount blocks in
  let '(total, section1) :=
    match it with
    | [] => (0, [])
    | _ => let total := total_insn_executed it in
           (total, insn_line total <$> visited it)
    end in
  let it2 := sorted_by_execcount blocks in
  let section2 :=
    match it2 with
    | [] => []
    | _ => exec_line total <$> visited it2
    end in
  {| collected := signed32 (g_hash_table_size blocks);
     by_dynamic_instructions := section1;
     by_dynamic_invocations := section2;
     dynamic_instruction_count := signed64 total;
     translation_blocks_executed := signed32 (g_hash_table_size blocks) |}.

(** A run: the callbacks the emulator makes, in order, on the table
    that [plugin_init] creates empty. *)
Inductive event :=
| Translate (tb : qemu_plugin_tb)
| Execute (pc : Z).

Definition step (blocks : gmap Z TBExecCount) (e : event) : gmap Z TBExecCount :=
  match e with
  | Translate tb => (vcpu_tb_trans blocks tb).1
  | Execute pc => tb_exec_inline blocks pc
  end.

Definition run (evs : list event) : gmap Z TBExecCount :=
  fold_left step evs ∅.

(** Position of the first translation of the block at [pc] in a run. *)
Fixpoint first_translation (evs : list event) (pc : Z) : option nat :=
  match evs with
  | [] => None
  | Translate tb :: evs' =>
      if decide (qemu_plugin_tb_vaddr tb = pc) then Some O
      else S <$> first_translation evs' pc
  | Execute _ :: evs' => S <$> first_translation evs' pc
  end.

(** Exact (unbounded) sum of [exec_count * n_insns] over the table. *)
Definition sum_exec_times_insns (blocks : gmap Z TBExecCount) : Z :=
  foldr (fun rec acc => exec_count rec * n_insns rec + acc) 0
    (g_hash_table_get_values blocks).

End HotBlocks.

(** ** The hot-block table as GLib lays it out

    [HotBlocks] keeps the records of the table by key.  The order in
    which [plugin_exit] meets them is that of the list
    [g_hash_table_get_values] returns, which follows the slots of the
    table.  Here is the table itself, from keys to pointers to records;
    a pointer is modelled by the key under which [HotBlocks] keeps the
    record it points to. *)

Module HotBlocksTable.
Import HotBlocks.

(** [plugin_init]. *)
Definition plugin_init : GHashTable.GHashTable Z := GHashTable.g_hash_table_new.

(** What [vcpu_tb_trans] does to the table: the key is looked up and,
    when it is not found, inserted with the pointer to the new record.
    The records themselves are changed through their pointers and the
    table is not touched by that.  [None]: a probe does not end. *)
Definition vcpu_tb_trans (blocks : GHashTable.GHashTable Z) (tb : qemu_plugin_tb)
  : option (GHashTable.GHashTable Z) :=
  let pc := qemu_plugin_tb_vaddr tb in
  let hash := pc in
  match GHashTable.g_hash_table_lookup blocks hash with
  | None => None
  | Some (Some cnt) => Some blocks
  | Some None => GHashTable.g_hash_table_insert blocks hash hash
  end.

Definition step (blocks : GHashTable.GHashTable Z) (e : event)
  : option (GHashTable.GHashTable Z) :=
  match e with
  | Translate tb => vcpu_tb_trans blocks tb
  | Execute _ => Some blocks
  end.

Definition run (evs : list event) : option (GHashTable.GHashTable Z) :=
  foldl (fun acc e => match acc with
                      | Some blocks => step blocks e
                      | None => None
                      end)
        (Some plugin_init) evs.

(** [counts = g_hash_table_get_values (blocks)], each pointer followed
    to its record. *)
Definition counts (blocks : GHashTable.GHashTable Z)
    (records : gmap Z TBExecCount) : list TBExecCount :=
  omap (fun cnt => records !! cnt) (GHashTable.g_hash_table_get_values blocks).

(** The records in the order of their slots. *)
Definition records_by_slot (blocks : GHashTable.GHashTable Z)
    (records : gmap Z TBExecCount) : list TBExecCount :=
  omap (fun cnt => records !! cnt) (GHashTable.values_by_slot blocks).

(** [plugin_exit] on the table and the records. *)
Definition plugin_exit (blocks : GHashTable.GHashTable Z)
    (records : gmap Z TBExecCount) : report :=
  let it := g_list_sort cmp_dynamic_insncount (counts blocks records) in
  let '(total, section1) :=
    match it with
    | [] => (0, [])
    | _ => let total := total_insn_executed it in
           (total, insn_line total <$> visited it)
    end in
  let it2 := g_list_sort cmp_dynamic_execcount (counts blocks records) in
  let section2 :=
    match it2 with
    | [] => []
    | _ => exec_line total <$> visited it2
    end in
  {| collected := signed32 (GHashTable.g_hash_table_size blocks);
     by_dynamic_instructions := section1;
     by_dynamic_invocations := section2;
     dynamic_instruction_count := signed64 total;
     translation_blocks_executed := signed32 (GHashTable.g_hash_table_size blocks) |}.

(** The report of a whole run. *)
Definition run_and_exit (evs : list event) : option report :=
  match run evs with
  | Some blocks => Some (plugin_exit blocks (HotBlocks.run evs))
  | None => None
  end.

End HotBlocksTable.

(** ** Concrete runs used as examples *)

Module Scenarios.

Definition plain_insn : qemu_plugin_insn :=
  {| insn_size := 4; insn_data := [19; 0; 0; 0];
     insn_disas := "nop"; insn_symbol := Some "main"%string |}.

(** A block of [n] instructions at address [addr]. *)
Definition block_at (addr : Z) (n : nat) : qemu_plugin_tb :=
  {| tb_vaddr := addr; tb_insns := replicate n plain_insn |}.

Definition always_opens (name : string) : bool := true.

(** The globals after installation with [argv]; the defaults when the
    options are refused. *)
Definition installed (argv : list string) : Bbv.state :=
  default Bbv.initial_state (Bbv.qemu_plugin_install always_opens argv).2.

(** Interval of 100 instructions, one block of 40 executed three times. *)
Definition argv_100 : list string :=
  ["bb-out-file=bbv.out"%string; "interval-size=100"%string].

Definition three_times_40 : list Bbv.event :=
  [Bbv.Translate (block_at 4096 40);
   Bbv.Execute 4096; Bbv.Execute 4096; Bbv.Execute 4096].

(** Interval of 100 instructions, one block of 50 executed twice. *)
Definition twice_50 : list Bbv.event :=
  [Bbv.Translate (block_at 4096 50); Bbv.Execute 4096; Bbv.Execute 4096].

(** Interval of 10 instructions, one block of 40 executed twice. *)
Definition argv_10 : list string :=
  ["bb-out-file=bbv.out"%string; "interval-size=10"%string].

Definition twice_40 : list Bbv.event :=
  [Bbv.Translate (block_at 4096 40); Bbv.Execute 4096; Bbv.Execute 4096].

Definition argv_0 : list string :=
  ["bb-out-file=bbv.out"%string; "interval-size=0"%string].

(** Hot blocks: a block of 10 instructions executed five times and a
    block of 20 instructions executed once. *)
Definition five_and_one : list HotBlocks.event :=
  [HotBlocks.Translate (block_at 4096 10); HotBlocks.Translate (block_at 8192 20);
   HotBlocks.Execute 4096; HotBlocks.Execute 4096; HotBlocks.Execute 4096;
   HotBlocks.Execute 4096; HotBlocks.Execute 4096; HotBlocks.Execute 8192].

(** Hot blocks: one block of one instruction, executed once. *)
Definition one_block_once : list HotBlocks.event :=
  [HotBlocks.Translate (block_at 4096 1); HotBlocks.Execute 4096].

(** Hot blocks: two blocks translated and never executed. *)
Definition two_never_executed : list HotBlocks.event :=
  [HotBlocks.Translate (block_at 4096 1); HotBlocks.Translate (block_at 8192 1)].

(** Hot blocks: three blocks of one instruction; the two at 4096 and
    8192 are executed once each; translated in two different orders. *)
Definition tie_4096_first : list HotBlocks.event :=
  [HotBlocks.Translate (block_at 4096 1); HotBlocks.Translate (block_at 8192 1);
   HotBlocks.Translate (block_at 12288 1);
   HotBlocks.Execute 4096; HotBlocks.Execute 8192].

Definition tie_8192_first : list HotBlocks.event :=
  [HotBlocks.Translate (block_at 8192 1); HotBlocks.Translate (block_at 4096 1);
   HotBlocks.Translate (block_at 12288 1);
   HotBlocks.Execute 4096; HotBlocks.Execute 8192].

(** Hot blocks: the same with 32768 in the place of 8192; in a table of
    eight slots 4096 and 32768 have the same first slot. *)
Definition tie_4096_before_32768 : list HotBlocks.event :=
  [HotBlocks.Translate (block_at 4096 1); HotBlocks.Translate (block_at 32768 1);
   HotBlocks.Translate (block_at 12288 1);
   HotBlocks.Execute 4096; HotBlocks.Execute 32768].

Definition tie_32768_before_4096 : list HotBlocks.event :=
  [HotBlocks.Translate (block_at 32768 1); HotBlocks.Translate (block_at 4096 1);
   HotBlocks.Translate (block_at 12288 1);
   HotBlocks.Execute 4096; HotBlocks.Execute 32768].

End Scenarios.

(** ** The RISC-V memory-consistency-model prctl

    Two revisions of the header are in the sources.  The values of
    [PR_MEMORY_CONSISTENCY_MODEL_RISCV_WMO],
    [PR_MEMORY_CONSISTENCY_MODEL_RISCV_TSO] and [TARGET_EINVAL] come from
    headers outside them and are parameters here.  [env_archcpu] maps the
    CPU state to the CPU object that contains it: the functions take the
    CPU object, of which only the fields they read or write are kept. *)

Module TargetPrctl.

(** linux-user/riscv/target_prctl.h *)

Record RISCVCPUConfig := { ext_ssdtso : bool; ext_ztso : bool }.

Record CPURISCVState := { dtso_ena : bool }.

Record RISCVCPU := { cfg : RISCVCPUConfig; env : CPURISCVState }.

Definition set_env (e : CPURISCVState) (cpu : RISCVCPU) : RISCVCPU :=
  {| cfg := cfg cpu; env := e |}.

Definition riscv_dtso_enable (e : CPURISCVState) : CPURISCVState :=
  {| dtso_ena := true |}.

Definition riscv_dtso_disable (e : CPURISCVState) : CPURISCVState :=
  {| dtso_ena := false |}.

Definition riscv_dtso_is_enabled (e : CPURISCVState) : bool := dtso_ena e.

Section constants.
Variables PR_MEMORY_CONSISTENCY_MODEL_RISCV_WMO
          PR_MEMORY_CONSISTENCY_MODEL_RISCV_TSO
          TARGET_EINVAL : Z.

(** The return value and the CPU object after the call. *)
Definition do_prctl_set_memory_consistency_model (cpu : RISCVCPU) (arg2 : Z)
  : Z * RISCVCPU :=
  let has_dtso := ext_ssdtso (cfg cpu) in
  if decide (arg2 = PR_MEMORY_CONSISTENCY_MODEL_RISCV_WMO) then
    (0, if has_dtso then set_env (riscv_dtso_disable (env cpu)) cpu else cpu)
  else if decide (arg2 = PR_MEMORY_CONSISTENCY_MODEL_RISCV_TSO) then
    (0, if has_dtso then set_env (riscv_dtso_enable (env cpu)) cpu else cpu)
  else (- TARGET_EINVAL, cpu).

Definition do_prctl_get_memory_consistency_model (cpu : RISCVCPU) : Z :=
  let has_tso := ext_ztso (cfg cpu) in
  let has_dtso := ext_ssdtso (cfg cpu) in
  if has_dtso && riscv_dtso_is_enabled (env cpu)
  then PR_MEMORY_CONSISTENCY_MODEL_RISCV_TSO
  else if has_tso then PR_MEMORY_CONSISTENCY_MODEL_RISCV_TSO
       else PR_MEMORY_CONSISTENCY_MODEL_RISCV_WMO.

(** A sequence of set calls, the return values dropped. *)
Definition set_all (cpu : RISCVCPU) (args : list Z) : RISCVCPU :=
  fold_left (fun c a => (do_prctl_set_memory_consistency_model c a).2) args cpu.

End constants.

End TargetPrctl.

Module TargetPrctlOneWay.

(** The revision of the header in which the model can only be switched
    from WMO to TSO. *)

Record RISCVCPUConfig := { ext_ssdtso : bool }.

Record CPURISCVState := { dtso_ena : bool }.

Record RISCVCPU := { cfg : RISCVCPUConfig; env : CPURISCVState }.

Definition set_env (e : CPURISCVState) (cpu : RISCVCPU) : RISCVCPU :=
  {| cfg := cfg cpu; env := e |}.

Definition riscv_dtso_set_enable (e : CPURISCVState) (enable : bool)
  : CPURISCVState :=
  {| dtso_ena := enable |}.

Definition riscv_dtso_is_enabled (e : CPURISCVState) : bool := dtso_ena e.

Section constants.
Variables PR_MEMORY_CONSISTENCY_MODEL_RISCV_WMO
          PR_MEMORY_CONSISTENCY_MODEL_RISCV_TSO
          TARGET_EINVAL : Z.

(** What is left of the function once the [switch] has set
    [dtso_ena_new]. *)
Definition set_requested (cpu : RISCVCPU) (dtso_ena_new : bool)
  : Z * RISCVCPU :=
  let dtso_ena_old := riscv_dtso_is_enabled (env cpu) in
  let has_dtso := ext_ssdtso (cfg cpu) in
  if decide (dtso_ena_old = dtso_ena_new) then (0, cpu)
  else if dtso_ena_new && negb has_dtso then (- TARGET_EINVAL, cpu)
  else if negb dtso_ena_new then (- TARGET_EINVAL, cpu)
  else (0, set_env (riscv_dtso_set_enable (env cpu) dtso_ena_new) cpu).

(** The return value and the CPU object after the call. *)
Definition do_prctl_set_memory_consistency_model (cpu : RISCVCPU) (arg2 : Z)
  : Z * RISCVCPU :=
  if decide (arg2 = PR_MEMORY_CONSISTENCY_MODEL_RISCV_WMO) then
    set_requested cpu false
  else if decide (arg2 = PR_MEMORY_CONSISTENCY_MODEL_RISCV_TSO) then
    set_requested cpu true
  else (- TARGET_EINVAL, cpu).

Definition do_prctl_get_memory_consistency_model (cpu : RISCVCPU) : Z :=
  if riscv_dtso_is_enabled (env cpu)
  then PR_MEMORY_CONSISTENCY_MODEL_RISCV_TSO
  else PR_MEMORY_CONSISTENCY_MODEL_RISCV_WMO.

(** A sequence of set calls, the return values dropped. *)
Definition set_all (cpu : RISCVCPU) (args : list Z) : RISCVCPU :=
  fold_left (fun c a => (do_prctl_set_memory_consistency_model c a).2) args cpu.

End constants.

End TargetPrctlOneWay.

(** ** What a run of callbacks has seen *)

Module BbvHistory.

(** The descriptor of the first translation of the block at [pc]. *)
Fixpoint first_translation_of (evs : list Bbv.event) (pc : Z)
  : option qemu_plugin_tb :=
  match evs with
  | [] => None
  | Bbv.Translate tb :: evs' =>
      if decide (qemu_plugin_tb_vaddr tb = pc) then Some tb
      else first_translation_of evs' pc
  | Bbv.Execute _ :: evs' => first_translation_of evs' pc
  end.

(** Every block that the run translates has at most [len] instructions. *)
Definition blocks_fit (len : Z) (evs : list Bbv.event) : Prop :=
  Forall (fun e => match e with
                   | Bbv.Translate tb => qemu_plugin_tb_n_insns tb <= len
                   | Bbv.Execute _ => True
                   end) evs.

(** Number of execution callbacks. *)
Fixpoint executions (evs : list Bbv.event) : nat :=
  match evs with
  | [] => O
  | Bbv.Translate _ :: evs' => executions evs'
  | Bbv.Execute _ :: evs' => S (executions evs')
  end.

(** The value of the last option of [argv] that starts with [prefix],
    which is [n] characters long. *)
Fixpoint last_option (prefix : string) (n : nat) (argv : list string)
  : option string :=
  match argv with
  | [] => None
  | opt :: rest =>
      match last_option prefix n rest with
      | Some v => Some v
      | None =>
          if g_str_has_prefix opt prefix then Some (str_drop n opt) else None
      end
  end.

End BbvHistory.

Module HotBlocksHistory.

(** The descriptor of the first translation of the block at [pc]. *)
Fixpoint first_translation_of (evs : list HotBlocks.event) (pc : Z)
  : option qemu_plugin_tb :=
  match evs with
  | [] => None
  | HotBlocks.Translate tb :: evs' =>
      if decide (qemu_plugin_tb_vaddr tb = pc) then Some tb
      else first_translation_of evs' pc
  | HotBlocks.Execute _ :: evs' => first_translation_of evs' pc
  end.

(** Number of translations of the block at [pc]. *)
Fixpoint translations (evs : list HotBlocks.event) (pc : Z) : Z :=
  match evs with
  | [] => 0
  | HotBlocks.Translate tb :: evs' =>
      (if decide (qemu_plugin_tb_vaddr tb = pc) then 1 else 0)
      + translations evs' pc
  | HotBlocks.Execute _ :: evs' => translations evs' pc
  end.

(** Number of executions of the block at [pc]. *)
Fixpoint executions (evs : list HotBlocks.event) (pc : Z) : Z :=
  match evs with
  | [] => 0
  | HotBlocks.Translate _ :: evs' => executions evs' pc
  | HotBlocks.Execute pc' :: evs' =>
      (if decide (pc' = pc) then 1 else 0) + executions evs' pc
  end.

(** Number of executions of the block at [pc] that follow its first
    translation. *)
Fixpoint executions_once_translated (evs : list HotBlocks.event) (pc : Z) : Z :=
  match evs with
  | [] => 0
  | HotBlocks.Translate tb :: evs' =>
      if decide (qemu_plugin_tb_vaddr tb = pc) then executions evs' pc
      else executions_once_translated evs' pc
  | HotBlocks.Execute _ :: evs' => executions_once_translated evs' pc
  end.

End HotBlocksHistory.

(** * Facts about the list sort *)

Section g_list_sort_facts.
Context {A : Type} (key : A -> Z) (compare_func : A -> A -> Z).
Hypothesis compare_key : forall a b, compare_func a b <= 0 <-> key a > key b.

Lemma div2_bounds n : (2 <= n -> 0 < Nat.div2 n < n)%nat.
Proof.
  intros Hn. rewrite Nat.div2_div.
  split; [apply Nat.div_str_pos | apply Nat.div_lt]; lia.
Qed.

Lemma g_list_sort_merge_cons x1 x2 l1 l2 :
  g_list_sort_merge compare_func (x1 :: l1) (x2 :: l2) =
    if Z_le_dec (compare_func x1 x2) 0
    then x1 :: g_list_sort_merge compare_func l1 (x2 :: l2)
    else x2 :: g_list_sort_merge compare_func (x1 :: l1) l2.
Proof. reflexivity. Qed.

Lemma g_list_sort_merge_nil_l l2 : g_list_sort_merge compare_func [] l2 = l2.
Proof. destruct l2; reflexivity. Qed.

Lemma g_list_sort_merge_nil_r l1 : g_list_sort_merge compare_func l1 [] = l1.
Proof. destruct l1; reflexivity. Qed.

Lemma g_list_sort_merge_perm l1 l2 :
  g_list_sort_merge compare_func l1 l2 ≡ₚ l1 ++ l2.
Proof.
  revert l2. induction l1 as [|x1 l1 IH1]; intros l2.
  { rewrite g_list_sort_merge_nil_l. reflexivity. }
  induction l2 as [|x2 l2 IH2].
  - rewrite g_list_sort_merge_nil_r, app_nil_r. reflexivity.
  - rewrite g_list_sort_merge_cons. destruct (Z_le_dec _ _).
    + simpl. f_equiv. apply IH1.
    + rewrite IH2. apply Permutation_middle.
Qed.

Lemma g_list_sort_real_perm fuel l :
  g_list_sort_real compare_func fuel l ≡ₚ l.
Proof.
  revert l. induction fuel as [|fuel IH]; intros l; [reflexivity|].
  destruct l as [|x [|y l]]; [reflexivity..|].
  cbn [g_list_sort_real]. rewrite g_list_sort_merge_perm, !IH.
  rewrite take_drop. reflexivity.
Qed.

Lemma g_list_sort_perm l : g_list_sort compare_func l ≡ₚ l.
Proof. apply g_list_sort_real_perm. Qed.

Lemma g_list_sort_merge_descending l1 l2 :
  descending key l1 -> descending key l2 ->
  descending key (g_list_sort_merge compare_func l1 l2).
Proof.
  unfold descending. intros H1. revert l2.
  induction H1 as [|x1 l1 Hs1 IH1 Hall1]; intros l2 H2.
  { rewrite g_list_sort_merge_nil_l. assumption. }
  induction H2 as [|x2 l2 Hs2 IH2 Hall2].
  { rewrite g_list_sort_merge_nil_r. constructor; assumption. }
  rewrite g_list_sort_merge_cons. destruct (Z_le_dec _ _) as [Hle|Hgt].
  - apply compare_key in Hle. constructor.
    + apply IH1. constructor; assumption.
    + rewrite g_list_sort_merge_perm. apply Forall_app. split; [assumption|].
      constructor; [lia|]. eapply Forall_impl; [exact Hall2|]. simpl. lia.
  - assert (key x1 <= key x2) by (rewrite compare_key in Hgt; lia).
    constructor; [exact IH2|].
    rewrite g_list_sort_merge_perm. apply Forall_app. split; [|assumption].
    constructor; [lia|]. eapply Forall_impl; [exact Hall1|]. simpl. lia.
Qed.

Lemma g_list_sort_real_descending fuel l :
  (length l <= fuel)%nat -> descending key (g_list_sort_real compare_func fuel l).
Proof.
  revert l. induction fuel as [|fuel IH]; intros l Hlen.
  { destruct l; [constructor | simpl in Hlen; lia]. }
  destruct l as [|x [|y l]].
  - constructor.
  - repeat constructor.
  - cbn [g_list_sort_real].
    set (half := Nat.div2 (length (x :: y :: l))).
    assert (0 < half < length (x :: y :: l))%nat as Hhalf
      by (subst half; apply div2_bounds; simpl; lia).
    apply g_list_sort_merge_descending; apply IH.
    + rewrite length_take. lia.
    + rewrite length_drop. lia.
Qed.

Lemma g_list_sort_descending l : descending key (g_list_sort compare_func l).
Proof. apply g_list_sort_real_descending. reflexivity. Qed.

Lemma filter_key_none k l :
  Forall (fun a => key a < k) l -> filter (fun a => key a = k) l = [].
Proof.
  induction 1 as [|x l Hx _ IH]; [reflexivity|].
  rewrite filter_cons, decide_False by lia. exact IH.
Qed.

(** Cells with one and the same key: the merge emits those of the
    second run before those of the first. *)
Lemma g_list_sort_merge_ties k l1 l2 :
  descending key l2 ->
  filter (fun a => key a = k) (g_list_sort_merge compare_func l1 l2) =
  filter (fun a => key a = k) l2 ++ filter (fun a => key a = k) l1.
Proof.
  unfold descending. revert l2. induction l1 as [|x1 l1 IH1]; intros l2 H2.
  { rewrite g_list_sort_merge_nil_l, app_nil_r. reflexivity. }
  induction H2 as [|x2 l2 Hs2 IH2 Hall2].
  { rewrite g_list_sort_merge_nil_r. reflexivity. }
  rewrite g_list_sort_merge_cons. destruct (Z_le_dec _ _) as [Hle|Hgt].
  - apply compare_key in Hle.
    rewrite (filter_cons _ x1), (filter_cons _ x1 l1).
    rewrite IH1 by (constructor; assumption).
    destruct (decide (key x1 = k)) as [Hk|Hk]; [|reflexivity].
    rewrite (filter_key_none k (x2 :: l2)); [reflexivity|].
    constructor; [lia|]. eapply Forall_impl; [exact Hall2|]. simpl. lia.
  - rewrite (filter_cons _ x2), (filter_cons _ x2 l2), IH2.
    destruct (decide (key x2 = k)); reflexivity.
Qed.

Lemma g_list_sort_real_ties k fuel l :
  (length l <= fuel)%nat ->
  filter (fun a => key a = k) (g_list_sort_real compare_func fuel l) =
  reverse (filter (fun a => key a = k) l).
Proof.
  revert l. induction fuel as [|fuel IH]; intros l Hlen.
  { destruct l; [reflexivity | simpl in Hlen; lia]. }
  destruct l as [|x [|y l]]; [reflexivity| |].
  - cbn [g_list_sort_real]. rewrite filter_cons.
    destruct (decide _); reflexivity.
  - cbn [g_list_sort_real].
    set (half := Nat.div2 (length (x :: y :: l))).
    assert (0 < half < length (x :: y :: l))%nat as Hhalf
      by (subst half; apply div2_bounds; simpl; lia).
    rewrite g_list_sort_merge_ties.
    + rewrite !IH by (rewrite ?length_take, ?length_drop; lia).
      rewrite <- reverse_app, <- filter_app, take_drop. reflexivity.
    + apply g_list_sort_real_descending. rewrite length_drop. lia.
Qed.

Lemma g_list_sort_ties k l :
  filter (fun a => key a = k) (g_list_sort compare_func l) =
  reverse (filter (fun a => key a = k) l).
Proof. apply g_list_sort_real_ties. reflexivity. Qed.

Lemma descending_lookup l i j a b :
  descending key l -> (i < j)%nat -> l !! i = Some a -> l !! j = Some b ->
  key b <= key a.
Proof.
  intros Hl. revert i j. induction Hl as [|x l _ IH Hall]; intros i j Hij Hi Hj.
  { rewrite lookup_nil in Hi. discriminate. }
  destruct j as [|j]; [lia|]. destruct i as [|i].
  - simpl in Hi, Hj. injection Hi as ->.
    rewrite Forall_forall in Hall. apply Hall.
    eapply list_elem_of_lookup_2. exact Hj.
  - simpl in Hi, Hj. apply (IH i j); [lia|assumption..].
Qed.
End g_list_sort_facts.

Lemma lookup_removelast {A} (l : list A) i a :
  removelast l !! i = Some a -> l !! i = Some a.
Proof.
  revert i. induction l as [|x l IH]; intros i; [done|].
  destruct l as [|y l]; [done|].
  change (removelast (x :: y :: l)) with (x :: removelast (y :: l)).
  destruct i as [|i]; [done|]. simpl. apply IH.
Qed.

(** * Facts about the basic-block-vector plugin *)

(** ** Facts on 64-bit arithmetic *)

Lemma modulus_eq : modulus = 18446744073709551616.
Proof. reflexivity. Qed.

Lemma wrap64_small x : 0 <= x < modulus -> wrap64 x = x.
Proof. intros H. unfold wrap64. apply Z.mod_small. exact H. Qed.

Lemma wrap64_range x : 0 <= wrap64 x < modulus.
Proof. unfold wrap64. apply Z.mod_pos_bound. rewrite modulus_eq. lia. Qed.

Lemma wrap64_decompose x : exists q, wrap64 x = x + modulus * q.
Proof.
  exists (- (x / modulus)). unfold wrap64.
  pose proof (Z.div_mod x modulus) as H. rewrite modulus_eq in *. lia.
Qed.

Lemma signed64_small x : - 2 ^ 63 <= x < 2 ^ 63 -> signed64 x = x.
Proof.
  intros H. unfold signed64.
  destruct (wrap64_decompose x) as [q Hq].
  pose proof (wrap64_range x) as Hr. rewrite modulus_eq in *.
  destruct (Z_lt_dec (wrap64 x) (2 ^ 63)); lia.
Qed.

Lemma signed64_decompose x : exists q, signed64 x = x + modulus * q.
Proof.
  unfold signed64. destruct (wrap64_decompose x) as [q Hq].
  destruct (Z_lt_dec (wrap64 x) (2 ^ 63)).
  - exists q. exact Hq.
  - exists (q - 1). lia.
Qed.

Lemma signed64_wrap64 x : signed64 (wrap64 x) = signed64 x.
Proof.
  unfold signed64. rewrite (wrap64_small (wrap64 x)) by apply wrap64_range.
  reflexivity.
Qed.

Lemma congruent_mod a b q : a = b + modulus * q -> a mod modulus = b mod modulus.
Proof.
  intros ->. rewrite Z.mul_comm. apply Z_mod_plus_full.
Qed.

(** ** Facts on sums *)

Lemma sumZ_cons x l : sumZ (x :: l) = x + sumZ l.
Proof. reflexivity. Qed.

Lemma sumZ_app l1 l2 : sumZ (l1 ++ l2) = sumZ l1 + sumZ l2.
Proof. induction l1 as [|x l1 IH]; simpl; lia. Qed.

Lemma sumZ_perm l1 l2 : l1 ≡ₚ l2 -> sumZ l1 = sumZ l2.
Proof. induction 1; simpl; lia. Qed.

Lemma sumZ_nonneg l : Forall (fun x => 0 <= x) l -> 0 <= sumZ l.
Proof. induction 1; simpl; lia. Qed.

Lemma sumZ_zero l : Forall (fun x => x = 0) l -> sumZ l = 0.
Proof. induction 1; simpl; lia. Qed.

Section bbv_facts.
Import Bbv.

Section table_sums.
Implicit Types (m : gmap Z BBExecutionFrequency) (f : BBExecutionFrequency -> Z).

Lemma sum_counts_empty f : sum_counts f ∅ = 0.
Proof. unfold sum_counts, g_hash_table_get_values. rewrite map_to_list_empty. reflexivity. Qed.

Lemma sum_counts_insert_fresh f m pc info :
  m !! pc = None -> sum_counts f (<[pc := info]> m) = f info + sum_counts f m.
Proof.
  intros Hpc. unfold sum_counts, g_hash_table_get_values.
  rewrite (sumZ_perm _ (f <$> ((pc, info) :: map_to_list m).*2)).
  - reflexivity.
  - do 2 f_equiv. apply map_to_list_insert. exact Hpc.
Qed.

Lemma sum_counts_delete f m pc info :
  m !! pc = Some info -> sum_counts f m = f info + sum_counts f (delete pc m).
Proof.
  intros Hpc. rewrite <- (sum_counts_insert_fresh f (delete pc m) pc info).
  - rewrite insert_delete_id by exact Hpc. reflexivity.
  - apply lookup_delete_eq.
Qed.

Lemma sum_counts_update f m pc info info' :
  m !! pc = Some info ->
  sum_counts f (<[pc := info']> m) = sum_counts f m - f info + f info'.
Proof.
  intros Hpc. rewrite (sum_counts_delete f m pc info Hpc).
  rewrite <- (insert_delete_eq m), sum_counts_insert_fresh by apply lookup_delete_eq.
  lia.
Qed.

Lemma sum_counts_fmap f (g : BBExecutionFrequency -> BBExecutionFrequency) m :
  sum_counts f (g <$> m) = sum_counts (f ∘ g) m.
Proof.
  unfold sum_counts, g_hash_table_get_values.
  rewrite map_to_list_fmap, <- !list_fmap_compose. reflexivity.
Qed.

Lemma table_values_Forall (P : BBExecutionFrequency -> Prop) m :
  (forall pc info, m !! pc = Some info -> P info) ->
  Forall P (g_hash_table_get_values m).
Proof.
  intros HP. unfold g_hash_table_get_values.
  apply Forall_fmap, Forall_forall. intros [pc info] Hin.
  apply elem_of_map_to_list in Hin. exact (HP pc info Hin).
Qed.

Lemma sum_counts_ext f g m :
  (forall pc info, m !! pc = Some info -> f info = g info) ->
  sum_counts f m = sum_counts g m.
Proof.
  intros Hfg. unfold sum_counts. f_equal.
  apply Forall_fmap_ext, table_values_Forall. exact Hfg.
Qed.

Lemma sum_counts_nonneg f m :
  (forall pc info, m !! pc = Some info -> 0 <= f info) ->
  0 <= sum_counts f m.
Proof.
  intros Hf. apply sumZ_nonneg, Forall_fmap, table_values_Forall. exact Hf.
Qed.

Lemma sum_counts_zero f m :
  (forall pc info, m !! pc = Some info -> f info = 0) ->
  sum_counts f m = 0.
Proof.
  intros Hf. apply sumZ_zero, Forall_fmap, table_values_Forall. exact Hf.
Qed.

(** A non-negative field of one record is at most the sum. *)
Lemma sum_counts_bound f m pc info :
  (forall pc' info', m !! pc' = Some info' -> 0 <= f info') ->
  m !! pc = Some info -> f info <= sum_counts f m.
Proof.
  intros Hf Hpc. rewrite (sum_counts_delete f m pc info Hpc).
  assert (0 <= sum_counts f (delete pc m)); [|lia].
  apply sum_counts_nonneg. intros pc' info' Hl.
  apply lookup_delete_Some in Hl as [_ Hl]. exact (Hf pc' info' Hl).
Qed.

(** The pairs of a line add up to the signed counts of the table. *)
Lemma line_total_foreach m :
  line_total (foreach_print_bb_freq m).1 =
  sum_counts (signed64 ∘ tb_dynamic_count) m.
Proof.
  unfold foreach_print_bb_freq, line_total, sum_counts, g_hash_table_get_values.
  cbn [fst]. induction (map_to_list m) as [|[pc info] l IH]; [reflexivity|].
  cbn [omap list_omap fmap list_fmap snd]. unfold print_bb_freq at 1.
  destruct (decide (tb_dynamic_count info = 0)) as [Hz|Hz]; cbn [fst snd sumZ foldr fmap list_fmap].
  - fold (omap (fun kv : Z * BBExecutionFrequency => (print_bb_freq kv.2).1) l).
    change (foldr Z.add 0) with sumZ. cbn. rewrite Hz.
    change (signed64 0) with 0. rewrite <- IH. reflexivity.
  - change (foldr Z.add 0) with sumZ. cbn. cbn in IH. rewrite <- IH. reflexivity.
Qed.

Lemma print_bb_freq_reset info :
  tb_dynamic_count (print_bb_freq info).2 = 0.
Proof.
  unfold print_bb_freq. destruct (decide _) as [Hz|Hz]; [exact Hz|reflexivity].
Qed.

Lemma print_bb_freq_is_reset info :
  (print_bb_freq info).2 = set_tb_dynamic_count 0 info.
Proof.
  unfold print_bb_freq. destruct (decide _) as [Hz|Hz]; [|reflexivity].
  destruct info; simpl in *. subst. reflexivity.
Qed.
End table_sums.

Lemma stream_total_snoc out line :
  stream_total (out ++ [line]) = stream_total out + line_total line.
Proof.
  unfold stream_total. rewrite fmap_app, sumZ_app. cbn. lia.
Qed.

(** ** One execution callback *)

Lemma set_tb_dynamic_count_twice a b info :
  set_tb_dynamic_count a (set_tb_dynamic_count b info) = set_tb_dynamic_count a info.
Proof. reflexivity. Qed.

Lemma reset_table (m : gmap Z BBExecutionFrequency) :
  (foreach_print_bb_freq m).2 = set_tb_dynamic_count 0 <$> m.
Proof.
  unfold foreach_print_bb_freq. cbn [snd].
  apply map_fmap_ext. intros pc info _. apply print_bb_freq_is_reset.
Qed.

(** The running total stays at or below the interval length: the counts
    are bumped and nothing is written. *)
Lemma vcpu_tb_exec_below st pc info :
  blocks st !! pc = Some info ->
  wrap64 (insns_executed st + n_insns info) <= insns_interval_length st ->
  vcpu_tb_exec st pc =
    set_insns_executed (wrap64 (insns_executed st + n_insns info))
      (set_blocks
         (<[pc := set_tb_dynamic_count
                    (wrap64 (tb_dynamic_count info + n_insns info)) info]>
            (blocks st)) st).
Proof.
  intros Hpc Hle. unfold vcpu_tb_exec. rewrite Hpc.
  rewrite decide_False by (cbn; lia). reflexivity.
Qed.

(** The running total passes the interval length: one line is written
    and the table is reset, but for the record that was hit. *)
Lemma vcpu_tb_exec_above st pc info out :
  blocks st !! pc = Some info ->
  bb_out st = Some out ->
  wrap64 (insns_executed st + n_insns info) > insns_interval_length st ->
  let overshoot :=
    wrap64 (wrap64 (insns_executed st + n_insns info) - insns_interval_length st) in
  let credited :=
    wrap64 (wrap64 (tb_dynamic_count info + n_insns info) - overshoot) in
  vcpu_tb_exec st pc =
    {| blocks := <[pc := set_tb_dynamic_count overshoot info]>
                   (set_tb_dynamic_count 0 <$> blocks st);
       insns_interval_length := insns_interval_length st;
       bb_out :=
         Some (out ++ [(foreach_print_bb_freq
                          (<[pc := set_tb_dynamic_count credited info]>
                             (blocks st))).1]);
       pc_out := pc_out st;
       insns_executed := overshoot;
       next_tbid := next_tbid st |}.
Proof.
  intros Hpc Hout Hgt overshoot credited. unfold vcpu_tb_exec. rewrite Hpc.
  rewrite decide_True by (cbn; lia).
  unfold handle_interval_expiry. cbn [bb_out set_insns_executed set_blocks blocks
    insns_interval_length insns_executed].
  rewrite Hout, insert_insert_eq.
  cbn [tb_dynamic_count set_tb_dynamic_count n_insns].
  fold overshoot. fold credited.
  rewrite (surjective_pairing (foreach_print_bb_freq _)).
  rewrite reset_table, fmap_insert.
  unfold set_blocks, set_bb_out, set_insns_executed.
  cbn [blocks bb_out pc_out insns_executed insns_interval_length next_tbid].
  rewrite alter_insert_eq. reflexivity.
Qed.

Lemma vcpu_tb_exec_unknown st pc :
  blocks st !! pc = None -> vcpu_tb_exec st pc = st.
Proof. intros Hpc. unfold vcpu_tb_exec. rewrite Hpc. reflexivity. Qed.

(** ** Exact accounting, while the counters stay below [2^63] *)

Section exact.
Variables (st : state) (pc : Z) (info : BBExecutionFrequency).
Hypothesis Hst : consistent st.
Hypothesis Hpc : blocks st !! pc = Some info.
Hypothesis Hfit : insns_executed st + n_insns info < 2 ^ 63.

Local Lemma exact_bounds :
  0 <= tb_dynamic_count info <= insns_executed st /\ 0 <= n_insns info.
Proof.
  destruct Hst as [_ _ Hrec Hsum].
  destruct (Hrec pc info Hpc) as [Hc Hn]. repeat split; try assumption.
  rewrite <- Hsum. apply (sum_counts_bound tb_dynamic_count (blocks st) pc info).
  - intros pc' info' H'. apply (Hrec pc' info' H').
  - exact Hpc.
Qed.

Lemma wrap64_executed :
  wrap64 (insns_executed st + n_insns info) = insns_executed st + n_insns info.
Proof.
  pose proof exact_bounds. apply wrap64_small. rewrite modulus_eq. lia.
Qed.

Lemma exec_below_consistent :
  insns_executed st + n_insns info <= insns_interval_length st ->
  let st' := vcpu_tb_exec st pc in
  consistent st' /\ bb_out st' = bb_out st /\
  insns_executed st' = insns_executed st + n_insns info /\
  blocks st' !! pc =
    Some (set_tb_dynamic_count (tb_dynamic_count info + n_insns info) info).
Proof.
  intros Hle st'. pose proof exact_bounds as Hb.
  subst st'. rewrite (vcpu_tb_exec_below st pc info Hpc)
    by (rewrite wrap64_executed; exact Hle).
  rewrite wrap64_executed.
  rewrite (wrap64_small (tb_dynamic_count info + n_insns info))
    by (rewrite modulus_eq; lia).
  destruct Hst as [Hout HL Hrec Hsum].
  split; [|split; [reflexivity|split; [reflexivity|]]].
  - constructor; cbn.
    + exact Hout.
    + exact HL.
    + intros pc' info' Hl. apply lookup_insert_Some in Hl as [[-> <-]|[_ Hl]].
      * cbn. lia.
      * exact (Hrec pc' info' Hl).
    + rewrite (sum_counts_update _ _ _ _ _ Hpc). cbn. lia.
  - cbn. apply lookup_insert_eq.
Qed.

Lemma exec_above_consistent out :
  bb_out st = Some out ->
  insns_executed st + n_insns info > insns_interval_length st ->
  let st' := vcpu_tb_exec st pc in
  let overshoot := insns_executed st + n_insns info - insns_interval_length st in
  consistent st' /\
  (exists line, bb_out st' = Some (out ++ [line]) /\
                line_total line = insns_interval_length st /\
                line = (foreach_print_bb_freq
                          (<[pc := set_tb_dynamic_count
                                     (wrap64 (tb_dynamic_count info + n_insns info - overshoot))
                                     info]> (blocks st))).1) /\
  insns_executed st' = overshoot /\
  insns_interval_length st' = insns_interval_length st /\
  blocks st' !! pc = Some (set_tb_dynamic_count overshoot info).
Proof.
  intros Hout Hgt st' overshoot. pose proof exact_bounds as Hb.
  destruct Hst as [Hsome HL Hrec Hsum].
  subst st'. rewrite (vcpu_tb_exec_above st pc info out Hpc Hout)
    by (rewrite wrap64_executed; exact Hgt).
  rewrite wrap64_executed.
  rewrite (wrap64_small (tb_dynamic_count info + n_insns info))
    by (rewrite modulus_eq; lia).
  rewrite (wrap64_small (insns_executed st + n_insns info - insns_interval_length st))
    by (rewrite modulus_eq; lia).
  fold overshoot.
  split; [|split; [|split; [reflexivity|split; [reflexivity|]]]].
  - constructor; cbn.
    + eauto.
    + exact HL.
    + intros pc' info' Hl. apply lookup_insert_Some in Hl as [[-> <-]|[_ Hl]].
      * cbn. subst overshoot. lia.
      * apply lookup_fmap_Some in Hl as (info0 & <- & Hl). cbn.
        split; [lia|]. apply (Hrec pc' info0 Hl).
    + rewrite (sum_counts_update _ _ _ (set_tb_dynamic_count 0 info)).
      * rewrite sum_counts_fmap, sum_counts_zero by reflexivity. cbn. lia.
      * rewrite lookup_fmap, Hpc. reflexivity.
  - eexists. split; [reflexivity|]. split; [|reflexivity].
    rewrite line_total_foreach.
    rewrite (sum_counts_update _ _ _ _ _ Hpc). unfold compose. cbn.
    rewrite signed64_wrap64.
    rewrite (signed64_small (tb_dynamic_count info + n_insns info - overshoot))
      by (subst overshoot; lia).
    rewrite (signed64_small (tb_dynamic_count info)) by lia.
    rewrite (sum_counts_ext (fun x => signed64 (tb_dynamic_count x)) tb_dynamic_count).
    + rewrite Hsum. subst overshoot. lia.
    + intros pc' info' Hl. apply signed64_small.
      pose proof (sum_counts_bound tb_dynamic_count (blocks st) pc' info') as Hbd.
      destruct (Hrec pc' info' Hl) as [Hc' _].
      specialize (Hbd (fun p i H => proj1 (Hrec p i H)) Hl). lia.
  - cbn. apply lookup_insert_eq.
Qed.
End exact.

(** ** Accounting modulo [2^64], with no bound on the counters *)

Lemma sumZ_signed64 (l : list Z) :
  exists q, sumZ (signed64 <$> l) = sumZ l + modulus * q.
Proof.
  induction l as [|x l [q IH]].
  - exists 0. simpl. lia.
  - destruct (signed64_decompose x) as [q' Hx].
    exists (q + q'). rewrite fmap_cons, !sumZ_cons, IH, Hx. lia.
Qed.

Lemma sum_counts_signed64 (m : gmap Z BBExecutionFrequency) :
  exists q, sum_counts (signed64 ∘ tb_dynamic_count) m =
            sum_counts tb_dynamic_count m + modulus * q.
Proof.
  unfold sum_counts. rewrite list_fmap_compose. apply sumZ_signed64.
Qed.

Lemma exec_consistent_mod st pc out :
  consistent_mod st -> bb_out st = Some out ->
  let st' := vcpu_tb_exec st pc in
  consistent_mod st' /\
  exists out' q,
    bb_out st' = Some out' /\
    stream_total out' + insns_executed st' =
      stream_total out + insns_executed st
      + executed_by st (Execute pc) + modulus * q.
Proof.
  intros [Hsome [q0 Hsum]] Hout st'. subst st'. cbn [executed_by].
  destruct (blocks st !! pc) as [info|] eqn:Hpc.
  2:{ rewrite vcpu_tb_exec_unknown by exact Hpc. split; [split; eauto|].
      exists out, 0. split; [exact Hout|lia]. }
  destruct (wrap64_decompose (insns_executed st + n_insns info)) as [q1 H1].
  destruct (wrap64_decompose (tb_dynamic_count info + n_insns info)) as [q2 H2].
  destruct (Z_le_gt_dec (wrap64 (insns_executed st + n_insns info))
              (insns_interval_length st)) as [Hle|Hgt].
  - rewrite (vcpu_tb_exec_below st pc info Hpc Hle). cbn. split.
    + split; [exact Hsome|]. cbn.
      rewrite (sum_counts_update _ _ _ _ _ Hpc). cbn.
      exists (q0 + q2 - q1). lia.
    + exists out, q1. split; [exact Hout|lia].
  - rewrite (vcpu_tb_exec_above st pc info out Hpc Hout Hgt).
    cbn [bb_out insns_executed blocks].
    set (e := wrap64 (insns_executed st + n_insns info)) in *.
    set (c1 := wrap64 (tb_dynamic_count info + n_insns info)) in *.
    destruct (wrap64_decompose (e - insns_interval_length st)) as [q3 H3].
    set (o := wrap64 (e - insns_interval_length st)) in *.
    destruct (wrap64_decompose (c1 - o)) as [q4 H4].
    set (v := wrap64 (c1 - o)) in *.
    split.
    + split; [eauto|]. cbn.
      rewrite (sum_counts_update _ _ _ (set_tb_dynamic_count 0 info))
        by (rewrite lookup_fmap, Hpc; reflexivity).
      rewrite sum_counts_fmap, sum_counts_zero by reflexivity. cbn.
      exists 0. lia.
    + destruct (sum_counts_signed64 (<[pc:=set_tb_dynamic_count v info]> (blocks st)))
        as [q5 H5].
      eexists _, (q0 + q2 + q4 + q5). split; [reflexivity|].
      rewrite stream_total_snoc, line_total_foreach, H5.
      rewrite (sum_counts_update _ _ _ _ _ Hpc). cbn. lia.
Qed.

(** ** What a callback leaves untouched *)

Lemma set_tb_dynamic_count_same info :
  set_tb_dynamic_count (tb_dynamic_count info) info = info.
Proof. destruct info; reflexivity. Qed.

(** An execution callback changes nothing but counts. *)
Lemma vcpu_tb_exec_records st pc pc' info' :
  blocks (vcpu_tb_exec st pc) !! pc' = Some info' ->
  exists info0 v, blocks st !! pc' = Some info0 /\
                  info' = set_tb_dynamic_count v info0.
Proof.
  unfold vcpu_tb_exec. destruct (blocks st !! pc) as [info|] eqn:Hpc.
  2:{ intros H. exists info', (tb_dynamic_count info').
      rewrite set_tb_dynamic_count_same. auto. }
  assert (forall (m : gmap Z BBExecutionFrequency) v,
    <[pc := set_tb_dynamic_count v info]> m !! pc' = Some info' ->
    m !! pc' = blocks st !! pc' \/
      (exists info1 w, blocks st !! pc' = Some info1 /\ m !! pc' = Some (set_tb_dynamic_count w info1)) ->
    exists info0 v0, blocks st !! pc' = Some info0 /\
                     info' = set_tb_dynamic_count v0 info0) as Hins.
  { intros m v Hl Hm. apply lookup_insert_Some in Hl as [[-> <-]|[Hne Hl]].
    - eauto.
    - destruct Hm as [Hm|(info1 & w & H1 & H2)].
      + rewrite Hm in Hl. exists info', (tb_dynamic_count info').
        rewrite set_tb_dynamic_count_same. auto.
      + rewrite H2 in Hl. injection Hl as <-. eauto. }
  destruct (decide _) as [Hgt|Hle].
  - cbn [set_blocks set_insns_executed blocks bb_out insns_interval_length
         insns_executed tb_dynamic_count set_tb_dynamic_count n_insns].
    rewrite insert_insert_eq. unfold handle_interval_expiry.
    cbn [bb_out set_blocks set_insns_executed].
    destruct (bb_out st) as [out|].
    + rewrite (surjective_pairing (foreach_print_bb_freq _)), reset_table.
      unfold set_blocks, set_bb_out, set_insns_executed. cbn [blocks].
      rewrite fmap_insert, alter_insert_eq.
      intros Hl. apply (Hins _ _ Hl). right.
      destruct (blocks st !! pc') as [info1|] eqn:H1.
      * exists info1, 0. split; [reflexivity|]. rewrite lookup_fmap, H1. reflexivity.
      * apply lookup_insert_Some in Hl as [[-> _]|[_ Hl]]; [congruence|].
        rewrite lookup_fmap, H1 in Hl. discriminate.
    + unfold set_blocks, set_insns_executed. cbn [blocks].
      rewrite alter_insert_eq.
      intros Hl. apply (Hins _ _ Hl). left. reflexivity.
  - unfold set_blocks, set_insns_executed. cbn [blocks]. intros Hl.
    apply (Hins _ _ Hl). left. reflexivity.
Qed.

(** An execution callback writes at most one line. *)
Lemma vcpu_tb_exec_lines st pc :
  bb_out (vcpu_tb_exec st pc) = bb_out st \/
  exists out line, bb_out st = Some out /\
                   bb_out (vcpu_tb_exec st pc) = Some (out ++ [line]).
Proof.
  unfold vcpu_tb_exec. destruct (blocks st !! pc) as [info|]; [|left; reflexivity].
  destruct (decide _); [|left; reflexivity].
  unfold handle_interval_expiry.
  cbn [set_blocks set_insns_executed blocks bb_out].
  destruct (bb_out st) as [out|] eqn:Hout; [|left; cbn; exact Hout].
  right. rewrite (surjective_pairing (foreach_print_bb_freq _)). cbn. eauto.
Qed.

Lemma vcpu_tb_trans_fresh st tb :
  blocks st !! qemu_plugin_tb_vaddr tb = None ->
  (vcpu_tb_trans st tb).1 =
    {| blocks :=
         <[qemu_plugin_tb_vaddr tb :=
             {| tbid := next_tbid st; tb_pc := qemu_plugin_tb_vaddr tb;
                n_insns := qemu_plugin_tb_n_insns tb; tb_dynamic_count := 0;
                symbol := first_insn_symbol tb; offset_from_symbol := 0 |}]>
           (blocks st);
       insns_interval_length := insns_interval_length st;
       bb_out := bb_out st; pc_out := pc_out st;
       insns_executed := insns_executed st;
       next_tbid := wrap64 (next_tbid st + 1) |}.
Proof. intros H. unfold vcpu_tb_trans. rewrite H. reflexivity. Qed.

Lemma vcpu_tb_trans_known st tb info :
  blocks st !! qemu_plugin_tb_vaddr tb = Some info ->
  vcpu_tb_trans st tb = (st, qemu_plugin_tb_vaddr tb).
Proof. intros H. unfold vcpu_tb_trans. rewrite H. reflexivity. Qed.

Lemma step_counted_insns_nonneg st e :
  counted_insns_nonneg st -> counted_insns_nonneg (step st e).
Proof.
  intros Hst pc info Hl. destruct e as [tb|pc0]; cbn [step] in Hl.
  - destruct (blocks st !! qemu_plugin_tb_vaddr tb) as [i0|] eqn:Hk.
    + rewrite (vcpu_tb_trans_known _ _ _ Hk) in Hl. exact (Hst pc info Hl).
    + rewrite (vcpu_tb_trans_fresh _ _ Hk) in Hl. cbn in Hl.
      apply lookup_insert_Some in Hl as [[_ <-]|[_ Hl]].
      * cbn. apply wrap64_range.
      * exact (Hst pc info Hl).
  - apply vcpu_tb_exec_records in Hl as (info0 & v & H0 & ->).
    cbn. exact (Hst pc info0 H0).
Qed.

Lemma total_nonneg evs st :
  counted_insns_nonneg st -> 0 <= total_dynamic_instructions_executed evs st.
Proof.
  revert st. induction evs as [|e evs IH]; intros st Hst; cbn; [lia|].
  specialize (IH (step st e) (step_counted_insns_nonneg st e Hst)).
  assert (0 <= executed_by st e); [|lia].
  destruct e as [tb|pc]; cbn; [lia|].
  destruct (blocks st !! pc) as [info|] eqn:Hpc; [|lia]. exact (Hst pc info Hpc).
Qed.

Lemma step_consistent st e out :
  consistent st -> bb_out st = Some out ->
  insns_executed st + executed_by st e < 2 ^ 63 ->
  consistent (step st e) /\
  insns_executed (step st e) <= insns_executed st + executed_by st e /\
  exists out', bb_out (step st e) = Some out' /\
    stream_total out' + insns_executed (step st e) =
    stream_total out + insns_executed st + executed_by st e.
Proof.
  intros Hst Hout Hfit. destruct e as [tb|pc]; cbn [step executed_by] in *.
  - destruct (blocks st !! qemu_plugin_tb_vaddr tb) as [i0|] eqn:Hk.
    + rewrite (vcpu_tb_trans_known _ _ _ Hk). cbn. split; [exact Hst|].
      split; [lia|]. exists out. split; [exact Hout|lia].
    + rewrite (vcpu_tb_trans_fresh _ _ Hk). cbn.
      destruct Hst as [Hsome HL Hrec Hsum]. split; [|split; [lia|]].
      * constructor; cbn; [exact Hsome|exact HL| |].
        -- intros pc info Hl. apply lookup_insert_Some in Hl as [[_ <-]|[_ Hl]].
           ++ cbn. pose proof (wrap64_range (Z.of_nat (length (tb_insns tb)))).
              unfold qemu_plugin_tb_n_insns. lia.
           ++ exact (Hrec pc info Hl).
        -- rewrite sum_counts_insert_fresh by exact Hk. cbn. lia.
      * exists out. split; [exact Hout|lia].
  - destruct (blocks st !! pc) as [info|] eqn:Hpc.
    2:{ rewrite vcpu_tb_exec_unknown by exact Hpc. split; [exact Hst|].
        split; [lia|]. exists out. split; [exact Hout|lia]. }
    destruct (Z_le_gt_dec (insns_executed st + n_insns info)
                (insns_interval_length st)) as [Hle|Hgt].
    + destruct (exec_below_consistent st pc info Hst Hpc Hfit Hle)
        as (Hc & Ho & Ht & _).
      split; [exact Hc|]. split; [lia|].
      exists out. rewrite Ho, Ht. split; [exact Hout|lia].
    + destruct (exec_above_consistent st pc info Hst Hpc Hfit out Hout Hgt)
        as (Hc & (line & Ho & Hline & _) & Ht & _).
      pose proof (consistent_length st Hst).
      split; [exact Hc|]. split; [lia|]. exists (out ++ [line]). split; [exact Ho|].
      rewrite stream_total_snoc, Hline, Ht. lia.
Qed.

Lemma run_cons e evs st : run (e :: evs) st = run evs (step st e).
Proof. reflexivity. Qed.

Lemma consistent_counted_insns_nonneg st :
  consistent st -> counted_insns_nonneg st.
Proof. intros [_ _ Hrec _] pc info Hl. apply (Hrec pc info Hl). Qed.

Lemma run_consistent evs : forall st out,
  consistent st -> bb_out st = Some out ->
  insns_executed st + total_dynamic_instructions_executed evs st < 2 ^ 63 ->
  consistent (run evs st) /\
  insns_executed (run evs st) <=
    insns_executed st + total_dynamic_instructions_executed evs st /\
  exists out', bb_out (run evs st) = Some out' /\
    stream_total out' + insns_executed (run evs st) =
    stream_total out + insns_executed st
    + total_dynamic_instructions_executed evs st.
Proof.
  induction evs as [|e evs IH]; intros st out Hst Hout Hfit.
  - cbn. split; [exact Hst|]. split; [lia|]. exists out. split; [exact Hout|lia].
  - rewrite run_cons. cbn [total_dynamic_instructions_executed] in *.
    pose proof (total_nonneg evs (step st e)
      (step_counted_insns_nonneg st e (consistent_counted_insns_nonneg st Hst))) as Hpos.
    destruct (step_consistent st e out Hst Hout) as (Hc & Hle & out1 & Ho1 & Heq1); [lia|].
    destruct (IH (step st e) out1 Hc Ho1) as (Hc' & Hle' & out' & Ho' & Heq'); [lia|].
    split; [exact Hc'|]. split; [lia|]. exists out'. split; [exact Ho'|]. lia.
Qed.

(** The flush at exit writes what is left of the running total. *)
Lemma flush_consistent st out :
  consistent st -> bb_out st = Some out -> insns_executed st < 2 ^ 63 ->
  exists line, bb_out (handle_interval_expiry st) = Some (out ++ [line]) /\
               line_total line = insns_executed st.
Proof.
  intros [_ _ Hrec Hsum] Hout Hfit. unfold handle_interval_expiry. rewrite Hout.
  rewrite (surjective_pairing (foreach_print_bb_freq _)).
  eexists. split; [reflexivity|]. rewrite line_total_foreach, <- Hsum.
  apply sum_counts_ext. intros pc info Hl. unfold compose. apply signed64_small.
  pose proof (sum_counts_bound tb_dynamic_count (blocks st) pc info
                (fun p i H => proj1 (Hrec p i H)) Hl).
  destruct (Hrec pc info Hl). lia.
Qed.


(** ** Accounting along a run, modulo [2^64] *)

Lemma step_consistent_mod st e out :
  consistent_mod st -> bb_out st = Some out ->
  consistent_mod (step st e) /\
  exists out' q,
    bb_out (step st e) = Some out' /\
    stream_total out' + insns_executed (step st e) =
      stream_total out + insns_executed st + executed_by st e + modulus * q.
Proof.
  intros Hst Hout. destruct e as [tb|pc]; [|exact (exec_consistent_mod st pc out Hst Hout)].
  cbn [step executed_by].
  destruct (blocks st !! qemu_plugin_tb_vaddr tb) as [i0|] eqn:Hk.
  - rewrite (vcpu_tb_trans_known _ _ _ Hk). cbn. split; [exact Hst|].
    exists out, 0. split; [exact Hout|lia].
  - rewrite (vcpu_tb_trans_fresh _ _ Hk). cbn.
    destruct Hst as [Hsome [q Hsum]]. split.
    + split; [exact Hsome|]. cbn. exists q.
      rewrite sum_counts_insert_fresh by exact Hk. cbn. lia.
    + exists out, 0. split; [exact Hout|lia].
Qed.

Lemma run_consistent_mod evs : forall st out,
  consistent_mod st -> bb_out st = Some out ->
  consistent_mod (run evs st) /\
  exists out' q,
    bb_out (run evs st) = Some out' /\
    stream_total out' + insns_executed (run evs st) =
      stream_total out + insns_executed st
      + total_dynamic_instructions_executed evs st + modulus * q.
Proof.
  induction evs as [|e evs IH]; intros st out Hst Hout.
  - cbn. split; [exact Hst|]. exists out, 0. split; [exact Hout|lia].
  - rewrite run_cons. cbn [total_dynamic_instructions_executed].
    destruct (step_consistent_mod st e out Hst Hout) as (Hc & out1 & q1 & Ho1 & Heq1).
    destruct (IH (step st e) out1 Hc Ho1) as (Hc' & out' & q' & Ho' & Heq').
    split; [exact Hc'|]. exists out', (q1 + q'). split; [exact Ho'|]. lia.
Qed.

Lemma flush_consistent_mod st out :
  consistent_mod st -> bb_out st = Some out ->
  exists line q, bb_out (handle_interval_expiry st) = Some (out ++ [line]) /\
                 line_total line = insns_executed st + modulus * q.
Proof.
  intros [_ [q Hsum]] Hout. unfold handle_interval_expiry. rewrite Hout.
  rewrite (surjective_pairing (foreach_print_bb_freq _)).
  destruct (sum_counts_signed64 (blocks st)) as [q' Hs].
  eexists _, (q + q'). split; [reflexivity|].
  rewrite line_total_foreach, Hs, Hsum. lia.
Qed.

(** ** Installation *)

Lemma parse_digits_nonneg s : forall acc, 0 <= acc -> 0 <= parse_digits acc s.
Proof.
  induction s as [|c s IH]; intros acc Hacc; cbn; [exact Hacc|].
  unfold digit_of.
  destruct ((48 <=? Z.of_nat (nat_of_ascii c)) && (Z.of_nat (nat_of_ascii c) <=? 57))
    eqn:Hd; [|exact Hacc].
  apply IH. apply andb_prop in Hd as [H1 _]. apply Z.leb_le in H1. lia.
Qed.

Lemma g_ascii_strtoull_range s : 0 <= g_ascii_strtoull s < modulus.
Proof.
  unfold g_ascii_strtoull.
  destruct (match skip_spaces s with
            | String "-"%char r => (true, r)
            | String "+"%char r => (false, r)
            | _ => (false, skip_spaces s)
            end) as [negative s2].
  pose proof (parse_digits_nonneg s2 0 ltac:(lia)).
  destruct (Z_lt_dec _ _); [|rewrite modulus_eq; lia].
  destruct negative; [apply wrap64_range|lia].
Qed.

Lemma parse_options_length argv : forall bb_name pc_name len r,
  0 <= len < modulus ->
  parse_options argv bb_name pc_name len = Some r ->
  0 <= r.2 < modulus.
Proof.
  induction argv as [|opt argv IH]; intros bb_name pc_name len r Hlen; cbn.
  - intros [= <-]. exact Hlen.
  - destruct (g_str_has_prefix opt "bb-out-file="); [apply IH; exact Hlen|].
    destruct (g_str_has_prefix opt "pc-out-file="); [apply IH; exact Hlen|].
    destruct (g_str_has_prefix opt "interval-size="); [|discriminate].
    apply IH. apply g_ascii_strtoull_range.
Qed.

(** What [qemu_plugin_install] leaves when it succeeds. *)
Lemma qemu_plugin_install_state fopen_ok argv rc st0 :
  qemu_plugin_install fopen_ok argv = (rc, Some st0) ->
  rc = 0 /\ blocks st0 = ∅ /\ insns_executed st0 = 0 /\ next_tbid st0 = 0 /\
  0 <= insns_interval_length st0 < modulus /\
  (bb_out st0 = None \/ bb_out st0 = Some []).
Proof.
  unfold qemu_plugin_install.
  destruct (parse_options argv None None _) as [[[bb_name pc_name] len]|] eqn:Hp;
    [|discriminate].
  apply parse_options_length in Hp; [|cbn; rewrite modulus_eq; lia].
  intros [= <- <-]. cbn. repeat split; try apply Hp.
  destruct bb_name as [f|]; [|left; reflexivity].
  destruct (fopen_ok f); [right|left]; reflexivity.
Qed.

Lemma installed_consistent st0 :
  blocks st0 = ∅ -> insns_executed st0 = 0 -> 0 <= insns_interval_length st0 ->
  is_Some (bb_out st0) -> consistent st0 /\ consistent_mod st0.
Proof.
  intros Hb Ht HL Hout. split.
  - constructor; [exact Hout|exact HL| |].
    + intros pc info. rewrite Hb, lookup_empty. discriminate.
    + rewrite Hb, Ht. apply sum_counts_empty.
  - split; [exact Hout|]. exists 0. rewrite Hb, Ht, sum_counts_empty. lia.
Qed.


(** ** Shutdown *)

Lemma handle_interval_expiry_pc_out st :
  pc_out (handle_interval_expiry st) = pc_out st.
Proof.
  unfold handle_interval_expiry. destruct (bb_out st); [|reflexivity].
  rewrite (surjective_pairing (foreach_print_bb_freq _)). reflexivity.
Qed.

Lemma handle_interval_expiry_blocks_empty st :
  blocks (handle_interval_expiry st) = ∅ -> blocks st = ∅.
Proof.
  unfold handle_interval_expiry. destruct (bb_out st); [|auto].
  rewrite (surjective_pairing (foreach_print_bb_freq _)). cbn.
  apply fmap_empty_inv.
Qed.

Lemma step_pc_out st e : pc_out (step st e) = pc_out st.
Proof.
  destruct e as [tb|pc]; cbn [step].
  - unfold vcpu_tb_trans. destruct (blocks st !! _); reflexivity.
  - unfold vcpu_tb_exec. destruct (blocks st !! pc); [|reflexivity].
    destruct (decide _); [|reflexivity].
    cbn [set_blocks pc_out]. rewrite handle_interval_expiry_pc_out. reflexivity.
Qed.

Lemma run_pc_out evs : forall st, pc_out (run evs st) = pc_out st.
Proof.
  induction evs as [|e evs IH]; intros st; [reflexivity|].
  rewrite run_cons, IH. apply step_pc_out.
Qed.

Lemma g_hash_table_get_values_nil {V} (m : gmap Z V) :
  g_hash_table_get_values m = [] -> m = ∅.
Proof.
  unfold g_hash_table_get_values. intros H. apply fmap_nil_inv in H.
  apply map_to_list_empty_iff. exact H.
Qed.

Lemma g_list_sort_nil {A} (cmp : A -> A -> Z) l : g_list_sort cmp l = [] -> l = [].
Proof.
  intros H. apply Permutation_nil. rewrite <- H. apply g_list_sort_perm.
Qed.

(** [plugin_exit] never touches the BBV stream after the flush. *)
Lemma plugin_exit_bb_out st st' :
  plugin_exit st = Some st' -> bb_out st' = bb_out (handle_interval_expiry st).
Proof.
  unfold plugin_exit. destruct (pc_out (handle_interval_expiry st)).
  - destruct (g_list_sort cmp_tbid _); [discriminate|]. intros [= <-]. reflexivity.
  - intros [= <-]. reflexivity.
Qed.

(** [plugin_exit] returns unless it walks an empty sorted list. *)
Lemma plugin_exit_returns st :
  pc_out st = None \/ blocks st <> ∅ -> is_Some (plugin_exit st).
Proof.
  intros H. unfold plugin_exit. rewrite handle_interval_expiry_pc_out.
  destruct (pc_out st) as [out|] eqn:Hpc; [|eauto].
  destruct H as [H|H]; [discriminate|].
  destruct (g_list_sort cmp_tbid _) eqn:Hs; [|eauto].
  apply g_list_sort_nil, g_hash_table_get_values_nil,
    handle_interval_expiry_blocks_empty in Hs. contradiction.
Qed.

(** ** The claims about the interval slicer *)

(** C2. For a run of the plugin installed with a BBV stream, the counts
    of all the lines of the stream once [plugin_exit] has flushed it add
    up to the number of instructions executed (the sum, over the
    execution callbacks, of the [n_insns] of the record executed): always
    modulo [2^64], and exactly as long as that number is below [2^63].
    [plugin_exit] itself returns with that stream unless a symbol map was
    requested and no block was ever translated. *)
Theorem C2_stream_accounts_for_every_instruction fopen_ok argv rc st0 evs :
  qemu_plugin_install fopen_ok argv = (rc, Some st0) ->
  is_Some (bb_out st0) ->
  let total := total_dynamic_instructions_executed evs st0 in
  exists lines,
    bb_out (handle_interval_expiry (run evs st0)) = Some lines /\
    (forall st', plugin_exit (run evs st0) = Some st' -> bb_out st' = Some lines) /\
    (pc_out st0 = None \/ blocks (run evs st0) <> ∅ ->
     is_Some (plugin_exit (run evs st0))) /\
    wrap64 (stream_total lines) = wrap64 total /\
    (total < 2 ^ 63 -> stream_total lines = total).
Proof.
  intros Hinst Hsome total.
  destruct (qemu_plugin_install_state _ _ _ _ Hinst) as (_ & Hb & Ht & _ & HL & Hout).
  destruct Hout as [Hout|Hout]; [rewrite Hout in Hsome; destruct Hsome; discriminate|].
  destruct (installed_consistent st0 Hb Ht (proj1 HL) Hsome) as [Hc Hm].
  destruct (run_consistent_mod evs st0 [] Hm Hout) as (Hm' & out' & q & Ho' & Heq).
  destruct (flush_consistent_mod _ _ Hm' Ho') as (line & q' & Hf & Hline).
  exists (out' ++ [line]). split; [exact Hf|]. split; [|split; [|split]].
  - intros st' Hexit. rewrite (plugin_exit_bb_out _ _ Hexit). exact Hf.
  - intros Hok. apply plugin_exit_returns. rewrite run_pc_out. exact Hok.
  - unfold wrap64. apply (congruent_mod _ _ (q + q')).
    rewrite stream_total_snoc, Hline. fold total in Heq.
    change (stream_total []) with 0 in Heq. lia.
  - intros Hfit.
    destruct (run_consistent evs st0 [] Hc Hout) as (Hc' & Hle & out2 & Ho2 & Heq2).
    { rewrite Ht. fold total. lia. }
    rewrite Ho' in Ho2. injection Ho2 as <-. fold total in Heq2, Hle.
    change (stream_total []) with 0 in Heq2.
    destruct (flush_consistent _ _ Hc' Ho') as (line2 & Hf2 & Hline2); [lia|].
    rewrite Hf in Hf2. injection Hf2 as Hl. apply app_inj_tail in Hl as [_ <-].
    rewrite stream_total_snoc, Hline2. lia.
Qed.


(** ** What a line says about one block *)

Lemma credit_perm id l1 l2 : l1 ≡ₚ l2 -> credit id l1 = credit id l2.
Proof. intros H. unfold credit. apply sumZ_perm. rewrite H. reflexivity. Qed.

Lemma credit_others id (l : list (Z * BBExecutionFrequency)) :
  Forall (fun kv => signed64 (tbid kv.2) <> id) l ->
  credit id (omap (fun kv => (print_bb_freq kv.2).1) l) = 0.
Proof.
  induction 1 as [|[pc info] l Hx _ IH]; [reflexivity|].
  cbn [omap list_omap snd] in *.
  destruct (print_bb_freq info) as [[p|] info2] eqn:Hp; cbn [fst]; [|exact IH].
  unfold print_bb_freq in Hp. destruct (decide _); [discriminate|].
  injection Hp as <- _. unfold credit in *.
  rewrite filter_cons, decide_False by exact Hx. exact IH.
Qed.

(** The line credits a block, under its identifier, with the signed
    reading of its count. *)
Lemma credit_foreach (m : gmap Z BBExecutionFrequency) pc info :
  m !! pc = Some info ->
  (forall pc' info', m !! pc' = Some info' ->
     signed64 (tbid info') = signed64 (tbid info) -> pc' = pc) ->
  credit (signed64 (tbid info)) (foreach_print_bb_freq m).1 =
    signed64 (tb_dynamic_count info).
Proof.
  intros Hpc Hids. unfold foreach_print_bb_freq. cbn [fst].
  rewrite (credit_perm _ _
    (omap (fun kv => (print_bb_freq kv.2).1) ((pc, info) :: map_to_list (delete pc m)))).
  2:{ apply omap_Permutation. rewrite <- map_to_list_insert by apply lookup_delete_eq.
      rewrite insert_delete_id by exact Hpc. reflexivity. }
  assert (credit (signed64 (tbid info))
            (omap (fun kv => (print_bb_freq kv.2).1) (map_to_list (delete pc m))) = 0)
    as Hrest.
  { apply credit_others, Forall_forall. intros [pc' info'] Hin Heq.
    apply elem_of_map_to_list, lookup_delete_Some in Hin as [Hne Hl].
    apply Hne. symmetry. exact (Hids pc' info' Hl Heq). }
  cbn [omap list_omap snd] in *.
  destruct (print_bb_freq info) as [[p|] info2] eqn:Hp; cbn [fst];
    unfold print_bb_freq in Hp; destruct (decide _) as [Hz|Hz]; try discriminate.
  - injection Hp as <- _. unfold credit in *.
    rewrite filter_cons, decide_True by reflexivity.
    rewrite fmap_cons, sumZ_cons, Hrest. cbn. lia.
  - rewrite Hrest, Hz. reflexivity.
Qed.

(** C1. An execution that takes the running total from at or below the
    interval length to above it writes one line; that line credits the
    block with its count so far plus the part of this execution that
    fits before the boundary ([n_insns] minus the overshoot), the line as
    a whole holds exactly one interval, and afterwards the count of the
    block and the running total both equal the overshoot. *)
Theorem C1_straddling_execution_is_split st pc info out :
  consistent st -> distinct_ids st ->
  bb_out st = Some out -> blocks st !! pc = Some info ->
  insns_executed st <= insns_interval_length st ->
  insns_executed st + n_insns info < 2 ^ 63 ->
  insns_executed st + n_insns info > insns_interval_length st ->
  let overshoot :=
    insns_executed st + n_insns info - insns_interval_length st in
  let st' := vcpu_tb_exec st pc in
  0 < overshoot <= n_insns info /\
  exists line,
    bb_out st' = Some (out ++ [line]) /\
    credit (signed64 (tbid info)) line =
      tb_dynamic_count info + n_insns info - overshoot /\
    line_total line = insns_interval_length st /\
    blocks st' !! pc = Some (set_tb_dynamic_count overshoot info) /\
    insns_executed st' = overshoot.
Proof.
  intros Hst Hids Hout Hpc Hopen Hfit Hgt overshoot st'.
  pose proof (exact_bounds st pc info Hst Hpc) as Hb.
  destruct (exec_above_consistent st pc info Hst Hpc Hfit out Hout Hgt)
    as (_ & (line & Ho & Htot & Hline) & Ht & _ & Hrec).
  fold overshoot in Hline, Ht, Hrec. fold st' in Ho, Ht, Hrec.
  split; [subst overshoot; lia|].
  exists line. repeat split; try assumption.
  rewrite Hline.
  rewrite (credit_foreach _ pc
             (set_tb_dynamic_count
                (wrap64 (tb_dynamic_count info + n_insns info - overshoot)) info)).
  - cbn. rewrite signed64_wrap64. apply signed64_small. subst overshoot. lia.
  - apply lookup_insert_eq.
  - intros pc' info' Hl Heq. apply lookup_insert_Some in Hl as [[-> _]|[_ Hl]];
      [reflexivity|]. exact (Hids pc' pc info' info Hl Hpc Heq).
Qed.


Import Scenarios.

(** C4. Interval of 100 instructions, one block of 40 instructions (the
    first translated, so identifier 0) executed three times: the run
    writes exactly one line, [0:100], and [plugin_exit] adds exactly one
    more, [0:20]. *)
Theorem C4_scenario_three_times_40 :
  exists st0 st',
    qemu_plugin_install always_opens argv_100 = (0, Some st0) /\
    bb_out (run three_times_40 st0) = Some [[(0, 100)]] /\
    plugin_exit (run three_times_40 st0) = Some st' /\
    bb_out st' = Some [[(0, 100)]; [(0, 20)]].
Proof.
  eexists _, _. split; [reflexivity|]. split; [reflexivity|].
  split; [vm_compute; reflexivity|reflexivity].
Qed.

(** C5, as the claim has it, fails: with an interval of 100 and a block
    of 50 instructions executed twice the running total lands on the
    boundary, and then no line has been written and the running total is
    100, not 0. *)
Lemma C5_counterexample :
  let st := run twice_50 (installed argv_100) in
  insns_interval_length st = 100 /\
  bb_out st = Some [] /\
  insns_executed st = 100 /\
  insns_executed st <> 0.
Proof. vm_compute. repeat split; discriminate. Qed.

(** C5, amended. An execution that takes the running total exactly to
    the interval length writes nothing and leaves the running total at
    the interval length (the test of [vcpu_tb_exec] is a strict [>]).
    The interval is closed by the next execution of a block that has
    instructions: it writes one line holding exactly one interval, and
    all the instructions of that execution are the overshoot, with which
    the next interval starts. *)
Theorem C5_boundary_closes_at_next_execution st pc info out :
  consistent st -> bb_out st = Some out -> blocks st !! pc = Some info ->
  insns_interval_length st < 2 ^ 63 ->
  insns_executed st + n_insns info = insns_interval_length st ->
  let st1 := vcpu_tb_exec st pc in
  bb_out st1 = Some out /\
  insns_executed st1 = insns_interval_length st /\
  forall pc2 info2,
    blocks st1 !! pc2 = Some info2 -> 0 < n_insns info2 ->
    insns_interval_length st + n_insns info2 < 2 ^ 63 ->
    let st2 := vcpu_tb_exec st1 pc2 in
    exists line,
      bb_out st2 = Some (out ++ [line]) /\
      line_total line = insns_interval_length st /\
      insns_executed st2 = n_insns info2 /\
      blocks st2 !! pc2 = Some (set_tb_dynamic_count (n_insns info2) info2).
Proof.
  intros Hst Hout Hpc HL Hland st1.
  destruct (exec_below_consistent st pc info Hst Hpc) as (Hc1 & Ho1 & Ht1 & _);
    [lia..|].
  fold st1 in Hc1, Ho1, Ht1.
  assert (insns_interval_length st1 = insns_interval_length st) as HL1.
  { subst st1. rewrite (vcpu_tb_exec_below st pc info Hpc); [reflexivity|].
    rewrite (wrap64_executed st pc info Hst Hpc) by lia. lia. }
  split; [congruence|]. split; [lia|].
  intros pc2 info2 Hpc2 Hn2 Hfit2 st2.
  destruct (exec_above_consistent st1 pc2 info2 Hc1 Hpc2) with (out := out)
    as (_ & (line & Ho2 & Htot & _) & Ht2 & _ & Hrec2); [lia|congruence|lia|].
  fold st2 in Ho2, Ht2, Hrec2.
  replace (insns_executed st1 + n_insns info2 - insns_interval_length st1)
    with (n_insns info2) in * by lia.
  exists line. repeat split; try assumption. congruence.
Qed.

Lemma C5_witness :
  let st := run [Translate (block_at 4096 50); Execute 4096] (installed argv_100) in
  let st1 := vcpu_tb_exec st 4096 in
  bb_out st1 = Some [] /\ insns_executed st1 = 100.
Proof.
  intros st st1.
  destruct (run_consistent [Translate (block_at 4096 50); Execute 4096]
              (installed argv_100) []) as (Hc & _).
  { apply installed_consistent; [reflexivity|reflexivity|discriminate|eexists; reflexivity]. }
  { reflexivity. }
  { vm_compute. reflexivity. }
  destruct (C5_boundary_closes_at_next_execution st 4096
              (set_tb_dynamic_count 50
                 {| tbid := 0; tb_pc := 4096; n_insns := 50; tb_dynamic_count := 0;
                    symbol := Some "main"%string; offset_from_symbol := 0 |}) []
              Hc eq_refl eq_refl eq_refl eq_refl) as (H1 & H2 & _).
  split; [exact H1|exact H2].
Defined.

(** C10, as the claim has it, fails: with an interval of 10 and a block
    of 40 instructions executed twice, the first execution crosses three
    boundaries, writes one line and carries 30 over; the next line, which
    the second execution writes, holds 10 instructions, not more. *)
Lemma C10_counterexample :
  let st0 := installed argv_10 in
  let st1 := run [Translate (block_at 4096 40); Execute 4096] st0 in
  let st2 := vcpu_tb_exec st1 4096 in
  insns_interval_length st0 = 10 /\
  bb_out st1 = Some [[(0, 10)]] /\ insns_executed st1 = 30 /\
  bb_out st2 = Some [[(0, 10)]; [(0, 10)]] /\
  ~ line_total [(0, 10)] > insns_interval_length st0.
Proof. vm_compute. repeat split; discriminate. Qed.

(** C10, amended. An execution callback writes at most one line.  When
    one execution takes the running total past two interval lengths, the
    line holds one interval and the running total carried over exceeds
    the interval length.  The next line does not hold more than one
    interval unless it is the flush: the very next execution writes one
    more line that again holds exactly one interval, and the carried
    total becomes the carried total plus the instructions of that
    execution minus one interval length; a flush by
    [handle_interval_expiry] at that point writes the whole carried
    total as one line. *)
Theorem C10_backlog_drains_one_interval_per_execution st pc info out :
  consistent st -> bb_out st = Some out -> blocks st !! pc = Some info ->
  insns_executed st <= insns_interval_length st ->
  insns_executed st + n_insns info < 2 ^ 63 ->
  insns_executed st + n_insns info > 2 * insns_interval_length st ->
  let st1 := vcpu_tb_exec st pc in
  (forall s p, bb_out (vcpu_tb_exec s p) = bb_out s \/
               exists o l, bb_out s = Some o /\
                           bb_out (vcpu_tb_exec s p) = Some (o ++ [l])) /\
  exists line,
    bb_out st1 = Some (out ++ [line]) /\
    line_total line = insns_interval_length st /\
    insns_executed st1 =
      insns_executed st + n_insns info - insns_interval_length st /\
    insns_executed st1 > insns_interval_length st /\
    (forall pc2 info2,
       blocks st1 !! pc2 = Some info2 ->
       insns_executed st1 + n_insns info2 < 2 ^ 63 ->
       let st2 := vcpu_tb_exec st1 pc2 in
       exists line2,
         bb_out st2 = Some (out ++ [line; line2]) /\
         line_total line2 = insns_interval_length st /\
         insns_executed st2 =
           insns_executed st1 + n_insns info2 - insns_interval_length st) /\
    (exists last,
       bb_out (handle_interval_expiry st1) = Some (out ++ [line; last]) /\
       line_total last = insns_executed st1).
Proof.
  intros Hst Hout Hpc Hopen Hfit Hcross st1.
  split; [exact vcpu_tb_exec_lines|].
  pose proof (consistent_length st Hst) as HL.
  pose proof (exact_bounds st pc info Hst Hpc) as Hb.
  destruct (exec_above_consistent st pc info Hst Hpc Hfit out Hout)
    as (Hc1 & (line & Ho1 & Htot & _) & Ht1 & HL1 & _); [lia|].
  fold st1 in Hc1, Ho1, Ht1, HL1.
  exists line. split; [exact Ho1|]. split; [exact Htot|]. split; [exact Ht1|].
  split; [lia|]. split.
  - intros pc2 info2 Hpc2 Hfit2 st2.
    pose proof (exact_bounds st1 pc2 info2 Hc1 Hpc2) as Hb2.
    destruct (exec_above_consistent st1 pc2 info2 Hc1 Hpc2 Hfit2 _ Ho1)
      as (_ & (line2 & Ho2 & Htot2 & _) & Ht2 & _); [lia|].
    fold st2 in Ho2, Ht2. exists line2.
    rewrite <- app_assoc in Ho2. split; [exact Ho2|]. split; [congruence|].
    rewrite Ht2, HL1. reflexivity.
  - destruct (flush_consistent st1 _ Hc1 Ho1) as (last & Hf & Hlast); [lia|].
    exists last. rewrite <- app_assoc in Hf. split; [exact Hf|exact Hlast].
Qed.

Lemma C10_witness :
  let st := run [Translate (block_at 4096 40)] (installed argv_10) in
  let st1 := vcpu_tb_exec st 4096 in
  exists line,
    bb_out st1 = Some ([] ++ [line]) /\ line_total line = 10 /\
    insns_executed st1 > 10.
Proof.
  intros st st1.
  destruct (run_consistent [Translate (block_at 4096 40)] (installed argv_10) [])
    as (Hc & _).
  { apply installed_consistent; [reflexivity|reflexivity|discriminate|eexists; reflexivity]. }
  { reflexivity. }
  { vm_compute. reflexivity. }
  destruct (C10_backlog_drains_one_interval_per_execution st 4096
              {| tbid := 0; tb_pc := 4096; n_insns := 40; tb_dynamic_count := 0;
                 symbol := Some "main"%string; offset_from_symbol := 0 |} []
              Hc eq_refl eq_refl) as (_ & line & H1 & H2 & _ & H4 & _).
  { vm_compute. discriminate. }
  { vm_compute. reflexivity. }
  { vm_compute. reflexivity. }
  exists line. split; [exact H1|]. split; [exact H2|exact H4].
Defined.


(** ** Block identifiers along a run *)

Lemma step_next_tbid st e :
  next_tbid (step st e) = next_tbid st \/
  next_tbid (step st e) = wrap64 (next_tbid st + 1).
Proof.
  destruct e as [tb|pc]; cbn [step].
  - unfold vcpu_tb_trans. destruct (blocks st !! _); [left|right]; reflexivity.
  - left. unfold vcpu_tb_exec. destruct (blocks st !! pc); [|reflexivity].
    destruct (decide _); [|reflexivity].
    cbn [set_blocks next_tbid]. unfold handle_interval_expiry.
    cbn [bb_out set_insns_executed set_blocks].
    destruct (bb_out st); [|reflexivity].
    rewrite (surjective_pairing (foreach_print_bb_freq _)). reflexivity.
Qed.

Lemma step_ids_allocated st e :
  ids_allocated st -> next_tbid st + 1 < 2 ^ 63 ->
  ids_allocated (step st e) /\ next_tbid (step st e) <= next_tbid st + 1.
Proof.
  intros [Hnext Hbelow Hinj] Hfit. destruct e as [tb|pc0]; cbn [step].
  - destruct (blocks st !! qemu_plugin_tb_vaddr tb) as [i0|] eqn:Hk.
    + rewrite (vcpu_tb_trans_known _ _ _ Hk). cbn. split; [constructor; assumption|lia].
    + rewrite (vcpu_tb_trans_fresh _ _ Hk). cbn.
      rewrite wrap64_small by (rewrite modulus_eq; lia).
      split; [|lia]. constructor; cbn.
      * lia.
      * intros pc info Hl. apply lookup_insert_Some in Hl as [[_ <-]|[_ Hl]].
        -- cbn. lia.
        -- specialize (Hbelow pc info Hl). lia.
      * intros pc1 pc2 info1 info2 H1 H2 Heq.
        apply lookup_insert_Some in H1 as [[<- <-]|[Hn1 H1]];
          apply lookup_insert_Some in H2 as [[<- <-]|[Hn2 H2]]; cbn in Heq.
        -- reflexivity.
        -- specialize (Hbelow pc2 info2 H2). lia.
        -- specialize (Hbelow pc1 info1 H1). lia.
        -- exact (Hinj pc1 pc2 info1 info2 H1 H2 Heq).
  - destruct (step_next_tbid st (Execute pc0)) as [Hn|Hn]; cbn [step] in Hn.
    2:{ exfalso. revert Hn. unfold vcpu_tb_exec.
        destruct (blocks st !! pc0); [|rewrite wrap64_small by (rewrite modulus_eq; lia); lia].
        destruct (decide _); cbn [set_blocks set_insns_executed next_tbid];
          [|rewrite wrap64_small by (rewrite modulus_eq; lia); lia].
        unfold handle_interval_expiry. cbn [bb_out set_insns_executed set_blocks].
        destruct (bb_out st);
          [rewrite (surjective_pairing (foreach_print_bb_freq _))|];
          cbn; rewrite wrap64_small by (rewrite modulus_eq; lia); lia. }
    split; [|lia]. constructor.
    + rewrite Hn. exact Hnext.
    + intros pc info Hl. rewrite Hn.
      apply vcpu_tb_exec_records in Hl as (info0 & v & H0 & ->). cbn.
      exact (Hbelow pc info0 H0).
    + intros pc1 pc2 info1 info2 H1 H2 Heq.
      apply vcpu_tb_exec_records in H1 as (i1 & v1 & H1 & ->).
      apply vcpu_tb_exec_records in H2 as (i2 & v2 & H2 & ->).
      exact (Hinj pc1 pc2 i1 i2 H1 H2 Heq).
Qed.

Lemma run_ids_allocated evs : forall st,
  ids_allocated st -> next_tbid st + Z.of_nat (length evs) < 2 ^ 63 ->
  ids_allocated (run evs st).
Proof.
  induction evs as [|e evs IH]; intros st Hst Hfit; [exact Hst|].
  rewrite run_cons. cbn [length] in Hfit.
  destruct (step_ids_allocated st e Hst) as [Hst' Hn]; [lia|].
  apply IH; [exact Hst'|lia].
Qed.

Lemma ids_allocated_distinct st : ids_allocated st -> distinct_ids st.
Proof.
  intros [Hnext Hbelow Hinj] pc1 pc2 info1 info2 H1 H2 Heq.
  apply (Hinj pc1 pc2 info1 info2 H1 H2).
  pose proof (Hbelow pc1 info1 H1). pose proof (Hbelow pc2 info2 H2).
  rewrite !signed64_small in Heq by lia. exact Heq.
Qed.

(** Every state that a run of fewer than [2^63] callbacks reaches from an
    installation with a BBV stream satisfies the two standing
    assumptions on states, as long as the instruction total is below
    [2^63]. *)
Lemma reachable_states fopen_ok argv rc st0 evs :
  qemu_plugin_install fopen_ok argv = (rc, Some st0) ->
  is_Some (bb_out st0) ->
  Z.of_nat (length evs) < 2 ^ 63 ->
  total_dynamic_instructions_executed evs st0 < 2 ^ 63 ->
  consistent (run evs st0) /\ distinct_ids (run evs st0).
Proof.
  intros Hinst Hsome Hlen Hfit.
  destruct (qemu_plugin_install_state _ _ _ _ Hinst) as (_ & Hb & Ht & Hn & HL & Hout).
  destruct Hout as [Hout|Hout]; [rewrite Hout in Hsome; destruct Hsome; discriminate|].
  destruct (installed_consistent st0 Hb Ht (proj1 HL) Hsome) as [Hc _].
  split.
  - apply (run_consistent evs st0 [] Hc Hout). lia.
  - apply ids_allocated_distinct, run_ids_allocated; [|lia].
    constructor.
    + rewrite Hn. lia.
    + intros pc info. rewrite Hb, lookup_empty. discriminate.
    + intros pc1 pc2 info1 info2. rewrite Hb, lookup_empty. discriminate.
Qed.

Lemma C1_witness :
  let st := run [Translate (block_at 4096 40); Execute 4096; Execute 4096]
              (installed argv_100) in
  exists line,
    bb_out (vcpu_tb_exec st 4096) = Some ([] ++ [line]) /\
    credit (signed64 0) line = 80 + 40 - 20 /\
    insns_executed (vcpu_tb_exec st 4096) = 20.
Proof.
  intros st.
  destruct (reachable_states always_opens argv_100 0 (installed argv_100)
              [Translate (block_at 4096 40); Execute 4096; Execute 4096])
    as [Hc Hd].
  { reflexivity. }
  { eexists; reflexivity. }
  { reflexivity. }
  { reflexivity. }
  destruct (C1_straddling_execution_is_split st 4096
              {| tbid := 0; tb_pc := 4096; n_insns := 40; tb_dynamic_count := 80;
                 symbol := Some "main"%string; offset_from_symbol := 0 |} []
              Hc Hd eq_refl eq_refl) as (_ & line & H1 & H2 & _ & _ & H5).
  { vm_compute. discriminate. }
  { reflexivity. }
  { reflexivity. }
  exists line. split; [exact H1|]. split; [exact H2|exact H5].
Defined.

Lemma C2_witness :
  exists lines,
    bb_out (handle_interval_expiry (run three_times_40 (installed argv_100))) =
      Some lines /\
    stream_total lines = 120.
Proof.
  destruct (C2_stream_accounts_for_every_instruction always_opens argv_100 0
              (installed argv_100) three_times_40 eq_refl
              (ex_intro _ [] eq_refl))
    as (lines & H1 & _ & _ & _ & H5).
  exists lines. split; [exact H1|]. rewrite H5; reflexivity.
Defined.

(** ** Options *)

Lemma parse_options_app argv1 : forall argv2 bb_name pc_name len,
  parse_options (argv1 ++ argv2) bb_name pc_name len =
    match parse_options argv1 bb_name pc_name len with
    | Some (bb_name', pc_name', len') => parse_options argv2 bb_name' pc_name' len'
    | None => None
    end.
Proof.
  induction argv1 as [|opt argv1 IH]; intros argv2 bb_name pc_name len; [reflexivity|].
  cbn [app parse_options].
  destruct (g_str_has_prefix opt "bb-out-file="); [apply IH|].
  destruct (g_str_has_prefix opt "pc-out-file="); [apply IH|].
  destruct (g_str_has_prefix opt "interval-size="); [apply IH|reflexivity].
Qed.

Lemma parse_options_recognised argv : forall bb_name pc_name len,
  is_Some (parse_options argv bb_name pc_name len) <->
  forallb recognised argv = true.
Proof.
  induction argv as [|opt argv IH]; intros bb_name pc_name len; cbn.
  - split; [reflexivity|eauto].
  - unfold recognised at 1.
    destruct (g_str_has_prefix opt "bb-out-file="); [apply IH|].
    destruct (g_str_has_prefix opt "pc-out-file="); [apply IH|].
    destruct (g_str_has_prefix opt "interval-size="); [apply IH|].
    cbn. split; [intros [x Hx]|]; discriminate.
Qed.

(** C9, as the claim has it, fails: installation with an interval length
    of zero returns 0 and the callbacks start with that length. *)
Lemma C9_counterexample :
  exists st0,
    qemu_plugin_install always_opens argv_0 = (0, Some st0) /\
    insns_interval_length st0 = 0.
Proof. eexists. split; reflexivity. Qed.

(** C9, amended. [qemu_plugin_install] refuses a configuration only for
    an option whose name it does not recognise; the value given to
    [interval-size] is never examined.  Adding [interval-size=0] to the
    end of an accepted configuration is accepted again: the return code
    is 0, the interval length is 0, and the rest is as before. *)
Theorem C9_zero_interval_is_accepted fopen_ok argv :
  (forallb recognised argv = true <->
   exists st0, qemu_plugin_install fopen_ok argv = (0, Some st0)) /\
  (forallb recognised argv = false <->
   qemu_plugin_install fopen_ok argv = (-1, None)) /\
  (forall st0,
     qemu_plugin_install fopen_ok argv = (0, Some st0) ->
     exists st1,
       qemu_plugin_install fopen_ok (argv ++ ["interval-size=0"%string]) =
         (0, Some st1) /\
       insns_interval_length st1 = 0 /\
       bb_out st1 = bb_out st0 /\ pc_out st1 = pc_out st0 /\
       blocks st1 = blocks st0 /\ insns_executed st1 = insns_executed st0).
Proof.
  pose proof (parse_options_recognised argv None None
                (insns_interval_length initial_state)) as Hrec.
  unfold qemu_plugin_install. rewrite parse_options_app.
  destruct (parse_options argv None None _) as [[[bb_name pc_name] len]|] eqn:Hp.
  - assert (forallb recognised argv = true) as Hall by (apply Hrec; eauto).
    split; [|split].
    + split; [eauto|intros _; exact Hall].
    + rewrite Hall. split; discriminate.
    + intros st0 [= <-]. eexists. split; [reflexivity|]. cbn. repeat split.
  - assert (forallb recognised argv = false) as Hnot.
    { destruct (forallb recognised argv); [|reflexivity].
      destruct (proj2 Hrec eq_refl) as [x Hx]. discriminate. }
    split; [|split].
    + rewrite Hnot. split; [discriminate|intros [st0 H]; discriminate].
    + split; [reflexivity|intros _; exact Hnot].
    + intros st0 H. discriminate.
Qed.

Lemma C9_witness :
  exists st1,
    qemu_plugin_install always_opens (argv_100 ++ ["interval-size=0"%string]) =
      (0, Some st1) /\
    insns_interval_length st1 = 0.
Proof.
  destruct (C9_zero_interval_is_accepted always_opens argv_100) as (_ & _ & H).
  destruct (H (installed argv_100) eq_refl) as (st1 & H1 & H2 & _).
  exists st1. split; [exact H1|exact H2].
Defined.

End bbv_facts.

(** * Facts about the hot-block plugin *)

Section hot_block_facts.
Import HotBlocks Scenarios.

Lemma cmp_dynamic_insncount_key a b :
  cmp_dynamic_insncount a b <= 0 <-> dynamic_insncount a > dynamic_insncount b.
Proof. unfold cmp_dynamic_insncount. destruct (decide _); split; lia. Qed.

Lemma cmp_dynamic_execcount_key a b :
  cmp_dynamic_execcount a b <= 0 <-> dynamic_execcount a > dynamic_execcount b.
Proof.
  unfold cmp_dynamic_execcount, dynamic_execcount. destruct (decide _); split; lia.
Qed.

Lemma length_visited {A} (it : list A) : length (visited it) = pred (length it).
Proof.
  unfold visited. induction it as [|x [|y it] IH]; [reflexivity..|].
  change (removelast (x :: y :: it)) with (x :: removelast (y :: it)).
  cbn [length] in *. rewrite IH. reflexivity.
Qed.

Lemma length_sorted {V} (cmp : V -> V -> Z) (m : gmap Z V) :
  length (g_list_sort cmp (g_hash_table_get_values m)) = size m.
Proof.
  rewrite (Permutation_length (g_list_sort_perm cmp _)).
  unfold g_hash_table_get_values. rewrite length_fmap. apply length_map_to_list.
Qed.

(** The report, section by section. *)
Lemma plugin_exit_sections (blocks : gmap Z TBExecCount) :
  let total := total_insn_executed (sorted_by_insncount blocks) in
  by_dynamic_instructions (plugin_exit blocks) =
    insn_line total <$> visited (sorted_by_insncount blocks) /\
  by_dynamic_invocations (plugin_exit blocks) =
    exec_line total <$> visited (sorted_by_execcount blocks) /\
  dynamic_instruction_count (plugin_exit blocks) = signed64 total.
Proof.
  unfold plugin_exit.
  destruct (sorted_by_insncount blocks) as [|x it] eqn:H1;
    destruct (sorted_by_execcount blocks) as [|y it2] eqn:H2;
    cbn [by_dynamic_instructions by_dynamic_invocations dynamic_instruction_count];
    repeat split.
Qed.


(** C3, evaluated.  For the block of 10 instructions executed five times
    and the block of 20 instructions executed once, the sum of
    [exec_count * n_insns] over the table is 70, while the total that
    [plugin_exit] prints in the summary, and by which both sections
    divide, is 50: the loop that adds the total up stops before the last
    cell of the sorted list.  With a single block executed once the
    printed total is 0 and the sum is 1. *)
Theorem C3_total_skips_the_last_block :
  let blocks := run five_and_one in
  let rep := plugin_exit blocks in
  sum_exec_times_insns blocks = 70 /\
  dynamic_instruction_count rep = 50 /\
  (denominator ∘ line_percent) <$> by_dynamic_instructions rep = [50] /\
  (denominator ∘ line_percent) <$> by_dynamic_invocations rep = [50] /\
  sum_exec_times_insns (run one_block_once) = 1 /\
  dynamic_instruction_count (plugin_exit (run one_block_once)) = 0.
Proof. vm_compute. repeat split. Qed.

(** ** Order of the two sections *)

Lemma visited_descending {A} (key : A -> Z) (l : list A) i j a b :
  descending key l -> (i < j)%nat ->
  visited l !! i = Some a -> visited l !! j = Some b -> key b <= key a.
Proof.
  intros Hl Hij Hi Hj.
  apply (descending_lookup key l i j a b Hl Hij); apply lookup_removelast; assumption.
Qed.

Lemma visited_prefix {A B} (f : A -> B) (l : list A) :
  (f <$> visited l) `prefix_of` (f <$> l).
Proof.
  unfold visited. destruct l as [|x l]; [exists []; reflexivity|].
  exists [f (List.last (x :: l) x)].
  transitivity (f <$> (removelast (x :: l) ++ [List.last (x :: l) x])).
  - f_equal. apply app_removelast_last. discriminate.
  - rewrite fmap_app. reflexivity.
Qed.

Lemma g_hash_table_get_values_by_slot {V} (t : GHashTable.GHashTable V) :
  GHashTable.g_hash_table_get_values t = reverse (GHashTable.values_by_slot t).
Proof.
  unfold GHashTable.g_hash_table_get_values, GHashTable.values_by_slot.
  set (f := fun i : nat =>
              match GHashTable.nodes t !! i with
              | Some (Some n) => Some (GHashTable.node_value n)
              | _ => None
              end).
  assert (forall (l : list nat) (acc : list V),
            foldl (fun retval i =>
                     match GHashTable.nodes t !! i with
                     | Some (Some n) => GHashTable.node_value n :: retval
                     | _ => retval
                     end) acc l
            = reverse (omap f l) ++ acc) as Hfold.
  { induction l as [|i l IH]; intros acc; [reflexivity|].
    cbn [foldl]. rewrite IH. cbn [omap list_omap]. unfold f at 2.
    destruct (GHashTable.nodes t !! i) as [[n|]|]; try reflexivity.
    rewrite reverse_cons, <- app_assoc. reflexivity. }
  rewrite Hfold, app_nil_r. reflexivity.
Qed.

Lemma omap_reverse {A B} (f : A -> option B) (l : list A) :
  omap f (reverse l) = reverse (omap f l).
Proof.
  induction l as [|x l IH]; [reflexivity|].
  rewrite reverse_cons, omap_app, IH. cbn [omap list_omap].
  destruct (f x); [rewrite reverse_cons|rewrite app_nil_r]; reflexivity.
Qed.

Lemma counts_by_slot (blocks : GHashTable.GHashTable Z)
    (records : gmap Z TBExecCount) :
  HotBlocksTable.counts blocks records =
    reverse (HotBlocksTable.records_by_slot blocks records).
Proof.
  unfold HotBlocksTable.counts, HotBlocksTable.records_by_slot.
  rewrite g_hash_table_get_values_by_slot. apply omap_reverse.
Qed.

(** The report on the table, section by section. *)
Lemma table_plugin_exit_sections (blocks : GHashTable.GHashTable Z)
    (records : gmap Z TBExecCount) :
  let counts := HotBlocksTable.counts blocks records in
  let total := total_insn_executed (g_list_sort cmp_dynamic_insncount counts) in
  by_dynamic_instructions (HotBlocksTable.plugin_exit blocks records) =
    insn_line total <$> visited (g_list_sort cmp_dynamic_insncount counts) /\
  by_dynamic_invocations (HotBlocksTable.plugin_exit blocks records) =
    exec_line total <$> visited (g_list_sort cmp_dynamic_execcount counts).
Proof.
  unfold HotBlocksTable.plugin_exit.
  destruct (g_list_sort cmp_dynamic_insncount
              (HotBlocksTable.counts blocks records)) as [|x it] eqn:H1;
    destruct (g_list_sort cmp_dynamic_execcount
                (HotBlocksTable.counts blocks records)) as [|y it2] eqn:H2;
    cbn [by_dynamic_instructions by_dynamic_invocations];
    repeat split.
Qed.

(** C6, as the claim has it, fails.  The three blocks at 4096, 8192 and
    12288 have one instruction each, the first two are executed once, so
    they tie under both keys.  In the run that translates 4096 before
    8192, GLib puts 8192 into slot 1, 4096 into slot 4 and 12288 into
    slot 5, [g_hash_table_get_values] returns them as 12288, 4096, 8192,
    and both sections of the report show 8192 before 4096: the tie is
    not in insertion order, and the sort has not kept the order of its
    input either.  The run that translates 8192 first has the same table
    and the same report. *)
Lemma C6_counterexample :
  let rep := HotBlocksTable.run_and_exit tie_4096_first in
  first_translation tie_4096_first 4096 = Some 0%nat /\
  first_translation tie_4096_first 8192 = Some 1%nat /\
  (fun blocks => start_addr <$> HotBlocksTable.counts blocks (run tie_4096_first))
    <$> HotBlocksTable.run tie_4096_first = Some [12288; 4096; 8192] /\
  (fun r => line_addr <$> by_dynamic_instructions r) <$> rep = Some [8192; 4096] /\
  (fun r => (numerator ∘ line_percent) <$> by_dynamic_instructions r) <$> rep
    = Some [1; 1] /\
  (fun r => line_addr <$> by_dynamic_invocations r) <$> rep = Some [8192; 4096] /\
  (fun r => (numerator ∘ line_percent) <$> by_dynamic_invocations r) <$> rep
    = Some [1; 1] /\
  HotBlocksTable.run_and_exit tie_8192_first = rep.
Proof. vm_compute. repeat split. Qed.

(** Two addresses whose first slot is the same: the one translated
    first takes that slot, the other the next one, so here the two tied
    blocks are listed in their order of translation. *)
Lemma tied_blocks_with_one_first_slot :
  (fun r => line_addr <$> by_dynamic_instructions r)
    <$> HotBlocksTable.run_and_exit tie_4096_before_32768 = Some [4096; 32768] /\
  (fun r => line_addr <$> by_dynamic_instructions r)
    <$> HotBlocksTable.run_and_exit tie_32768_before_4096 = Some [32768; 4096].
Proof. vm_compute. repeat split. Qed.

(** C6, amended.  For every table and every set of records: the lines
    of each section are in descending order of the section's key as the
    comparator computes it (for the first section the 64-bit product
    [exec_count * n_insns], for the second [exec_count]): a line that
    precedes another has a key at least as large.  Each section is an
    initial part of the rendering of the sorted list of the table's
    records.  Records with the same key come out in the reverse of their
    order in the list that [g_hash_table_get_values] returns (the
    comparators never return 0, the sort is not stable); that list has
    the records from the last occupied slot of the table to the first,
    so records with the same key come out in the order of their slots.
    No order of insertion is kept or used. *)
Theorem C6_sections_are_descending (blocks : GHashTable.GHashTable Z)
    (records : gmap Z TBExecCount) :
  let rep := HotBlocksTable.plugin_exit blocks records in
  let counts := HotBlocksTable.counts blocks records in
  let by_insncount := g_list_sort cmp_dynamic_insncount counts in
  let by_execcount := g_list_sort cmp_dynamic_execcount counts in
  let total := total_insn_executed by_insncount in
  (forall i j la lb,
     (i < j)%nat ->
     by_dynamic_instructions rep !! i = Some la ->
     by_dynamic_instructions rep !! j = Some lb ->
     numerator (line_percent la) >= numerator (line_percent lb)) /\
  (forall i j la lb,
     (i < j)%nat ->
     by_dynamic_invocations rep !! i = Some la ->
     by_dynamic_invocations rep !! j = Some lb ->
     numerator (line_percent la) >= numerator (line_percent lb)) /\
  by_dynamic_instructions rep `prefix_of` (insn_line total <$> by_insncount) /\
  by_dynamic_invocations rep `prefix_of` (exec_line total <$> by_execcount) /\
  (forall e, numerator (line_percent (insn_line total e)) = dynamic_insncount e) /\
  (forall e, numerator (line_percent (exec_line total e)) = exec_count e) /\
  by_insncount ≡ₚ counts /\
  by_execcount ≡ₚ counts /\
  (forall k,
     filter (fun e => dynamic_insncount e = k) by_insncount =
     reverse (filter (fun e => dynamic_insncount e = k) counts)) /\
  (forall k,
     filter (fun e => exec_count e = k) by_execcount =
     reverse (filter (fun e => exec_count e = k) counts)) /\
  counts = reverse (HotBlocksTable.records_by_slot blocks records) /\
  (forall k,
     filter (fun e => dynamic_insncount e = k) by_insncount =
     filter (fun e => dynamic_insncount e = k)
       (HotBlocksTable.records_by_slot blocks records)) /\
  (forall k,
     filter (fun e => exec_count e = k) by_execcount =
     filter (fun e => exec_count e = k)
       (HotBlocksTable.records_by_slot blocks records)).
Proof.
  intros rep counts by_insncount by_execcount total.
  destruct (table_plugin_exit_sections blocks records) as (H1 & H2).
  fold rep in H1, H2. fold counts in H1, H2.
  fold by_insncount in H1. fold by_execcount in H2. fold total in H1, H2.
  pose proof (g_list_sort_descending dynamic_insncount cmp_dynamic_insncount
                cmp_dynamic_insncount_key counts) as Hd1.
  pose proof (g_list_sort_descending dynamic_execcount cmp_dynamic_execcount
                cmp_dynamic_execcount_key counts) as Hd2.
  pose proof (g_list_sort_ties dynamic_insncount cmp_dynamic_insncount
                cmp_dynamic_insncount_key) as Ht1.
  pose proof (g_list_sort_ties dynamic_execcount cmp_dynamic_execcount
                cmp_dynamic_execcount_key) as Ht2.
  pose proof (counts_by_slot blocks records) as Hslots. fold counts in Hslots.
  assert (forall e, wrap64 (n_insns e * exec_count e) = dynamic_insncount e) as Hkey.
  { intros e. unfold dynamic_insncount. f_equal. lia. }
  repeat apply conj.
  - intros i j la lb Hij Hi Hj. rewrite H1 in Hi, Hj.
    apply list_lookup_fmap_Some in Hi as (a & -> & Hi).
    apply list_lookup_fmap_Some in Hj as (b & -> & Hj).
    cbn. rewrite !Hkey. apply Z.le_ge.
    exact (visited_descending dynamic_insncount _ i j a b Hd1 Hij Hi Hj).
  - intros i j la lb Hij Hi Hj. rewrite H2 in Hi, Hj.
    apply list_lookup_fmap_Some in Hi as (a & -> & Hi).
    apply list_lookup_fmap_Some in Hj as (b & -> & Hj).
    cbn. apply Z.le_ge.
    exact (visited_descending dynamic_execcount _ i j a b Hd2 Hij Hi Hj).
  - rewrite H1. apply visited_prefix.
  - rewrite H2. apply visited_prefix.
  - intros e. cbn. apply Hkey.
  - intros e. reflexivity.
  - apply g_list_sort_perm.
  - apply g_list_sort_perm.
  - intros k. apply Ht1.
  - intros k. apply Ht2.
  - exact Hslots.
  - intros k. unfold by_insncount. rewrite Ht1, Hslots, filter_reverse.
    apply reverse_involutive.
  - intros k.
    transitivity (reverse (filter (fun e => exec_count e = k) counts)); [apply Ht2|].
    rewrite Hslots, filter_reverse. apply reverse_involutive.
Qed.

(** ** A total of zero *)

Lemma total_insn_executed_never_executed (it : list TBExecCount) :
  Forall (fun e => exec_count e = 0) it -> total_insn_executed it = 0.
Proof.
  intros Hall. unfold total_insn_executed.
  assert (Forall (fun e => exec_count e = 0) (visited it)) as Hv.
  { apply Forall_forall. intros e He. rewrite Forall_forall in Hall. apply Hall.
    apply list_elem_of_lookup in He as [i Hi].
    eapply list_elem_of_lookup_2, lookup_removelast, Hi. }
  clear Hall. induction Hv as [|e l He _ IH]; [reflexivity|].
  cbn [fold_left]. rewrite He, Z.mul_0_r. exact IH.
Qed.

(** C8, as the claim has it, fails: with two blocks translated and never
    executed the total is zero, and the report still has a line in each
    section whose percentage is a division by that zero. *)
Lemma C8_counterexample :
  let rep := plugin_exit (run two_never_executed) in
  dynamic_instruction_count rep = 0 /\
  line_percent <$> by_dynamic_instructions rep =
    [{| numerator := 0; denominator := 0 |}] /\
  line_percent <$> by_dynamic_invocations rep =
    [{| numerator := 0; denominator := 0 |}].
Proof. vm_compute. repeat split. Qed.

(** C8, amended.  When no block was ever executed, the total that
    [plugin_exit] computes is zero and the summary prints 0; nothing
    guards the percentages: every line of both sections divides by that
    zero total, and with two or more blocks in the table both sections
    do have lines. *)
Theorem C8_zero_total_is_not_guarded (blocks : gmap Z TBExecCount) :
  (forall pc cnt, blocks !! pc = Some cnt -> exec_count cnt = 0) ->
  let rep := plugin_exit blocks in
  total_insn_executed (sorted_by_insncount blocks) = 0 /\
  dynamic_instruction_count rep = 0 /\
  (forall line,
     line ∈ by_dynamic_instructions rep ++ by_dynamic_invocations rep ->
     denominator (line_percent line) = 0) /\
  ((2 <= size blocks)%nat ->
   by_dynamic_instructions rep <> [] /\ by_dynamic_invocations rep <> []).
Proof.
  intros Hnever rep.
  destruct (plugin_exit_sections blocks) as (H1 & H2 & H3). fold rep in H1, H2, H3.
  assert (total_insn_executed (sorted_by_insncount blocks) = 0) as Htotal.
  { apply total_insn_executed_never_executed.
    unfold sorted_by_insncount. rewrite g_list_sort_perm.
    unfold g_hash_table_get_values. apply Forall_fmap, Forall_forall.
    intros [pc cnt] Hin. apply elem_of_map_to_list in Hin. exact (Hnever pc cnt Hin). }
  rewrite Htotal in H1, H2, H3.
  split; [exact Htotal|]. split; [rewrite H3; reflexivity|].
  split.
  - intros line Hin. rewrite H1, H2 in Hin.
    apply elem_of_app in Hin as [Hin|Hin];
      apply list_elem_of_fmap in Hin as (e & -> & _); reflexivity.
  - intros Hsize. split; intros Hnil; apply (f_equal length) in Hnil;
      [rewrite H1 in Hnil|rewrite H2 in Hnil];
      rewrite length_fmap, length_visited in Hnil;
      unfold sorted_by_insncount, sorted_by_execcount in Hnil;
      rewrite length_sorted in Hnil; cbn in Hnil; lia.
Qed.

Lemma C8_witness :
  let rep := plugin_exit (run two_never_executed) in
  dynamic_instruction_count rep = 0 /\
  (forall line,
     line ∈ by_dynamic_instructions rep ++ by_dynamic_invocations rep ->
     denominator (line_percent line) = 0).
Proof.
  intros rep.
  destruct (C8_zero_total_is_not_guarded (run two_never_executed))
    as (_ & H2 & H4 & _).
  - intros pc cnt Hl.
    change (run two_never_executed) with
      (<[8192 := {| start_addr := 8192; exec_count := 0; trans_count := 1;
                    n_insns := 1; insns := [snapshot plain_insn];
                    symbol := Some "main"%string; next := None |}]>
         (<[4096 := {| start_addr := 4096; exec_count := 0; trans_count := 1;
                       n_insns := 1; insns := [snapshot plain_insn];
                       symbol := Some "main"%string; next := None |}]>
            (∅ : gmap Z TBExecCount))) in Hl.
    apply lookup_insert_Some in Hl as [[_ <-]|[_ Hl]]; [reflexivity|].
    apply lookup_insert_Some in Hl as [[_ <-]|[_ Hl]]; [reflexivity|].
    rewrite lookup_empty in Hl. discriminate.
  - split; [exact H2|exact H4].
Defined.

End hot_block_facts.

(** * Re-translation, in both plugins *)

(** C7.  When the translation callback is called for a start address that
    the table already holds, the hot-block plugin increments (in 64 bits)
    [trans_count] of the record found and changes nothing else:
    [exec_count], [n_insns], the instruction snapshot, the address and
    the symbol stay, every other record stays, and the table keeps its
    size.  The basic-block-vector plugin, whose records carry the block
    identifier, changes nothing at all: the record keeps [tbid],
    [n_insns] and its count, and no identifier is consumed.  In both the
    execution hook is bound to the record found. *)
Theorem C7_retranslation_only_counts :
  (forall (blocks : gmap Z HotBlocks.TBExecCount) tb cnt,
     blocks !! qemu_plugin_tb_vaddr tb = Some cnt ->
     let blocks' := (HotBlocks.vcpu_tb_trans blocks tb).1 in
     (HotBlocks.vcpu_tb_trans blocks tb).2 = qemu_plugin_tb_vaddr tb /\
     (exists cnt',
        blocks' !! qemu_plugin_tb_vaddr tb = Some cnt' /\
        HotBlocks.trans_count cnt' = wrap64 (HotBlocks.trans_count cnt + 1) /\
        HotBlocks.exec_count cnt' = HotBlocks.exec_count cnt /\
        HotBlocks.n_insns cnt' = HotBlocks.n_insns cnt /\
        HotBlocks.insns cnt' = HotBlocks.insns cnt /\
        HotBlocks.start_addr cnt' = HotBlocks.start_addr cnt /\
        HotBlocks.symbol cnt' = HotBlocks.symbol cnt) /\
     (forall pc, pc <> qemu_plugin_tb_vaddr tb -> blocks' !! pc = blocks !! pc) /\
     size blocks' = size blocks) /\
  (forall (st : Bbv.state) tb info,
     Bbv.blocks st !! qemu_plugin_tb_vaddr tb = Some info ->
     Bbv.vcpu_tb_trans st tb = (st, qemu_plugin_tb_vaddr tb)).
Proof.
  split.
  - intros blocks tb cnt Hl blocks'. subst blocks'.
    unfold HotBlocks.vcpu_tb_trans. rewrite Hl. cbn [fst snd].
    split; [reflexivity|]. split; [|split].
    + eexists. split; [apply lookup_insert_eq|]. cbn. repeat split.
    + intros pc Hne. apply lookup_insert_ne. congruence.
    + apply map_size_insert_Some. eauto.
  - intros st tb info Hl. unfold Bbv.vcpu_tb_trans. rewrite Hl. reflexivity.
Qed.

Lemma C7_witness :
  let blocks := HotBlocks.run Scenarios.one_block_once in
  let st := Bbv.run Scenarios.three_times_40 (Scenarios.installed Scenarios.argv_100) in
  (exists cnt',
     (HotBlocks.vcpu_tb_trans blocks (Scenarios.block_at 4096 7)).1 !! 4096 = Some cnt' /\
     HotBlocks.trans_count cnt' = 2 /\ HotBlocks.exec_count cnt' = 1 /\
     HotBlocks.n_insns cnt' = 1) /\
  Bbv.vcpu_tb_trans st (Scenarios.block_at 4096 7) = (st, 4096).
Proof.
  intros blocks st.
  destruct C7_retranslation_only_counts as [Hhot Hbbv]. split.
  - destruct (Hhot blocks (Scenarios.block_at 4096 7)
                {| HotBlocks.start_addr := 4096; HotBlocks.exec_count := 1;
                   HotBlocks.trans_count := 1; HotBlocks.n_insns := 1;
                   HotBlocks.insns := [HotBlocks.snapshot Scenarios.plain_insn];
                   HotBlocks.symbol := Some "main"%string;
                   HotBlocks.next := None |} eq_refl)
      as (_ & (cnt' & H1 & H2 & H3 & H4 & _) & _).
    exists cnt'. split; [exact H1|]. split; [exact H2|]. split; [exact H3|exact H4].
  - exact (Hbbv st (Scenarios.block_at 4096 7)
             {| Bbv.tbid := 0; Bbv.tb_pc := 4096; Bbv.n_insns := 40;
                Bbv.tb_dynamic_count := 20; Bbv.symbol := Some "main"%string;
                Bbv.offset_from_symbol := 0 |} eq_refl).
Defined.

(** * Facts about the memory-consistency-model prctl *)

Section target_prctl_facts.
Import TargetPrctl.
Variables WMO TSO EINVAL : Z.
Hypothesis models_differ : WMO <> TSO.

Local Abbreviation set_model := (do_prctl_set_memory_consistency_model WMO TSO EINVAL).
Local Abbreviation get_model := (do_prctl_get_memory_consistency_model WMO TSO).

(** X1. linux-user/riscv/target_prctl.h.  Setting the model fails, with
    [-TARGET_EINVAL], for every argument other than the two model
    constants, and then leaves the CPU as it was; for the two constants
    it returns 0 whether or not the CPU has the Ssdtso extension. *)
Theorem prctl_set_refuses_only_unknown_models (cpu : RISCVCPU) (arg2 : Z) :
  EINVAL <> 0 ->
  ((set_model cpu arg2).1 = 0 <-> arg2 = WMO \/ arg2 = TSO) /\
  ((set_model cpu arg2).1 <> 0 ->
   (set_model cpu arg2).1 = - EINVAL /\ (set_model cpu arg2).2 = cpu) /\
  cfg (set_model cpu arg2).2 = cfg cpu.
Proof.
  clear models_differ.
  intros Herr. unfold do_prctl_set_memory_consistency_model.
  destruct (decide (arg2 = WMO)) as [->|Hw]; [|destruct (decide (arg2 = TSO)) as [->|Ht]];
    cbn [fst snd].
  - split; [tauto|]. split; [congruence|]. destruct (ext_ssdtso _); reflexivity.
  - split; [tauto|]. split; [congruence|]. destruct (ext_ssdtso _); reflexivity.
  - split; [|auto]. split; [lia|tauto].
Qed.

(** X2. linux-user/riscv/target_prctl.h.  On a CPU with Ssdtso and
    without Ztso, reading the model after a successful set returns the
    model that was set; with Ztso the read always returns TSO; without
    Ssdtso a set changes nothing and the read depends on Ztso alone. *)
Theorem prctl_get_after_set (cpu : RISCVCPU) (arg2 : Z) :
  (ext_ssdtso (cfg cpu) = true -> ext_ztso (cfg cpu) = false ->
   arg2 = WMO \/ arg2 = TSO -> get_model (set_model cpu arg2).2 = arg2) /\
  (ext_ztso (cfg cpu) = true -> get_model (set_model cpu arg2).2 = TSO) /\
  (ext_ssdtso (cfg cpu) = false ->
   (set_model cpu arg2).2 = cpu /\
   get_model cpu = if ext_ztso (cfg cpu) then TSO else WMO).
Proof.
  unfold do_prctl_set_memory_consistency_model, do_prctl_get_memory_consistency_model.
  destruct cpu as [[dtso ztso] [ena]]. cbn [cfg env ext_ssdtso ext_ztso].
  split; [|split].
  - intros -> -> [->| ->].
    + rewrite decide_True by reflexivity. reflexivity.
    + rewrite decide_False by congruence. rewrite decide_True by reflexivity. reflexivity.
  - intros ->. repeat (destruct (decide _)); destruct dtso, ena; reflexivity.
  - intros ->. split; [repeat (destruct (decide _)); reflexivity|reflexivity].
Qed.

Lemma set_all_app (cpu : RISCVCPU) (l1 l2 : list Z) :
  set_all WMO TSO EINVAL cpu (l1 ++ l2) =
  set_all WMO TSO EINVAL (set_all WMO TSO EINVAL cpu l1) l2.
Proof. unfold set_all. apply fold_left_app. Qed.

Lemma set_model_cfg (cpu : RISCVCPU) (arg2 : Z) :
  cfg (set_model cpu arg2).2 = cfg cpu.
Proof.
  unfold do_prctl_set_memory_consistency_model.
  destruct (ext_ssdtso (cfg cpu)); repeat (destruct (decide _)); reflexivity.
Qed.

Lemma set_all_cfg (args : list Z) : forall cpu,
  cfg (set_all WMO TSO EINVAL cpu args) = cfg cpu.
Proof.
  induction args as [|a args IH]; intros cpu; [reflexivity|].
  change (set_all WMO TSO EINVAL cpu (a :: args))
    with (set_all WMO TSO EINVAL (set_model cpu a).2 args).
  rewrite IH. apply set_model_cfg.
Qed.

Lemma set_all_unknown (rest : list Z) : forall cpu,
  Forall (fun a => a <> WMO /\ a <> TSO) rest ->
  set_all WMO TSO EINVAL cpu rest = cpu.
Proof.
  induction rest as [|a rest IH]; intros cpu Hrest; [reflexivity|].
  apply Forall_cons in Hrest as [[Hw Ht] Hrest].
  change (set_all WMO TSO EINVAL cpu (a :: rest))
    with (set_all WMO TSO EINVAL (set_model cpu a).2 rest).
  rewrite (IH _ Hrest). unfold do_prctl_set_memory_consistency_model.
  rewrite !decide_False by assumption. reflexivity.
Qed.

(** X3. linux-user/riscv/target_prctl.h.  After any sequence of set calls
    on a CPU with Ssdtso, the flag is the one asked for by the last call
    that named a model, whatever came before and whatever invalid
    arguments came after; nothing but the flag has changed. *)
Theorem prctl_last_valid_set_wins (cpu : RISCVCPU) (args : list Z) (arg2 : Z)
    (rest : list Z) :
  ext_ssdtso (cfg cpu) = true ->
  arg2 = WMO \/ arg2 = TSO ->
  Forall (fun a => a <> WMO /\ a <> TSO) rest ->
  set_all WMO TSO EINVAL cpu (args ++ arg2 :: rest) =
    set_env {| dtso_ena := bool_decide (arg2 = TSO) |} cpu.
Proof.
  intros Hd Harg Hrest.
  rewrite set_all_app.
  change (set_all WMO TSO EINVAL ?c (arg2 :: rest))
    with (set_all WMO TSO EINVAL (set_model c arg2).2 rest).
  rewrite (set_all_unknown rest _ Hrest).
  pose proof (set_all_cfg args cpu) as Hcfg.
  destruct (set_all WMO TSO EINVAL cpu args) as [cfg1 env1]. cbn [cfg] in Hcfg. subst cfg1.
  unfold do_prctl_set_memory_consistency_model. cbn [cfg env]. rewrite Hd.
  destruct Harg as [->| ->].
  - rewrite decide_True by reflexivity. rewrite bool_decide_eq_false_2 by exact models_differ.
    reflexivity.
  - rewrite decide_False by congruence. rewrite decide_True by reflexivity.
    rewrite bool_decide_eq_true_2 by reflexivity. reflexivity.
Qed.

End target_prctl_facts.

Lemma prctl_set_refuses_only_unknown_models_witness :
  let cpu := {| TargetPrctl.cfg := {| TargetPrctl.ext_ssdtso := false;
                                      TargetPrctl.ext_ztso := false |};
                TargetPrctl.env := {| TargetPrctl.dtso_ena := false |} |} in
  (TargetPrctl.do_prctl_set_memory_consistency_model 1 2 22 cpu 2).1 = 0 /\
  (TargetPrctl.do_prctl_set_memory_consistency_model 1 2 22 cpu 7).1 = -22.
Proof.
  intros cpu.
  destruct (prctl_set_refuses_only_unknown_models 1 2 22 cpu 2) as (H1 & _);
    [discriminate|].
  destruct (prctl_set_refuses_only_unknown_models 1 2 22 cpu 7) as (_ & H2 & _);
    [discriminate|].
  split; [apply H1; right; reflexivity|apply H2; discriminate].
Defined.

Lemma prctl_get_after_set_witness :
  let cpu := {| TargetPrctl.cfg := {| TargetPrctl.ext_ssdtso := true;
                                      TargetPrctl.ext_ztso := false |};
                TargetPrctl.env := {| TargetPrctl.dtso_ena := false |} |} in
  TargetPrctl.do_prctl_get_memory_consistency_model 1 2
    (TargetPrctl.do_prctl_set_memory_consistency_model 1 2 22 cpu 2).2 = 2.
Proof.
  intros cpu.
  destruct (prctl_get_after_set 1 2 22 ltac:(discriminate) cpu 2) as (H1 & _).
  apply H1; [reflexivity|reflexivity|right; reflexivity].
Defined.

Lemma prctl_last_valid_set_wins_witness :
  let cpu := {| TargetPrctl.cfg := {| TargetPrctl.ext_ssdtso := true;
                                      TargetPrctl.ext_ztso := false |};
                TargetPrctl.env := {| TargetPrctl.dtso_ena := false |} |} in
  TargetPrctl.dtso_ena
    (TargetPrctl.env (TargetPrctl.set_all 1 2 22 cpu ([2; 9; 1] ++ 2 :: [5; 0]))) = true.
Proof.
  intros cpu.
  rewrite (prctl_last_valid_set_wins 1 2 22 ltac:(discriminate) cpu [2; 9; 1] 2 [5; 0]
             eq_refl (or_intror eq_refl)).
  - reflexivity.
  - repeat constructor; discriminate.
Defined.

Section target_prctl_one_way_facts.
Import TargetPrctlOneWay.
Variables WMO TSO EINVAL : Z.

Local Abbreviation set_model := (do_prctl_set_memory_consistency_model WMO TSO EINVAL).
Local Abbreviation get_model := (do_prctl_get_memory_consistency_model WMO TSO).

(** X4. The one-way revision of the header.  A set call returns 0
    exactly when, after it, reading the model returns the model asked
    for; that is the case for WMO when TSO is not enabled, and for TSO
    when it is enabled already or the CPU has Ssdtso.  Any other call
    returns [-TARGET_EINVAL] and leaves the CPU as it was. *)
Theorem prctl_one_way_set_succeeds_iff_model_holds (cpu : RISCVCPU) (arg2 : Z) :
  WMO <> TSO -> EINVAL <> 0 ->
  ((set_model cpu arg2).1 = 0 <-> get_model (set_model cpu arg2).2 = arg2) /\
  ((set_model cpu arg2).1 = 0 <->
   (arg2 = WMO /\ dtso_ena (env cpu) = false) \/
   (arg2 = TSO /\ (dtso_ena (env cpu) = true \/ ext_ssdtso (cfg cpu) = true))) /\
  ((set_model cpu arg2).1 <> 0 ->
   (set_model cpu arg2).1 = - EINVAL /\ (set_model cpu arg2).2 = cpu).
Proof.
  intros Hdiff Herr.
  unfold do_prctl_set_memory_consistency_model, do_prctl_get_memory_consistency_model,
    set_requested.
  destruct cpu as [[has] [ena]]. cbn [cfg env ext_ssdtso riscv_dtso_is_enabled dtso_ena].
  destruct ena, has; repeat case_decide; subst; try discriminate; try congruence;
    cbn; (split; [|split]); try (intros; split; [lia|reflexivity]);
    try (split; intros; solve [reflexivity | congruence | lia | intuition congruence]);
    intros; congruence.
Qed.

Lemma one_way_set_keeps (cpu : RISCVCPU) (arg2 : Z) :
  dtso_ena (env cpu) = true \/ ext_ssdtso (cfg cpu) = false ->
  (set_model cpu arg2).2 = cpu.
Proof.
  unfold do_prctl_set_memory_consistency_model, set_requested.
  destruct cpu as [[has] [ena]]. cbn [cfg env ext_ssdtso riscv_dtso_is_enabled dtso_ena].
  destruct ena, has; intros [H|H]; try discriminate H;
    repeat case_decide; try reflexivity; congruence.
Qed.

Lemma one_way_set_all_keeps (cpu : RISCVCPU) (args : list Z) :
  dtso_ena (env cpu) = true \/ ext_ssdtso (cfg cpu) = false ->
  set_all WMO TSO EINVAL cpu args = cpu.
Proof.
  intros Hcpu. induction args as [|a args IH] using rev_ind; [reflexivity|].
  unfold set_all in *. rewrite fold_left_app. cbn [fold_left]. rewrite IH.
  apply one_way_set_keeps. exact Hcpu.
Qed.

(** X5. The one-way revision of the header.  Once TSO is enabled, and
    on a CPU without Ssdtso from the start, no sequence of set calls
    changes the CPU: TSO is never left, and it is never entered without
    the extension. *)
Theorem prctl_one_way_tso_is_never_left (cpu : RISCVCPU) (args : list Z) :
  dtso_ena (env cpu) = true \/ ext_ssdtso (cfg cpu) = false ->
  set_all WMO TSO EINVAL cpu args = cpu.
Proof. apply one_way_set_all_keeps. Qed.

(** X6. The one-way revision of the header.  On a CPU with Ssdtso on
    which TSO is not enabled, a sequence of set calls enables TSO exactly
    when one of its arguments is the TSO constant. *)
Theorem prctl_one_way_enabled_iff_requested (cpu : RISCVCPU) (args : list Z) :
  WMO <> TSO ->
  ext_ssdtso (cfg cpu) = true -> dtso_ena (env cpu) = false ->
  (dtso_ena (env (set_all WMO TSO EINVAL cpu args)) = true <-> TSO ∈ args).
Proof.
  intros Hdiff Hhas. revert cpu Hhas.
  induction args as [|a args IH]; intros cpu Hhas Hena.
  - cbn. rewrite Hena. split; [discriminate|]. intros H. inversion H.
  - change (set_all WMO TSO EINVAL cpu (a :: args))
      with (set_all WMO TSO EINVAL (set_model cpu a).2 args).
    destruct (decide (a = TSO)) as [->|Hne].
    + assert ((set_model cpu TSO).2 = set_env {| dtso_ena := true |} cpu) as ->.
      { unfold do_prctl_set_memory_consistency_model, set_requested.
        rewrite decide_False by congruence. rewrite decide_True by reflexivity.
        unfold riscv_dtso_is_enabled. rewrite Hena, Hhas. reflexivity. }
      rewrite one_way_set_all_keeps by (left; reflexivity).
      split; [intros _; left|reflexivity].
    + assert ((set_model cpu a).2 = cpu) as ->.
      { unfold do_prctl_set_memory_consistency_model, set_requested.
        rewrite (decide_False (P := a = TSO)) by exact Hne.
        unfold riscv_dtso_is_enabled. rewrite Hena.
        destruct (decide (a = WMO)); reflexivity. }
      rewrite (IH cpu Hhas Hena). rewrite elem_of_cons. split; [auto|].
      intros [H|H]; [congruence|exact H].
Qed.

End target_prctl_one_way_facts.

Lemma prctl_one_way_set_succeeds_iff_model_holds_witness :
  let cpu := {| TargetPrctlOneWay.cfg := {| TargetPrctlOneWay.ext_ssdtso := true |};
                TargetPrctlOneWay.env := {| TargetPrctlOneWay.dtso_ena := true |} |} in
  (TargetPrctlOneWay.do_prctl_set_memory_consistency_model 1 2 22 cpu 1).1 = -22 /\
  (TargetPrctlOneWay.do_prctl_set_memory_consistency_model 1 2 22 cpu 1).2 = cpu.
Proof.
  intros cpu.
  destruct (prctl_one_way_set_succeeds_iff_model_holds 1 2 22 cpu 1) as (_ & _ & H);
    [discriminate|discriminate|].
  apply H. discriminate.
Defined.

Lemma prctl_one_way_tso_is_never_left_witness :
  let cpu := {| TargetPrctlOneWay.cfg := {| TargetPrctlOneWay.ext_ssdtso := true |};
                TargetPrctlOneWay.env := {| TargetPrctlOneWay.dtso_ena := true |} |} in
  TargetPrctlOneWay.set_all 1 2 22 cpu [1; 2; 5; 1] = cpu.
Proof.
  intros cpu.
  exact (prctl_one_way_tso_is_never_left 1 2 22 cpu [1; 2; 5; 1] (or_introl eq_refl)).
Defined.

Lemma prctl_one_way_enabled_iff_requested_witness :
  let cpu := {| TargetPrctlOneWay.cfg := {| TargetPrctlOneWay.ext_ssdtso := true |};
                TargetPrctlOneWay.env := {| TargetPrctlOneWay.dtso_ena := false |} |} in
  TargetPrctlOneWay.dtso_ena
    (TargetPrctlOneWay.env (TargetPrctlOneWay.set_all 1 2 22 cpu [1; 7; 2; 1])) = true.
Proof.
  intros cpu.
  apply (prctl_one_way_enabled_iff_requested 1 2 22 cpu [1; 7; 2; 1]);
    [discriminate|reflexivity|reflexivity|].
  do 2 right. left.
Defined.

(** * More facts about the basic-block-vector plugin *)

Section bbv_more_facts.
Import Bbv BbvHistory Scenarios.

(** ** The table along a run *)

(** An execution callback keeps every record, up to its count. *)
Lemma vcpu_tb_exec_keeps st pc pc' info0 :
  blocks st !! pc' = Some info0 ->
  exists v, blocks (vcpu_tb_exec st pc) !! pc' =
              Some (set_tb_dynamic_count v info0).
Proof.
  intros H0. unfold vcpu_tb_exec. destruct (blocks st !! pc) as [info|] eqn:Hpc.
  2:{ exists (tb_dynamic_count info0). rewrite set_tb_dynamic_count_same. exact H0. }
  assert (forall (m : gmap Z BBExecutionFrequency) v,
    (exists w, m !! pc' = Some (set_tb_dynamic_count w info0)) ->
    exists v0, <[pc := set_tb_dynamic_count v info]> m !! pc' =
                 Some (set_tb_dynamic_count v0 info0)) as Hins.
  { intros m v [w Hm]. destruct (decide (pc = pc')) as [->|Hne].
    - rewrite lookup_insert_eq. rewrite Hpc in H0. injection H0 as ->. eauto.
    - rewrite lookup_insert_ne by exact Hne. eauto. }
  assert (exists w, blocks st !! pc' = Some (set_tb_dynamic_count w info0)) as Hold.
  { exists (tb_dynamic_count info0). rewrite set_tb_dynamic_count_same. exact H0. }
  destruct (decide _) as [Hgt|Hle].
  - cbn [set_blocks set_insns_executed blocks bb_out insns_interval_length
         insns_executed tb_dynamic_count set_tb_dynamic_count n_insns].
    rewrite insert_insert_eq. unfold handle_interval_expiry.
    cbn [bb_out set_blocks set_insns_executed].
    destruct (bb_out st) as [out|].
    + rewrite (surjective_pairing (foreach_print_bb_freq _)), reset_table.
      unfold set_blocks, set_bb_out, set_insns_executed. cbn [blocks].
      rewrite fmap_insert, alter_insert_eq. apply Hins.
      exists 0. rewrite lookup_fmap, H0. reflexivity.
    + unfold set_blocks, set_insns_executed. cbn [blocks].
      rewrite alter_insert_eq. apply Hins. exact Hold.
  - unfold set_blocks, set_insns_executed. cbn [blocks]. apply Hins. exact Hold.
Qed.

Lemma step_keeps st e pc info :
  blocks st !! pc = Some info ->
  exists v, blocks (step st e) !! pc = Some (set_tb_dynamic_count v info).
Proof.
  intros Hl. destruct e as [tb|pc0]; cbn [step].
  - exists (tb_dynamic_count info). rewrite set_tb_dynamic_count_same.
    destruct (blocks st !! qemu_plugin_tb_vaddr tb) as [i0|] eqn:Hk.
    + rewrite (vcpu_tb_trans_known _ _ _ Hk). exact Hl.
    + rewrite (vcpu_tb_trans_fresh _ _ Hk). cbn.
      rewrite lookup_insert_ne by congruence. exact Hl.
  - apply vcpu_tb_exec_keeps. exact Hl.
Qed.

Lemma run_keeps evs : forall st pc info,
  blocks st !! pc = Some info ->
  exists v, blocks (run evs st) !! pc = Some (set_tb_dynamic_count v info).
Proof.
  induction evs as [|e evs IH]; intros st pc info Hl.
  - exists (tb_dynamic_count info). rewrite set_tb_dynamic_count_same. exact Hl.
  - rewrite run_cons. destruct (step_keeps st e pc info Hl) as [v Hv].
    destruct (IH _ _ _ Hv) as [w Hw]. exists w. exact Hw.
Qed.

(** X7. vcpu_tb_trans, vcpu_tb_exec.  A record, once in the table, is
    never removed or replaced: after any further callbacks the table
    holds, under the same address, the same record up to its count, so
    the identifier, the address, the instruction count and the symbol of
    a block never change, also when the address is translated again. *)
Theorem bbv_records_are_never_replaced evs : forall st pc info,
  blocks st !! pc = Some info ->
  exists v, blocks (run evs st) !! pc = Some (set_tb_dynamic_count v info).
Proof. apply run_keeps. Qed.

Lemma step_unknown st e pc :
  blocks st !! pc = None ->
  (forall tb, e = Translate tb -> qemu_plugin_tb_vaddr tb <> pc) ->
  blocks (step st e) !! pc = None.
Proof.
  intros Hl Hne. destruct (blocks (step st e) !! pc) as [info'|] eqn:H'; [|reflexivity].
  exfalso. destruct e as [tb|pc0]; cbn [step] in H'.
  - specialize (Hne tb eq_refl).
    destruct (blocks st !! qemu_plugin_tb_vaddr tb) as [i0|] eqn:Hk.
    + rewrite (vcpu_tb_trans_known _ _ _ Hk) in H'. cbn in H'. congruence.
    + rewrite (vcpu_tb_trans_fresh _ _ Hk) in H'. cbn in H'.
      rewrite lookup_insert_ne in H' by exact Hne. congruence.
  - apply vcpu_tb_exec_records in H' as (info0 & v & H0 & _). congruence.
Qed.

(** X8. vcpu_tb_trans.  The table is keyed by translated address: after
    a run from an empty table a block has a record exactly when its
    address was translated, and the record carries the address, the
    instruction count and the symbol of the first translation of that
    address; later translations of the address do not refresh them. *)
Theorem bbv_table_holds_first_translations evs : forall st pc,
  blocks st !! pc = None ->
  match first_translation_of evs pc with
  | None => blocks (run evs st) !! pc = None
  | Some tb =>
      exists info,
        blocks (run evs st) !! pc = Some info /\
        tb_pc info = pc /\
        n_insns info = qemu_plugin_tb_n_insns tb /\
        symbol info = first_insn_symbol tb /\
        offset_from_symbol info = 0
  end.
Proof.
  induction evs as [|e evs IH]; intros st pc Hl; [exact Hl|].
  rewrite run_cons. destruct e as [tb|pc0]; cbn [first_translation_of].
  - destruct (decide (qemu_plugin_tb_vaddr tb = pc)) as [Heq|Hne].
    + subst pc. cbn [step]. rewrite (vcpu_tb_trans_fresh _ _ Hl).
      match goal with |- context [run evs ?s] => set (st1 := s) end.
      destruct (run_keeps evs st1 (qemu_plugin_tb_vaddr tb)
                  {| tbid := next_tbid st; tb_pc := qemu_plugin_tb_vaddr tb;
                     n_insns := qemu_plugin_tb_n_insns tb; tb_dynamic_count := 0;
                     symbol := first_insn_symbol tb; offset_from_symbol := 0 |})
        as [v Hv].
      { subst st1. cbn. apply lookup_insert_eq. }
      eexists. split; [exact Hv|]. repeat split.
    + apply IH. apply step_unknown; [exact Hl|]. intros tb' [= <-]. exact Hne.
  - apply IH. apply step_unknown; [exact Hl|]. discriminate.
Qed.


(** ** The streams along a run *)

Lemma handle_interval_expiry_length st :
  insns_interval_length (handle_interval_expiry st) = insns_interval_length st.
Proof.
  unfold handle_interval_expiry. destruct (bb_out st); [|reflexivity].
  rewrite (surjective_pairing (foreach_print_bb_freq _)). reflexivity.
Qed.

Lemma step_length st e :
  insns_interval_length (step st e) = insns_interval_length st.
Proof.
  destruct e as [tb|pc]; cbn [step].
  - unfold vcpu_tb_trans. destruct (blocks st !! _); reflexivity.
  - unfold vcpu_tb_exec. destruct (blocks st !! pc); [|reflexivity].
    destruct (decide _); [|reflexivity].
    cbn [set_blocks insns_interval_length].
    rewrite handle_interval_expiry_length. reflexivity.
Qed.

Lemma run_length evs : forall st,
  insns_interval_length (run evs st) = insns_interval_length st.
Proof.
  induction evs as [|e evs IH]; intros st; [reflexivity|].
  rewrite run_cons, IH. apply step_length.
Qed.

Lemma step_bb_out st e :
  bb_out (step st e) = bb_out st \/
  exists pc out line, e = Execute pc /\ bb_out st = Some out /\
                      bb_out (step st e) = Some (out ++ [line]).
Proof.
  destruct e as [tb|pc]; cbn [step].
  - left. unfold vcpu_tb_trans. destruct (blocks st !! _); reflexivity.
  - destruct (vcpu_tb_exec_lines st pc) as [H|(out & line & H1 & H2)]; [left; exact H|].
    right. exists pc, out, line. auto.
Qed.

(** X9. vcpu_tb_exec, vcpu_tb_trans, handle_interval_expiry.  The
    callbacks of a run never change the interval length or the symbol-map
    stream, never open a BBV stream that installation left closed, and
    only append to an open one: the lines written earlier stay, in
    order, and at most one line is added per execution callback. *)
Theorem bbv_run_only_appends_lines evs : forall st,
  insns_interval_length (run evs st) = insns_interval_length st /\
  pc_out (run evs st) = pc_out st /\
  match bb_out st with
  | None => bb_out (run evs st) = None
  | Some out =>
      exists more, bb_out (run evs st) = Some (out ++ more) /\
                   (length more <= executions evs)%nat
  end.
Proof.
  intros st. split; [apply run_length|]. split; [apply run_pc_out|].
  revert st. induction evs as [|e evs IH]; intros st.
  - cbn. destruct (bb_out st) as [out|]; [|reflexivity].
    exists []. rewrite app_nil_r. split; [reflexivity|cbn; lia].
  - rewrite run_cons. specialize (IH (step st e)).
    destruct (step_bb_out st e) as [Hsame|(pc & out & line & -> & Ho & Ho')].
    + rewrite Hsame in IH. destruct (bb_out st) as [out|]; [|exact IH].
      destruct IH as (more & Hm & Hlen). exists more. split; [exact Hm|].
      destruct e; cbn [executions]; lia.
    + rewrite Ho' in IH. rewrite Ho. destruct IH as (more & Hm & Hlen).
      exists (line :: more). rewrite Hm, <- app_assoc. split; [reflexivity|].
      cbn [executions length]. lia.
Qed.

(** X10. vcpu_tb_exec, handle_interval_expiry.  For a run of the plugin
    installed with a BBV stream, every line written before the flush at
    exit holds exactly one interval: its counts add up to the interval
    length.  The number of lines times the interval length, plus the
    running total that is left, is the number of instructions executed
    (all this while that number is below [2^63]). *)
Theorem bbv_every_interval_line_is_full fopen_ok argv rc st0 evs :
  qemu_plugin_install fopen_ok argv = (rc, Some st0) ->
  is_Some (bb_out st0) ->
  total_dynamic_instructions_executed evs st0 < 2 ^ 63 ->
  exists lines,
    bb_out (run evs st0) = Some lines /\
    Forall (fun line => line_total line = insns_interval_length st0) lines /\
    Z.of_nat (length lines) * insns_interval_length st0
      + insns_executed (run evs st0)
    = total_dynamic_instructions_executed evs st0.
Proof.
  intros Hinst Hsome Hfit.
  destruct (qemu_plugin_install_state _ _ _ _ Hinst) as (_ & Hb & Ht & _ & HL & Hout).
  destruct Hout as [Hout|Hout]; [rewrite Hout in Hsome; destruct Hsome; discriminate|].
  destruct (installed_consistent st0 Hb Ht (proj1 HL) Hsome) as [Hc _].
  assert (forall evs st out,
    consistent st -> bb_out st = Some out ->
    insns_executed st + total_dynamic_instructions_executed evs st < 2 ^ 63 ->
    Forall (fun line => line_total line = insns_interval_length st) out ->
    exists lines, bb_out (run evs st) = Some lines /\
      Forall (fun line => line_total line = insns_interval_length st) lines) as Hrun.
  { clear. induction evs as [|e evs IH]; intros st out Hst Hout Hfit Hall.
    - exists out. split; [exact Hout|exact Hall].
    - rewrite run_cons. cbn [total_dynamic_instructions_executed] in Hfit.
      pose proof (total_nonneg evs (step st e)
        (step_counted_insns_nonneg st e (consistent_counted_insns_nonneg st Hst))) as Hpos.
      destruct (step_consistent st e out Hst Hout) as (Hc1 & Hle & out1 & Ho1 & _); [lia|].
      rewrite <- (step_length st e).
      apply (IH (step st e) out1 Hc1 Ho1); [lia|].
      rewrite step_length.
      destruct e as [tb|pc]; cbn [step] in Ho1.
      + assert (bb_out (vcpu_tb_trans st tb).1 = bb_out st) as Hsame.
        { unfold vcpu_tb_trans. destruct (blocks st !! _); reflexivity. }
        rewrite Hsame, Hout in Ho1. injection Ho1 as <-. exact Hall.
      + cbn [executed_by] in Hfit.
        destruct (blocks st !! pc) as [info|] eqn:Hpc.
        2:{ rewrite vcpu_tb_exec_unknown in Ho1 by exact Hpc.
            rewrite Hout in Ho1. injection Ho1 as <-. exact Hall. }
        destruct (Z_le_gt_dec (insns_executed st + n_insns info)
                    (insns_interval_length st)) as [Hbelow|Habove].
        * destruct (exec_below_consistent st pc info Hst Hpc) as (_ & Ho & _); [lia|lia|].
          rewrite Ho, Hout in Ho1. injection Ho1 as <-. exact Hall.
        * destruct (exec_above_consistent st pc info Hst Hpc) with (out := out)
            as (_ & (line & Ho & Htot & _) & _); [lia|exact Hout|lia|].
          rewrite Ho in Ho1. injection Ho1 as <-.
          apply Forall_app. split; [exact Hall|]. constructor; [exact Htot|constructor]. }
  destruct (Hrun evs st0 [] Hc Hout) as (lines & Hl & Hall); [lia|constructor|].
  exists lines. split; [exact Hl|]. split; [exact Hall|].
  destruct (run_consistent evs st0 [] Hc Hout) as (_ & _ & out' & Ho' & Heq); [lia|].
  rewrite Hl in Ho'. injection Ho' as <-.
  change (stream_total []) with 0 in Heq. rewrite Ht in Heq.
  assert (stream_total lines = Z.of_nat (length lines) * insns_interval_length st0) as Hst.
  { clear -Hall. induction Hall as [|line lines Hline _ IH]; [reflexivity|].
    unfold stream_total in *. rewrite fmap_cons, sumZ_cons, IH, Hline.
    cbn [length]. lia. }
  lia.
Qed.


(** ** Block identifiers are dense *)

Lemma vcpu_tb_exec_dom st pc :
  dom (blocks (vcpu_tb_exec st pc)) = dom (blocks st).
Proof.
  apply set_eq. intros pc'. rewrite !elem_of_dom. split; intros [info H].
  - apply vcpu_tb_exec_records in H as (info0 & v & H0 & _). eauto.
  - destruct (vcpu_tb_exec_keeps st pc pc' info H) as [v Hv]. eauto.
Qed.

Lemma step_ids_dense st e :
  next_tbid st + 1 < 2 ^ 63 -> 0 <= next_tbid st ->
  next_tbid st = Z.of_nat (size (blocks st)) ->
  (forall id, 0 <= id < next_tbid st ->
     exists pc info, blocks st !! pc = Some info /\ tbid info = id) ->
  next_tbid (step st e) = Z.of_nat (size (blocks (step st e))) /\
  (forall id, 0 <= id < next_tbid (step st e) ->
     exists pc info, blocks (step st e) !! pc = Some info /\ tbid info = id).
Proof.
  intros Hfit Hpos Hsize Hsurj. destruct e as [tb|pc0]; cbn [step].
  - destruct (blocks st !! qemu_plugin_tb_vaddr tb) as [i0|] eqn:Hk.
    + rewrite (vcpu_tb_trans_known _ _ _ Hk). cbn. auto.
    + rewrite (vcpu_tb_trans_fresh _ _ Hk). cbn.
      rewrite wrap64_small by (rewrite modulus_eq; lia). split.
      * rewrite map_size_insert_None by exact Hk. lia.
      * intros id Hid. destruct (decide (id = next_tbid st)) as [->|Hne].
        -- eexists _, _. split; [apply lookup_insert_eq|reflexivity].
        -- destruct (Hsurj id) as (pc & info & Hl & Hi); [lia|].
           exists pc, info. split; [|exact Hi].
           rewrite lookup_insert_ne by congruence. exact Hl.
  - assert (next_tbid (vcpu_tb_exec st pc0) = next_tbid st) as Hn.
    { destruct (step_next_tbid st (Execute pc0)) as [H|H]; cbn [step] in H; [exact H|].
      revert H. unfold vcpu_tb_exec.
      destruct (blocks st !! pc0); [|intros _; reflexivity].
      destruct (decide _); [|intros _; reflexivity].
      cbn [set_blocks next_tbid]. unfold handle_interval_expiry.
      cbn [bb_out set_insns_executed set_blocks].
      destruct (bb_out st);
        [rewrite (surjective_pairing (foreach_print_bb_freq _))|]; intros _; reflexivity. }
    rewrite Hn. split.
    + rewrite Hsize. f_equal. rewrite <- !size_dom, vcpu_tb_exec_dom. reflexivity.
    + intros id Hid. destruct (Hsurj id Hid) as (pc & info & Hl & Hi).
      destruct (vcpu_tb_exec_keeps st pc0 pc info Hl) as [v Hv].
      exists pc, (set_tb_dynamic_count v info). split; [exact Hv|exact Hi].
Qed.

(** X11. vcpu_tb_trans.  Block identifiers are handed out densely from
    0 in order of first translation and never re-used: after a run of
    fewer than [2^63] callbacks from installation, [next_tbid] is the
    number of blocks in the table, every identifier below it belongs to
    a block of the table, every block has an identifier below it, and no
    two blocks share one. *)
Theorem bbv_block_ids_are_dense fopen_ok argv rc st0 evs :
  qemu_plugin_install fopen_ok argv = (rc, Some st0) ->
  Z.of_nat (length evs) < 2 ^ 63 ->
  let st := run evs st0 in
  next_tbid st = Z.of_nat (size (blocks st)) /\
  (forall pc info, blocks st !! pc = Some info -> 0 <= tbid info < next_tbid st) /\
  (forall id, 0 <= id < next_tbid st ->
     exists pc info, blocks st !! pc = Some info /\ tbid info = id) /\
  (forall pc1 pc2 info1 info2,
     blocks st !! pc1 = Some info1 -> blocks st !! pc2 = Some info2 ->
     tbid info1 = tbid info2 -> pc1 = pc2).
Proof.
  intros Hinst Hlen st.
  destruct (qemu_plugin_install_state _ _ _ _ Hinst) as (_ & Hb & _ & Hn & _ & _).
  assert (ids_allocated st0) as Hids.
  { constructor.
    - rewrite Hn. lia.
    - intros pc info. rewrite Hb, lookup_empty. discriminate.
    - intros pc1 pc2 info1 info2. rewrite Hb, lookup_empty. discriminate. }
  assert (forall evs s,
    ids_allocated s -> next_tbid s + Z.of_nat (length evs) < 2 ^ 63 ->
    next_tbid s = Z.of_nat (size (blocks s)) ->
    (forall id, 0 <= id < next_tbid s ->
       exists pc info, blocks s !! pc = Some info /\ tbid info = id) ->
    next_tbid (run evs s) = Z.of_nat (size (blocks (run evs s))) /\
    (forall id, 0 <= id < next_tbid (run evs s) ->
       exists pc info, blocks (run evs s) !! pc = Some info /\ tbid info = id)) as Hrun.
  { clear. induction evs as [|e evs IH]; intros s Hs Hfit Hsize Hsurj; [auto|].
    rewrite run_cons. cbn [length] in Hfit.
    destruct (step_ids_allocated s e Hs) as [Hs' Hle]; [lia|].
    destruct (step_ids_dense s e) as [Hsize' Hsurj']; [lia|apply Hs|assumption..|].
    apply IH; [exact Hs'|lia|assumption..]. }
  destruct (Hrun evs st0 Hids) as [Hsize Hsurj].
  - rewrite Hn. lia.
  - rewrite Hn, Hb. reflexivity.
  - rewrite Hn. intros id Hid. lia.
  - pose proof (run_ids_allocated evs st0 Hids ltac:(rewrite Hn; lia)) as [_ Hbelow Hinj].
    fold st in Hsize, Hsurj, Hbelow, Hinj. auto.
Qed.

(** ** What a line holds *)

Lemma signed64_nonzero c : 0 < c < modulus -> signed64 c <> 0.
Proof.
  intros Hc. unfold signed64. rewrite wrap64_small by lia.
  rewrite modulus_eq in *. destruct (Z_lt_dec c (2 ^ 63)); lia.
Qed.

Lemma foreach_print_bb_freq_nonzero (m : gmap Z BBExecutionFrequency) :
  (forall pc info, m !! pc = Some info -> 0 <= tb_dynamic_count info < modulus) ->
  Forall (fun p => p.2 <> 0) (foreach_print_bb_freq m).1.
Proof.
  intros Hm. unfold foreach_print_bb_freq. cbn [fst].
  assert (Forall (fun kv : Z * BBExecutionFrequency =>
                    0 <= tb_dynamic_count kv.2 < modulus) (map_to_list m)) as Hall.
  { apply Forall_forall. intros [pc info] Hin.
    apply elem_of_map_to_list in Hin. exact (Hm pc info Hin). }
  induction Hall as [|[pc info] l Hx _ IH]; [constructor|].
  cbn [omap list_omap snd] in *.
  destruct (print_bb_freq info) as [[p|] info2] eqn:Hp; cbn [fst]; [|exact IH].
  unfold print_bb_freq in Hp. destruct (decide _) as [|Hnz]; [discriminate|].
  injection Hp as <- _. constructor; [|exact IH].
  cbn. apply signed64_nonzero. lia.
Qed.

Lemma vcpu_tb_exec_counts_in_range st pc :
  (forall p info, blocks st !! p = Some info -> 0 <= tb_dynamic_count info < modulus) ->
  forall p info, blocks (vcpu_tb_exec st pc) !! p = Some info ->
                 0 <= tb_dynamic_count info < modulus.
Proof.
  intros Hst p info'. unfold vcpu_tb_exec.
  destruct (blocks st !! pc) as [info|] eqn:Hpc; [|apply Hst].
  assert (forall (m : gmap Z BBExecutionFrequency) v,
    0 <= v < modulus ->
    (forall i, m !! p = Some i -> 0 <= tb_dynamic_count i < modulus) ->
    <[pc := set_tb_dynamic_count v info]> m !! p = Some info' ->
    0 <= tb_dynamic_count info' < modulus) as Hins.
  { intros m v Hv Hm Hl. apply lookup_insert_Some in Hl as [[_ <-]|[_ Hl]];
      [exact Hv|exact (Hm _ Hl)]. }
  destruct (decide _) as [Hgt|Hle].
  - cbn [set_blocks set_insns_executed blocks bb_out insns_interval_length
         insns_executed tb_dynamic_count set_tb_dynamic_count n_insns].
    rewrite insert_insert_eq. unfold handle_interval_expiry.
    cbn [bb_out set_blocks set_insns_executed].
    destruct (bb_out st) as [out|].
    + rewrite (surjective_pairing (foreach_print_bb_freq _)), reset_table.
      unfold set_blocks, set_bb_out, set_insns_executed. cbn [blocks].
      rewrite fmap_insert, alter_insert_eq. apply Hins; [apply wrap64_range|].
      intros i Hi. apply lookup_fmap_Some in Hi as (i0 & <- & _). cbn.
      rewrite modulus_eq. lia.
    + unfold set_blocks, set_insns_executed. cbn [blocks].
      rewrite alter_insert_eq. apply Hins; [apply wrap64_range|apply Hst].
  - unfold set_blocks, set_insns_executed. cbn [blocks].
    apply Hins; [apply wrap64_range|apply Hst].
Qed.

Lemma step_counts_in_range st e :
  (forall p info, blocks st !! p = Some info -> 0 <= tb_dynamic_count info < modulus) ->
  forall p info, blocks (step st e) !! p = Some info ->
                 0 <= tb_dynamic_count info < modulus.
Proof.
  intros Hst p info. destruct e as [tb|pc]; cbn [step].
  - destruct (blocks st !! qemu_plugin_tb_vaddr tb) as [i0|] eqn:Hk.
    + rewrite (vcpu_tb_trans_known _ _ _ Hk). apply Hst.
    + rewrite (vcpu_tb_trans_fresh _ _ Hk). cbn. intros Hl.
      apply lookup_insert_Some in Hl as [[_ <-]|[_ Hl]];
        [cbn; rewrite modulus_eq; lia|exact (Hst _ _ Hl)].
  - apply vcpu_tb_exec_counts_in_range. exact Hst.
Qed.

Lemma step_lines_nonzero st e :
  (forall p info, blocks st !! p = Some info -> 0 <= tb_dynamic_count info < modulus) ->
  (forall lines, bb_out st = Some lines ->
     Forall (Forall (fun p : Z * Z => p.2 <> 0)) lines) ->
  forall lines, bb_out (step st e) = Some lines ->
    Forall (Forall (fun p : Z * Z => p.2 <> 0)) lines.
Proof.
  intros Hrange Hlines lines Hl.
  destruct e as [tb|pc]; cbn [step] in Hl.
  - apply Hlines. rewrite <- Hl. unfold vcpu_tb_trans.
    destruct (blocks st !! _); reflexivity.
  - destruct (bb_out st) as [out|] eqn:Hout.
    2:{ destruct (vcpu_tb_exec_lines st pc) as [H|(o & l & H1 & _)]; congruence. }
    destruct (blocks st !! pc) as [info|] eqn:Hpc.
    2:{ rewrite vcpu_tb_exec_unknown in Hl by exact Hpc. apply Hlines. congruence. }
    destruct (Z_le_gt_dec (wrap64 (insns_executed st + n_insns info))
                (insns_interval_length st)) as [Hle|Hgt].
    + rewrite (vcpu_tb_exec_below st pc info Hpc Hle) in Hl. cbn in Hl.
      apply Hlines. congruence.
    + rewrite (vcpu_tb_exec_above st pc info out Hpc Hout Hgt) in Hl.
      cbn [bb_out] in Hl. injection Hl as <-.
      apply Forall_app. split; [apply Hlines; reflexivity|].
      constructor; [|constructor]. apply foreach_print_bb_freq_nonzero.
      intros p i Hi. apply lookup_insert_Some in Hi as [[_ <-]|[_ Hi]];
        [apply wrap64_range|exact (Hrange _ _ Hi)].
Qed.

(** X12. print_bb_freq, handle_interval_expiry.  No line of the BBV
    stream, the flush at exit included, lists a block with a count of
    zero: a block appears in a line only if it was executed since the
    line before.  (For any run from installation, with no bound on the
    counters.) *)
Theorem bbv_lines_list_no_zero_count fopen_ok argv rc st0 evs lines :
  qemu_plugin_install fopen_ok argv = (rc, Some st0) ->
  bb_out (handle_interval_expiry (run evs st0)) = Some lines ->
  Forall (Forall (fun p : Z * Z => p.2 <> 0)) lines.
Proof.
  intros Hinst Hl.
  destruct (qemu_plugin_install_state _ _ _ _ Hinst) as (_ & Hb & _ & _ & _ & Hout).
  assert (forall evs s,
    (forall p info, blocks s !! p = Some info -> 0 <= tb_dynamic_count info < modulus) ->
    (forall lines, bb_out s = Some lines ->
       Forall (Forall (fun p : Z * Z => p.2 <> 0)) lines) ->
    (forall p info, blocks (run evs s) !! p = Some info ->
       0 <= tb_dynamic_count info < modulus) /\
    (forall lines, bb_out (run evs s) = Some lines ->
       Forall (Forall (fun p : Z * Z => p.2 <> 0)) lines)) as Hrun.
  { clear. induction evs as [|e evs IH]; intros s Hr Hn; [auto|].
    rewrite run_cons. apply IH;
      [apply step_counts_in_range; exact Hr|apply step_lines_nonzero; assumption]. }
  destruct (Hrun evs st0) as [Hr Hn].
  - intros p info. rewrite Hb, lookup_empty. discriminate.
  - intros l Hl0. destruct Hout as [H|H]; rewrite H in Hl0; [discriminate|].
    injection Hl0 as <-. constructor.
  - unfold handle_interval_expiry in Hl.
    destruct (bb_out (run evs st0)) as [out|] eqn:Ho; [|congruence].
    rewrite (surjective_pairing (foreach_print_bb_freq _)) in Hl.
    cbn in Hl. injection Hl as <-.
    apply Forall_app. split; [apply Hn; reflexivity|].
    constructor; [|constructor]. apply foreach_print_bb_freq_nonzero. exact Hr.
Qed.

(** X13. handle_interval_expiry, print_bb_freq.  With a BBV stream, an
    expiry leaves every count of the table at zero and removes no
    record, so a second expiry right after it writes an empty line;
    without a BBV stream an expiry changes nothing, not even the
    counts. *)
Theorem bbv_expiry_resets_every_count st :
  match bb_out st with
  | Some out =>
      let st1 := handle_interval_expiry st in
      (forall pc info, blocks st1 !! pc = Some info -> tb_dynamic_count info = 0) /\
      dom (blocks st1) = dom (blocks st) /\
      exists line,
        bb_out st1 = Some (out ++ [line]) /\
        bb_out (handle_interval_expiry st1) = Some (out ++ [line; []])
  | None => handle_interval_expiry st = st
  end.
Proof.
  unfold handle_interval_expiry at 1 2 3.
  destruct (bb_out st) as [out|] eqn:Hout; [|reflexivity].
  rewrite (surjective_pairing (foreach_print_bb_freq _)), reset_table.
  cbn [set_bb_out set_blocks blocks bb_out]. split; [|split].
  - intros pc info Hl. apply lookup_fmap_Some in Hl as (i0 & <- & _). reflexivity.
  - apply dom_fmap_L.
  - eexists. split; [reflexivity|].
    unfold handle_interval_expiry. cbn [bb_out].
    rewrite (surjective_pairing (foreach_print_bb_freq _)). cbn [set_bb_out bb_out].
    rewrite <- app_assoc. do 2 f_equal. cbn [app]. f_equal.
    assert (forall l : list (Z * BBExecutionFrequency),
      Forall (fun kv => tb_dynamic_count kv.2 = 0) l ->
      omap (fun kv => (print_bb_freq kv.2).1) l = []) as Hempty.
    { induction 1 as [|[pc info] l Hx _ IH]; [reflexivity|].
      cbn [omap list_omap snd] in *. unfold print_bb_freq at 1.
      rewrite decide_True by exact Hx. exact IH. }
    unfold foreach_print_bb_freq at 1. cbn [fst]. rewrite Hempty; [reflexivity|].
    apply Forall_forall. intros [pc info] Hin. apply elem_of_map_to_list in Hin.
    cbn [set_blocks blocks] in Hin.
    apply lookup_fmap_Some in Hin as (i0 & <- & _). reflexivity.
Qed.


(** ** The symbol map *)

Section g_list_sort_by_relation.
Context {A : Type} (R : relation A) (P : A -> Prop) (compare_func : A -> A -> Z).
Context `{!Transitive R}.
Hypothesis compare_le : forall a b, P a -> P b -> compare_func a b <= 0 -> R a b.
Hypothesis compare_gt : forall a b, P a -> P b -> compare_func a b > 0 -> R b a.

Lemma g_list_sort_merge_sorted l1 l2 :
  Forall P l1 -> Forall P l2 ->
  StronglySorted R l1 -> StronglySorted R l2 ->
  StronglySorted R (g_list_sort_merge compare_func l1 l2).
Proof.
  intros HP1 HP2 H1. revert HP1 l2 HP2.
  induction H1 as [|x1 l1 Hs1 IH1 Hall1]; intros HP1 l2 HP2 H2.
  { rewrite g_list_sort_merge_nil_l. assumption. }
  apply Forall_cons in HP1 as [Hx1 HP1].
  induction H2 as [|x2 l2 Hs2 IH2 Hall2].
  { rewrite g_list_sort_merge_nil_r. constructor; assumption. }
  pose proof HP2 as HP2'. apply Forall_cons in HP2' as [Hx2 HP2'].
  rewrite g_list_sort_merge_cons. destruct (Z_le_dec _ _) as [Hle|Hgt].
  - assert (R x1 x2) as Hr by (apply compare_le; assumption). constructor.
    + apply IH1; [exact HP1|exact HP2|constructor; assumption].
    + rewrite g_list_sort_merge_perm. apply Forall_app. split; [assumption|].
      constructor; [exact Hr|]. eapply Forall_impl; [exact Hall2|].
      intros y Hy. cbn. etransitivity; eassumption.
  - assert (R x2 x1) as Hr by (apply compare_gt; [assumption..|lia]).
    constructor; [apply IH2; assumption|].
    rewrite g_list_sort_merge_perm. apply Forall_app. split; [|assumption].
    constructor; [exact Hr|]. eapply Forall_impl; [exact Hall1|].
    intros y Hy. cbn. etransitivity; eassumption.
Qed.

Lemma g_list_sort_real_sorted fuel : forall l,
  (length l <= fuel)%nat -> Forall P l ->
  StronglySorted R (g_list_sort_real compare_func fuel l).
Proof.
  induction fuel as [|fuel IH]; intros l Hlen HP.
  { destruct l; [constructor | simpl in Hlen; lia]. }
  destruct l as [|x [|y l]].
  - constructor.
  - repeat constructor.
  - cbn [g_list_sort_real].
    set (half := Nat.div2 (length (x :: y :: l))).
    assert (0 < half < length (x :: y :: l))%nat as Hhalf
      by (subst half; apply div2_bounds; simpl; lia).
    rewrite <- (take_drop half (x :: y :: l)) in HP.
    apply Forall_app in HP as [HP1 HP2].
    apply g_list_sort_merge_sorted.
    + rewrite g_list_sort_real_perm. exact HP1.
    + rewrite g_list_sort_real_perm. exact HP2.
    + apply IH; [rewrite length_take; lia|exact HP1].
    + apply IH; [rewrite length_drop; lia|exact HP2].
Qed.

Lemma g_list_sort_sorted l :
  Forall P l -> StronglySorted R (g_list_sort compare_func l).
Proof. apply g_list_sort_real_sorted. reflexivity. Qed.

End g_list_sort_by_relation.

Lemma cmp_tbid_small (info_a info_b : BBExecutionFrequency) :
  - 2 ^ 31 <= tbid info_a - tbid info_b < 2 ^ 31 ->
  cmp_tbid info_a info_b = tbid info_a - tbid info_b.
Proof.
  intros Hd. unfold cmp_tbid, signed32, wrap64.
  set (d := tbid info_a - tbid info_b) in *.
  assert ((d mod modulus) mod 2 ^ 32 = d mod 2 ^ 32) as ->.
  { rewrite modulus_eq. change 18446744073709551616 with (2 ^ 32 * 2 ^ 32).
    rewrite Z.rem_mul_r by lia.
    rewrite Z.add_mod, Z.mul_comm, Z.mod_mul, Z.add_0_r by lia.
    rewrite !Z.mod_mod by lia. reflexivity. }
  destruct (Z_lt_dec (d mod 2 ^ 32) (2 ^ 31)) as [Hlt|Hge].
  - destruct (Z_lt_dec d 0) as [Hneg|Hpos].
    + exfalso. rewrite <- (Z.mod_add d 1) in Hlt by lia.
      rewrite Z.mod_small in Hlt by lia. lia.
    + apply Z.mod_small. lia.
  - destruct (Z_lt_dec d 0) as [Hneg|Hpos].
    + rewrite <- (Z.mod_add d 1) by lia. rewrite Z.mod_small by lia. lia.
    + exfalso. rewrite Z.mod_small in Hge by lia. lia.
Qed.

(** X14. cmp_tbid.  The comparison of two block identifiers is their
    difference cut to 32 bits: it is the exact difference, and so has
    the sign of the order of the identifiers, whenever they are less
    than [2^31] apart. *)
Theorem cmp_tbid_is_the_difference (info_a info_b : BBExecutionFrequency) :
  - 2 ^ 31 <= tbid info_a - tbid info_b < 2 ^ 31 ->
  cmp_tbid info_a info_b = tbid info_a - tbid info_b.
Proof. apply cmp_tbid_small. Qed.

(** X15. plugin_exit.  At exit the plugin walks an empty list exactly
    when a symbol map was asked for and no block was ever translated; in
    every other case [plugin_exit] returns. *)
Theorem bbv_plugin_exit_fails_iff_map_of_nothing st :
  plugin_exit st = None <-> is_Some (pc_out st) /\ blocks st = ∅.
Proof.
  split.
  - intros Hnone. destruct (pc_out st) as [out|] eqn:Hpc.
    + split; [eauto|]. destruct (decide (blocks st = ∅)) as [|Hne]; [assumption|].
      destruct (plugin_exit_returns st (or_intror Hne)) as [x Hx]. congruence.
    + destruct (plugin_exit_returns st (or_introl Hpc)) as [x Hx]. congruence.
  - intros [[out Hpc] Hb]. unfold plugin_exit.
    rewrite handle_interval_expiry_pc_out, Hpc.
    assert (blocks (handle_interval_expiry st) = ∅) as ->.
    { unfold handle_interval_expiry. destruct (bb_out st); [|exact Hb].
      rewrite (surjective_pairing (foreach_print_bb_freq _)), reset_table. cbn.
      rewrite Hb. apply fmap_empty. }
    reflexivity.
Qed.

Lemma print_pc_values_after_expiry st :
  print_pc <$> g_hash_table_get_values (blocks (handle_interval_expiry st)) =
  print_pc <$> g_hash_table_get_values (blocks st).
Proof.
  unfold handle_interval_expiry. destruct (bb_out st); [|reflexivity].
  rewrite (surjective_pairing (foreach_print_bb_freq _)), reset_table. cbn [set_bb_out set_blocks blocks].
  unfold g_hash_table_get_values. rewrite map_to_list_fmap.
  rewrite <- !list_fmap_compose. apply list_fmap_ext. intros i [pc info] _. reflexivity.
Qed.

(** X16. plugin_exit, cmp_tbid.  When a symbol map was asked for and the
    table holds blocks with identifiers below [2^31], [plugin_exit]
    returns and appends to the map one line per block in ascending
    order of identifier, except that the line of the block that comes
    last in that order is not written. *)
Theorem bbv_symbol_map_is_sorted_and_lacks_the_last st out :
  ids_allocated st -> next_tbid st <= 2 ^ 31 ->
  pc_out st = Some out -> blocks st <> ∅ ->
  exists st' lines last,
    plugin_exit st = Some st' /\
    pc_out st' = Some (out ++ lines) /\
    lines ++ [last] ≡ₚ print_pc <$> g_hash_table_get_values (blocks st) /\
    StronglySorted (fun a b : Z * Z * string => a.1.1 <= b.1.1) (lines ++ [last]).
Proof.
  intros [Hnext Hbelow _] Hsmall Hpc Hne.
  set (st1 := handle_interval_expiry st).
  set (it := g_list_sort cmp_tbid (g_hash_table_get_values (blocks st1))).
  assert (Forall (fun i => 0 <= tbid i < 2 ^ 31) (g_hash_table_get_values (blocks st1))) as HP.
  { unfold g_hash_table_get_values. apply Forall_fmap, Forall_forall.
    intros [pc info] Hin. apply elem_of_map_to_list in Hin. cbn.
    subst st1. unfold handle_interval_expiry in Hin.
    destruct (bb_out st).
    - rewrite (surjective_pairing (foreach_print_bb_freq _)), reset_table in Hin.
      cbn in Hin. apply lookup_fmap_Some in Hin as (i0 & <- & Hin). cbn.
      specialize (Hbelow pc i0 Hin). lia.
    - specialize (Hbelow pc info Hin). lia. }
  assert (StronglySorted (fun a b => tbid a <= tbid b) it) as Hsorted.
  { apply (g_list_sort_sorted (fun a b => tbid a <= tbid b)
             (fun i => 0 <= tbid i < 2 ^ 31)); [..|exact HP].
    all: try (intros a b Ha Hb; rewrite cmp_tbid_small by lia; lia).
    intros a b c Hab Hbc. lia. }
  assert (Forall (fun i => 0 <= tbid i < 2 ^ 31) it) as HPit.
  { subst it. rewrite g_list_sort_perm. exact HP. }
  assert (it <> []) as Hit.
  { intros Hnil. apply g_list_sort_nil, g_hash_table_get_values_nil,
      handle_interval_expiry_blocks_empty in Hnil. contradiction. }
  exists (set_pc_out (Some (out ++ (print_pc <$> removelast it))) st1),
    (print_pc <$> removelast it), (print_pc (List.last it (default
       {| tbid := 0; tb_pc := 0; n_insns := 0; tb_dynamic_count := 0;
          symbol := None; offset_from_symbol := 0 |} (head it)))).
  assert ((print_pc <$> removelast it) ++ [print_pc (List.last it (default
       {| tbid := 0; tb_pc := 0; n_insns := 0; tb_dynamic_count := 0;
          symbol := None; offset_from_symbol := 0 |} (head it)))] = print_pc <$> it) as Hall.
  { match goal with |- _ ++ [print_pc ?d] = _ =>
      transitivity (print_pc <$> (removelast it ++ [d])) end.
    - rewrite fmap_app. reflexivity.
    - f_equal. symmetry. apply app_removelast_last. exact Hit. }
  split; [|split; [reflexivity|split]].
  - unfold plugin_exit. fold st1. subst st1. rewrite handle_interval_expiry_pc_out, Hpc.
    fold it. destruct it; [contradiction|reflexivity].
  - rewrite Hall. subst it. rewrite g_list_sort_perm. subst st1.
    rewrite print_pc_values_after_expiry. reflexivity.
  - rewrite Hall. clear Hall Hit. revert HPit.
    induction Hsorted as [|x l Hs IH Hx]; intros HPit; [constructor|].
    apply Forall_cons in HPit as [Hx0 HPit].
    rewrite fmap_cons. constructor; [apply IH; exact HPit|].
    apply Forall_fmap. rewrite Forall_forall in Hx, HPit. apply Forall_forall.
    intros y Hy. cbn. specialize (Hx y Hy). specialize (HPit y Hy). cbn in HPit.
    rewrite !signed64_small by lia. exact Hx.
Qed.


(** ** Options, again *)

Lemma g_str_has_prefix_head opt c prefix :
  g_str_has_prefix opt (String c prefix) = true ->
  exists rest, opt = String c rest.
Proof.
  unfold g_str_has_prefix. destruct opt as [|c' rest]; cbn; [discriminate|].
  destruct (ascii_dec c c') as [->|]; [eauto|discriminate].
Qed.

Lemma g_str_has_prefix_other_head opt c prefix c' prefix' :
  c <> c' ->
  g_str_has_prefix opt (String c prefix) = true ->
  g_str_has_prefix opt (String c' prefix') = false.
Proof.
  intros Hne H. apply g_str_has_prefix_head in H as [rest ->].
  unfold g_str_has_prefix. cbn. destruct (ascii_dec c' c); [congruence|reflexivity].
Qed.

Lemma parse_options_last argv : forall bb_name pc_name len r,
  parse_options argv bb_name pc_name len = Some r ->
  r.1.1 = from_option Some bb_name (last_option "bb-out-file=" 12 argv) /\
  r.1.2 = from_option Some pc_name (last_option "pc-out-file=" 12 argv) /\
  r.2 = from_option g_ascii_strtoull len (last_option "interval-size=" 14 argv).
Proof.
  induction argv as [|opt argv IH]; intros bb_name pc_name len r.
  - cbn. intros [= <-]. auto.
  - cbn [parse_options last_option].
    destruct (g_str_has_prefix opt "bb-out-file=") eqn:Hbb.
    { rewrite (g_str_has_prefix_other_head opt "b"%char "b-out-file=" "p"%char "c-out-file="
               ltac:(discriminate) Hbb).
      rewrite (g_str_has_prefix_other_head opt "b"%char "b-out-file=" "i"%char "nterval-size="
               ltac:(discriminate) Hbb).
      intros Hr. destruct (IH _ _ _ _ Hr) as (H1 & H2 & H3).
      rewrite H1, H2, H3.
      destruct (last_option "bb-out-file=" 12 argv), (last_option "pc-out-file=" 12 argv),
        (last_option "interval-size=" 14 argv); auto. }
    destruct (g_str_has_prefix opt "pc-out-file=") eqn:Hpc.
    { rewrite (g_str_has_prefix_other_head opt "p"%char "c-out-file=" "i"%char "nterval-size="
               ltac:(discriminate) Hpc).
      intros Hr. destruct (IH _ _ _ _ Hr) as (H1 & H2 & H3).
      rewrite H1, H2, H3.
      destruct (last_option "bb-out-file=" 12 argv), (last_option "pc-out-file=" 12 argv),
        (last_option "interval-size=" 14 argv); auto. }
    destruct (g_str_has_prefix opt "interval-size=") eqn:Hint; [|discriminate].
    intros Hr. destruct (IH _ _ _ _ Hr) as (H1 & H2 & H3).
    rewrite H1, H2, H3.
    destruct (last_option "bb-out-file=" 12 argv), (last_option "pc-out-file=" 12 argv),
      (last_option "interval-size=" 14 argv); auto.
Qed.

(** X17. qemu_plugin_install.  When every option is recognised,
    installation returns 0 and, for each kind of option, the last one
    given decides: the interval length is what [g_ascii_strtoull] reads
    from the last [interval-size] (100000000 if there is none) and is a
    64-bit value; the BBV stream and the symbol map are open exactly
    when a [bb-out-file], respectively [pc-out-file], was given and the
    file named by the last one could be opened.  The table is empty and
    the counters are zero. *)
Theorem bbv_install_last_option_decides fopen_ok argv :
  forallb recognised argv = true ->
  exists st0,
    qemu_plugin_install fopen_ok argv = (0, Some st0) /\
    insns_interval_length st0 =
      from_option g_ascii_strtoull 100000000 (last_option "interval-size=" 14 argv) /\
    0 <= insns_interval_length st0 < modulus /\
    bb_out st0 =
      match last_option "bb-out-file=" 12 argv with
      | Some name => if fopen_ok name then Some [] else None
      | None => None
      end /\
    pc_out st0 =
      match last_option "pc-out-file=" 12 argv with
      | Some name => if fopen_ok name then Some [] else None
      | None => None
      end /\
    blocks st0 = ∅ /\ insns_executed st0 = 0 /\ next_tbid st0 = 0.
Proof.
  intros Hall.
  destruct (proj2 (parse_options_recognised argv None None
                     (insns_interval_length initial_state)) Hall) as [[[bb pcn] len] Hp].
  destruct (parse_options_last _ _ _ _ _ Hp) as (H1 & H2 & H3). cbn [fst snd] in *.
  assert (0 <= insns_interval_length initial_state < modulus) as Hdefault
    by (cbn; rewrite modulus_eq; lia).
  pose proof (parse_options_length _ _ _ _ _ Hdefault Hp) as Hrange.
  unfold qemu_plugin_install. rewrite Hp.
  eexists. split; [reflexivity|]. cbn [insns_interval_length bb_out pc_out blocks
                                       insns_executed next_tbid].
  split; [exact H3|]. split; [exact Hrange|].
  split; [|split; [|auto]].
  - rewrite H1. destruct (last_option "bb-out-file=" 12 argv); reflexivity.
  - rewrite H2. destruct (last_option "pc-out-file=" 12 argv); reflexivity.
Qed.


(** ** Instances *)

Lemma bbv_records_are_never_replaced_witness :
  let st := run [Translate (block_at 4096 40)] (installed argv_100) in
  exists v info,
    blocks (run [Execute 4096; Translate (block_at 4096 7)] st) !! 4096 = Some info /\
    info = set_tb_dynamic_count v info /\ n_insns info = 40 /\ tbid info = 0.
Proof.
  intros st.
  destruct (bbv_records_are_never_replaced
              [Execute 4096; Translate (block_at 4096 7)] st 4096
              {| tbid := 0; tb_pc := 4096; n_insns := 40; tb_dynamic_count := 0;
                 symbol := Some "main"%string; offset_from_symbol := 0 |} eq_refl)
    as [v Hv].
  exists v. eexists. split; [exact Hv|]. repeat split.
Defined.

Lemma bbv_table_holds_first_translations_witness :
  exists info,
    blocks (run [Translate (block_at 4096 40); Translate (block_at 4096 7)]
              (installed argv_100)) !! 4096 = Some info /\
    n_insns info = 40.
Proof.
  destruct (bbv_table_holds_first_translations
              [Translate (block_at 4096 40); Translate (block_at 4096 7)]
              (installed argv_100) 4096 eq_refl)
    as (info & H1 & _ & H3 & _).
  exists info. split; [exact H1|exact H3].
Defined.

Lemma bbv_every_interval_line_is_full_witness :
  exists lines,
    bb_out (run three_times_40 (installed argv_100)) = Some lines /\
    Forall (fun line => line_total line = 100) lines.
Proof.
  destruct (bbv_every_interval_line_is_full always_opens argv_100 0
              (installed argv_100) three_times_40 eq_refl
              (ex_intro _ [] eq_refl) eq_refl)
    as (lines & H1 & H2 & _).
  exists lines. split; [exact H1|exact H2].
Defined.

Lemma bbv_block_ids_are_dense_witness :
  let st := run [Translate (block_at 4096 40); Translate (block_at 8192 3);
                 Translate (block_at 4096 40)] (installed argv_100) in
  next_tbid st = 2 /\
  exists pc info, blocks st !! pc = Some info /\ tbid info = 1.
Proof.
  intros st.
  destruct (bbv_block_ids_are_dense always_opens argv_100 0 (installed argv_100)
              [Translate (block_at 4096 40); Translate (block_at 8192 3);
               Translate (block_at 4096 40)] eq_refl eq_refl)
    as (H1 & _ & H3 & _).
  split; [exact H1|]. apply H3. split; [discriminate|reflexivity].
Defined.

Lemma bbv_lines_list_no_zero_count_witness :
  Forall (Forall (fun p : Z * Z => p.2 <> 0)) [[(0, 100)]; [(0, 20)]].
Proof.
  exact (bbv_lines_list_no_zero_count always_opens argv_100 0 (installed argv_100)
           three_times_40 [[(0, 100)]; [(0, 20)]] eq_refl eq_refl).
Defined.

Lemma cmp_tbid_is_the_difference_witness :
  cmp_tbid
    {| tbid := 3; tb_pc := 4096; n_insns := 1; tb_dynamic_count := 0;
       symbol := None; offset_from_symbol := 0 |}
    {| tbid := 5; tb_pc := 8192; n_insns := 1; tb_dynamic_count := 0;
       symbol := None; offset_from_symbol := 0 |} = 3 - 5.
Proof.
  apply cmp_tbid_is_the_difference. split; [discriminate|reflexivity].
Defined.

Lemma bbv_symbol_map_is_sorted_and_lacks_the_last_witness :
  let st := run [Translate (block_at 8192 3); Translate (block_at 4096 40)]
              (installed ["pc-out-file=pc.out"%string]) in
  exists st' lines last,
    plugin_exit st = Some st' /\ pc_out st' = Some ([] ++ lines) /\
    lines ++ [last] ≡ₚ print_pc <$> g_hash_table_get_values (blocks st).
Proof.
  intros st.
  assert (ids_allocated st) as Hids.
  { apply run_ids_allocated; [|reflexivity].
    constructor.
    - split; [discriminate|reflexivity].
    - intros pc info H.
      change (blocks _) with (∅ : gmap Z BBExecutionFrequency) in H.
      rewrite lookup_empty in H. discriminate.
    - intros pc1 pc2 info1 info2 H.
      change (blocks _) with (∅ : gmap Z BBExecutionFrequency) in H.
      rewrite lookup_empty in H. discriminate. }
  destruct (bbv_symbol_map_is_sorted_and_lacks_the_last st [] Hids)
    as (st' & lines & last & H1 & H2 & H3 & _).
  - discriminate.
  - reflexivity.
  - intros H. apply (f_equal (fun m : gmap Z BBExecutionFrequency => m !! 4096)) in H.
    discriminate H.
  - exists st', lines, last. split; [exact H1|]. split; [exact H2|exact H3].
Defined.

Lemma bbv_install_last_option_decides_witness :
  exists st0,
    qemu_plugin_install always_opens
      ["interval-size=5"%string; "bb-out-file=a"%string; "interval-size=100"%string]
      = (0, Some st0) /\
    insns_interval_length st0 = 100.
Proof.
  destruct (bbv_install_last_option_decides always_opens
              ["interval-size=5"%string; "bb-out-file=a"%string;
               "interval-size=100"%string] eq_refl)
    as (st0 & H1 & H2 & _).
  exists st0. split; [exact H1|exact H2].
Defined.

End bbv_more_facts.

(** * More facts about the hot-block plugin *)

Section hot_blocks_more_facts.
Import HotBlocks HotBlocksHistory Scenarios.

Lemma wrap64_add_l a b : wrap64 (wrap64 a + b) = wrap64 (a + b).
Proof. unfold wrap64. apply Z.add_mod_idemp_l. rewrite modulus_eq. lia. Qed.

Lemma wrap64_add_r a b : wrap64 (a + wrap64 b) = wrap64 (a + b).
Proof. unfold wrap64. apply Z.add_mod_idemp_r. rewrite modulus_eq. lia. Qed.

(** ** The table as a function of the callbacks *)

(** The record found under [pc] after more callbacks: only the two
    counters have moved, by the number of translations and executions of
    that address. *)
Lemma hot_blocks_counters_advance evs : forall (m : gmap Z TBExecCount) pc cnt,
  m !! pc = Some cnt ->
  0 <= exec_count cnt < modulus -> 0 <= trans_count cnt < modulus ->
  fold_left step evs m !! pc =
    Some {| start_addr := start_addr cnt;
            exec_count := wrap64 (exec_count cnt + executions evs pc);
            trans_count := wrap64 (trans_count cnt + translations evs pc);
            n_insns := n_insns cnt; insns := insns cnt;
            symbol := symbol cnt; next := next cnt |}.
Proof.
  induction evs as [|e evs IH]; intros m pc cnt Hl He Ht.
  - cbn. rewrite !Z.add_0_r, !wrap64_small by assumption.
    rewrite Hl. destruct cnt; reflexivity.
  - cbn [fold_left]. destruct e as [tb|pc0]; cbn [step translations executions].
    + unfold vcpu_tb_trans.
      destruct (decide (qemu_plugin_tb_vaddr tb = pc)) as [Heq|Hne].
      * rewrite Heq, Hl. cbn [fst].
        rewrite (IH _ pc (set_trans_count (wrap64 (trans_count cnt + 1)) cnt));
          [|apply lookup_insert_eq|exact He|apply wrap64_range].
        cbn [set_trans_count start_addr exec_count trans_count n_insns insns symbol next].
        rewrite wrap64_add_l, Z.add_assoc. reflexivity.
      * assert (forall x, (<[qemu_plugin_tb_vaddr tb := x]> m) !! pc = Some cnt) as Hk
          by (intros x; rewrite lookup_insert_ne by exact Hne; exact Hl).
        destruct (m !! qemu_plugin_tb_vaddr tb); cbn [fst];
          rewrite (IH _ pc cnt (Hk _) He Ht); reflexivity.
    + unfold tb_exec_inline. destruct (decide (pc0 = pc)) as [->|Hne].
      * rewrite (IH _ pc (set_exec_count (wrap64 (exec_count cnt + 1)) cnt));
          [|rewrite lookup_alter_eq, Hl; reflexivity|apply wrap64_range|exact Ht].
        cbn [set_exec_count start_addr exec_count trans_count n_insns insns symbol next].
        rewrite wrap64_add_l, Z.add_assoc. reflexivity.
      * rewrite (IH _ pc cnt); [reflexivity| |exact He|exact Ht].
        rewrite lookup_alter_ne by exact Hne. exact Hl.
Qed.

Lemma hot_blocks_step_unknown (m : gmap Z TBExecCount) e pc :
  m !! pc = None ->
  (forall tb, e = Translate tb -> qemu_plugin_tb_vaddr tb <> pc) ->
  step m e !! pc = None.
Proof.
  intros Hl Hne. destruct e as [tb|pc0]; cbn [step].
  - specialize (Hne tb eq_refl). unfold vcpu_tb_trans.
    destruct (m !! qemu_plugin_tb_vaddr tb); cbn [fst];
      rewrite lookup_insert_ne by exact Hne; exact Hl.
  - unfold tb_exec_inline. destruct (decide (pc0 = pc)) as [->|Hne0].
    + rewrite lookup_alter_eq, Hl. reflexivity.
    + rewrite lookup_alter_ne by exact Hne0. exact Hl.
Qed.

Lemma hot_blocks_table_from evs : forall (m : gmap Z TBExecCount) pc,
  m !! pc = None ->
  fold_left step evs m !! pc =
    match first_translation_of evs pc with
    | None => None
    | Some tb =>
        Some {| start_addr := pc;
                exec_count := wrap64 (executions_once_translated evs pc);
                trans_count := wrap64 (translations evs pc);
                n_insns := qemu_plugin_tb_n_insns tb;
                insns := snapshot <$> take (Z.to_nat (qemu_plugin_tb_n_insns tb))
                                        (tb_insns tb);
                symbol := first_insn_symbol tb; next := None |}
    end.
Proof.
  induction evs as [|e evs IH]; intros m pc Hl; [exact Hl|].
  cbn [fold_left]. destruct e as [tb|pc0];
    cbn [first_translation_of translations executions_once_translated].
  - destruct (decide (qemu_plugin_tb_vaddr tb = pc)) as [Heq|Hne].
    + cbn [step]. unfold vcpu_tb_trans. rewrite Heq, Hl. cbn [fst].
      erewrite hot_blocks_counters_advance;
        [|apply lookup_insert_eq|cbn; rewrite modulus_eq; lia..].
      cbn. reflexivity.
    + apply IH. apply hot_blocks_step_unknown; [exact Hl|].
      intros tb' [= <-]. exact Hne.
  - apply IH. apply hot_blocks_step_unknown; [exact Hl|]. discriminate.
Qed.

(** X18. vcpu_tb_trans and the inline execution counter.  After any run
    the table is a function of the callbacks seen: an address has a
    record exactly when it was translated; the record has that address,
    the instruction count, instruction snapshot and symbol of the first
    translation, [trans_count] equal to the number of translations of
    the address and [exec_count] equal to the number of executions that
    followed the first translation, both modulo [2^64]. *)
Theorem hot_blocks_table_is_the_history evs pc :
  run evs !! pc =
    match first_translation_of evs pc with
    | None => None
    | Some tb =>
        Some {| start_addr := pc;
                exec_count := wrap64 (executions_once_translated evs pc);
                trans_count := wrap64 (translations evs pc);
                n_insns := qemu_plugin_tb_n_insns tb;
                insns := snapshot <$> take (Z.to_nat (qemu_plugin_tb_n_insns tb))
                                        (tb_insns tb);
                symbol := first_insn_symbol tb; next := None |}
    end.
Proof. apply hot_blocks_table_from. apply lookup_empty. Qed.

(** X19. vcpu_tb_trans, plugin_exit.  Every record of the table after a
    run is stored under its own start address and its snapshot has
    exactly [n_insns] cells, so the loop of [plugin_exit] that prints
    the instructions of a block reads each cell of the snapshot once and
    none beyond it. *)
Theorem hot_blocks_snapshot_has_n_insns_cells evs pc cnt total :
  run evs !! pc = Some cnt ->
  start_addr cnt = pc /\
  Z.of_nat (length (insns cnt)) = n_insns cnt /\
  line_disasm (insn_line total cnt) = disasm <$> insns cnt.
Proof.
  unfold run. rewrite hot_blocks_table_from by apply lookup_empty.
  destruct (first_translation_of evs pc) as [tb|]; [|discriminate].
  intros [= <-]. cbn [start_addr insns n_insns insn_line line_disasm].
  assert (Z.of_nat (length (snapshot <$> take (Z.to_nat (qemu_plugin_tb_n_insns tb))
                                          (tb_insns tb)))
          = qemu_plugin_tb_n_insns tb) as Hlen.
  { rewrite length_fmap, length_take. unfold qemu_plugin_tb_n_insns.
    pose proof (wrap64_range (Z.of_nat (length (tb_insns tb)))) as Hr.
    assert (wrap64 (Z.of_nat (length (tb_insns tb))) <= Z.of_nat (length (tb_insns tb))).
    { unfold wrap64. apply Z.mod_le; [lia|rewrite modulus_eq; lia]. }
    lia. }
  split; [reflexivity|]. split; [exact Hlen|].
  f_equal. apply take_ge. lia.
Qed.


(** ** The total and the two sections *)

Lemma total_insn_executed_sum (it : list TBExecCount) :
  total_insn_executed it = wrap64 (sumZ (dynamic_insncount <$> visited it)).
Proof.
  unfold total_insn_executed.
  assert (forall l acc,
    fold_left (fun total rec => wrap64 (total + wrap64 (n_insns rec * exec_count rec)))
      l (wrap64 acc) = wrap64 (acc + sumZ (dynamic_insncount <$> l))) as Hfold.
  { induction l as [|x l IH]; intros acc; [cbn; rewrite Z.add_0_r; reflexivity|].
    cbn [fold_left]. rewrite wrap64_add_l, wrap64_add_r.
    rewrite <- (wrap64_add_r acc (n_insns x * exec_count x)).
    rewrite wrap64_add_r, IH. rewrite fmap_cons, sumZ_cons.
    unfold dynamic_insncount at 2.
    rewrite <- wrap64_add_l, <- (wrap64_add_r acc), wrap64_add_l.
    rewrite (Z.mul_comm (exec_count x)). f_equal. lia. }
  change 0 with (wrap64 0) at 1. rewrite Hfold. reflexivity.
Qed.

Lemma sorted_has_a_last {V} (cmp : V -> V -> Z) (m : gmap Z V) :
  m <> ∅ ->
  exists last, g_list_sort cmp (g_hash_table_get_values m) =
               visited (g_list_sort cmp (g_hash_table_get_values m)) ++ [last].
Proof.
  intros Hne. destruct (g_list_sort cmp (g_hash_table_get_values m)) as [|x l] eqn:Hs.
  - apply g_list_sort_nil, g_hash_table_get_values_nil in Hs. contradiction.
  - exists (List.last (x :: l) x). apply app_removelast_last. discriminate.
Qed.

Lemma descending_last_is_least {A} (key : A -> Z) (l : list A) (last : A) :
  descending key (l ++ [last]) -> Forall (fun e => key last <= key e) (l ++ [last]).
Proof.
  unfold descending. intros Hs. apply StronglySorted_app in Hs as (Hall & _ & _).
  apply Forall_app. split.
  - apply Forall_forall. intros e He. apply (Hall e last He). left.
  - constructor; [lia|constructor].
Qed.

(** X20. plugin_exit.  For a table that is not empty, each section of
    the report lists every block of the sorted list but the last one: it
    has one line less than the table has blocks, and the block left out
    is one with the least key of its section (the least 64-bit product
    [exec_count * n_insns], respectively the least [exec_count]). *)
Theorem hot_blocks_sections_lack_the_last_block (blocks : gmap Z TBExecCount) :
  blocks <> ∅ ->
  let rep := plugin_exit blocks in
  let total := total_insn_executed (sorted_by_insncount blocks) in
  exists last1 last2,
    by_dynamic_instructions rep ++ [insn_line total last1] =
      insn_line total <$> sorted_by_insncount blocks /\
    by_dynamic_invocations rep ++ [exec_line total last2] =
      exec_line total <$> sorted_by_execcount blocks /\
    length (by_dynamic_instructions rep) = pred (size blocks) /\
    length (by_dynamic_invocations rep) = pred (size blocks) /\
    (forall e, e ∈ g_hash_table_get_values blocks ->
               dynamic_insncount last1 <= dynamic_insncount e) /\
    (forall e, e ∈ g_hash_table_get_values blocks ->
               exec_count last2 <= exec_count e).
Proof.
  intros Hne rep total.
  destruct (plugin_exit_sections blocks) as (H1 & H2 & _).
  fold rep in H1, H2. fold total in H1, H2.
  destruct (sorted_has_a_last cmp_dynamic_insncount blocks Hne) as [last1 Hl1].
  destruct (sorted_has_a_last cmp_dynamic_execcount blocks Hne) as [last2 Hl2].
  fold (sorted_by_insncount blocks) in Hl1. fold (sorted_by_execcount blocks) in Hl2.
  exists last1, last2. repeat apply conj.
  - rewrite H1. rewrite Hl1 at 2. rewrite fmap_app. reflexivity.
  - rewrite H2. rewrite Hl2 at 2. rewrite fmap_app. reflexivity.
  - rewrite H1, length_fmap, length_visited. f_equal. apply length_sorted.
  - rewrite H2, length_fmap, length_visited. f_equal. apply length_sorted.
  - intros e He.
    pose proof (g_list_sort_descending dynamic_insncount cmp_dynamic_insncount
                  cmp_dynamic_insncount_key (g_hash_table_get_values blocks)) as Hd.
    fold (sorted_by_insncount blocks) in Hd. rewrite Hl1 in Hd.
    apply descending_last_is_least in Hd. rewrite Forall_forall in Hd. apply Hd.
    rewrite <- Hl1. unfold sorted_by_insncount. rewrite g_list_sort_perm. exact He.
  - intros e He.
    pose proof (g_list_sort_descending dynamic_execcount cmp_dynamic_execcount
                  cmp_dynamic_execcount_key (g_hash_table_get_values blocks)) as Hd.
    fold (sorted_by_execcount blocks) in Hd. rewrite Hl2 in Hd.
    apply descending_last_is_least in Hd. rewrite Forall_forall in Hd. apply Hd.
    rewrite <- Hl2. unfold sorted_by_execcount. rewrite g_list_sort_perm. exact He.
Qed.

Lemma wrap64_sumZ_wrap64 (f : TBExecCount -> Z) (l : list TBExecCount) :
  wrap64 (sumZ ((fun e => wrap64 (f e)) <$> l)) = wrap64 (sumZ (f <$> l)).
Proof.
  induction l as [|x l IH]; [reflexivity|].
  rewrite !fmap_cons, !sumZ_cons.
  rewrite wrap64_add_l, <- wrap64_add_r, IH, wrap64_add_r. reflexivity.
Qed.

Lemma sum_exec_times_insns_sumZ (blocks : gmap Z TBExecCount) :
  sum_exec_times_insns blocks =
  sumZ ((fun e => exec_count e * n_insns e) <$> g_hash_table_get_values blocks).
Proof.
  unfold sum_exec_times_insns.
  induction (g_hash_table_get_values blocks) as [|x l IH]; [reflexivity|].
  cbn [foldr]. rewrite fmap_cons, sumZ_cons, IH. reflexivity.
Qed.

(** X21. plugin_exit.  The total that the report prints and divides by
    is, in 64 bits, the sum of [exec_count * n_insns] over the blocks of
    the table without the contribution of one block with the least such
    product (the last of the sorted list); for an empty table it is 0. *)
Theorem hot_blocks_total_lacks_the_least_block (blocks : gmap Z TBExecCount) :
  let total := total_insn_executed (sorted_by_insncount blocks) in
  (blocks = ∅ -> total = 0) /\
  (blocks <> ∅ ->
   exists last,
     last ∈ g_hash_table_get_values blocks /\
     (forall e, e ∈ g_hash_table_get_values blocks ->
                dynamic_insncount last <= dynamic_insncount e) /\
     wrap64 (total + dynamic_insncount last) = wrap64 (sum_exec_times_insns blocks)).
Proof.
  intros total. split.
  - intros ->. reflexivity.
  - intros Hne.
    destruct (sorted_has_a_last cmp_dynamic_insncount blocks Hne) as [last Hl].
    fold (sorted_by_insncount blocks) in Hl.
    pose proof (g_list_sort_perm cmp_dynamic_insncount (g_hash_table_get_values blocks))
      as Hperm. fold (sorted_by_insncount blocks) in Hperm.
    exists last. split; [|split].
    + rewrite <- Hperm, Hl. apply elem_of_app. right. left.
    + intros e He.
      pose proof (g_list_sort_descending dynamic_insncount cmp_dynamic_insncount
                    cmp_dynamic_insncount_key (g_hash_table_get_values blocks)) as Hd.
      fold (sorted_by_insncount blocks) in Hd. rewrite Hl in Hd.
      apply descending_last_is_least in Hd. rewrite Forall_forall in Hd. apply Hd.
      rewrite <- Hl, Hperm. exact He.
    + subst total. rewrite total_insn_executed_sum, wrap64_add_l.
      rewrite sum_exec_times_insns_sumZ.
      rewrite <- (wrap64_sumZ_wrap64 (fun e => exec_count e * n_insns e)).
      change (fun e => wrap64 (exec_count e * n_insns e)) with dynamic_insncount.
      rewrite <- (sumZ_perm _ _ (fmap_Permutation dynamic_insncount _ _ Hperm)).
      rewrite Hl at 2. rewrite fmap_app, sumZ_app. cbn. do 2 f_equal. lia.
Qed.

(** X22. plugin_exit.  Both sections divide by one and the same total,
    which is also what the summary prints, and that total is, in 64
    bits, the sum of the counts of the lines of the first section: the
    second loop of [plugin_exit] walks the cells the first loop added
    up. *)
Theorem hot_blocks_first_section_adds_up_to_total (blocks : gmap Z TBExecCount) :
  let rep := plugin_exit blocks in
  let total := total_insn_executed (sorted_by_insncount blocks) in
  total = wrap64 (sumZ ((numerator ∘ line_percent) <$> by_dynamic_instructions rep)) /\
  dynamic_instruction_count rep = signed64 total /\
  (forall line,
     line ∈ by_dynamic_instructions rep ++ by_dynamic_invocations rep ->
     denominator (line_percent line) = total).
Proof.
  intros rep total.
  destruct (plugin_exit_sections blocks) as (H1 & H2 & H3).
  fold rep in H1, H2, H3. fold total in H1, H2, H3.
  split; [|split; [exact H3|]].
  - subst total. rewrite total_insn_executed_sum. f_equal. f_equal.
    rewrite H1, <- list_fmap_compose. apply list_fmap_ext.
    intros i e _. cbn. unfold dynamic_insncount. f_equal. lia.
  - intros line Hin. rewrite H1, H2 in Hin.
    apply elem_of_app in Hin as [Hin|Hin];
      apply list_elem_of_fmap in Hin as (e & -> & _); reflexivity.
Qed.

(** ** Instances *)

Lemma hot_blocks_snapshot_has_n_insns_cells_witness :
  exists cnt,
    run five_and_one !! 4096 = Some cnt /\
    Z.of_nat (length (insns cnt)) = n_insns cnt.
Proof.
  eexists. split; [reflexivity|].
  refine (proj1 (proj2 (hot_blocks_snapshot_has_n_insns_cells five_and_one 4096 _ 0 eq_refl))).
Defined.

Lemma hot_blocks_sections_lack_the_last_block_witness :
  length (by_dynamic_instructions (plugin_exit (run five_and_one))) = 1%nat.
Proof.
  destruct (hot_blocks_sections_lack_the_last_block (run five_and_one))
    as (last1 & last2 & _ & _ & H3 & _).
  - intros H. apply (f_equal (fun m : gmap Z TBExecCount => m !! 4096)) in H.
    discriminate H.
  - exact H3.
Defined.

Lemma hot_blocks_total_lacks_the_least_block_witness :
  exists last,
    wrap64 (total_insn_executed (sorted_by_insncount (run five_and_one))
            + dynamic_insncount last) = wrap64 70.
Proof.
  destruct (proj2 (hot_blocks_total_lacks_the_least_block (run five_and_one)))
    as (last & _ & _ & H).
  - intros H. apply (f_equal (fun m : gmap Z TBExecCount => m !! 4096)) in H.
    discriminate H.
  - exists last. exact H.
Defined.

End hot_blocks_more_facts.

(** * Blocks shorter than the interval *)

Section bbv_short_blocks.
Import Bbv BbvHistory Scenarios.

Lemma sumZ_member_le (l : list Z) x :
  Forall (fun y => 0 <= y) l -> x ∈ l -> x <= sumZ l.
Proof.
  intros Hall Hx. induction Hall as [|y l Hy Hl IH]; [inversion Hx|].
  rewrite sumZ_cons. pose proof (sumZ_nonneg l Hl).
  apply elem_of_cons in Hx as [->|Hx]; [lia|]. specialize (IH Hx). lia.
Qed.

Lemma foreach_print_bb_freq_positive (m : gmap Z BBExecutionFrequency) :
  (forall pc info, m !! pc = Some info -> 0 <= tb_dynamic_count info < 2 ^ 63) ->
  Forall (fun p => 0 < p.2) (foreach_print_bb_freq m).1.
Proof.
  intros Hm. unfold foreach_print_bb_freq. cbn [fst].
  assert (Forall (fun kv : Z * BBExecutionFrequency =>
                    0 <= tb_dynamic_count kv.2 < 2 ^ 63) (map_to_list m)) as Hall.
  { apply Forall_forall. intros [pc info] Hin.
    apply elem_of_map_to_list in Hin. exact (Hm pc info Hin). }
  induction Hall as [|[pc info] l Hx _ IH]; [constructor|].
  cbn [omap list_omap snd] in *.
  destruct (print_bb_freq info) as [[p|] info2] eqn:Hp; cbn [fst]; [|exact IH].
  unfold print_bb_freq in Hp. destruct (decide _) as [|Hnz]; [discriminate|].
  injection Hp as <- _. constructor; [|exact IH].
  cbn. rewrite signed64_small by lia. lia.
Qed.

Lemma line_entries_at_most_total (line : list (Z * Z)) :
  Forall (fun p => 0 < p.2) line ->
  Forall (fun p => 0 < p.2 <= line_total line) line.
Proof.
  intros Hpos. apply Forall_forall. intros p Hp.
  rewrite Forall_forall in Hpos. split; [exact (Hpos p Hp)|].
  unfold line_total. apply sumZ_member_le.
  - apply Forall_fmap, Forall_forall. intros q Hq. specialize (Hpos q Hq). cbn. lia.
  - apply list_elem_of_fmap. exists p. auto.
Qed.

(** The invariant of a run in which no block is longer than the
    interval, and what one callback does to it. *)
Lemma step_short_blocks st e out :
  consistent st -> bb_out st = Some out ->
  insns_executed st <= insns_interval_length st ->
  (forall pc info, blocks st !! pc = Some info ->
                   n_insns info <= insns_interval_length st) ->
  match e with
  | Translate tb => qemu_plugin_tb_n_insns tb <= insns_interval_length st
  | Execute _ => True
  end ->
  insns_executed st + executed_by st e < 2 ^ 63 ->
  insns_executed (step st e) <= insns_interval_length st /\
  (forall pc info, blocks (step st e) !! pc = Some info ->
                   n_insns info <= insns_interval_length st) /\
  exists more,
    bb_out (step st e) = Some (out ++ more) /\
    Forall (Forall (fun p : Z * Z => 0 < p.2 <= insns_interval_length st)) more.
Proof.
  intros Hst Hout Ht Hn He Hfit. destruct e as [tb|pc]; cbn [step executed_by] in *.
  - destruct (blocks st !! qemu_plugin_tb_vaddr tb) as [i0|] eqn:Hk.
    + rewrite (vcpu_tb_trans_known _ _ _ Hk). cbn.
      split; [exact Ht|]. split; [exact Hn|].
      exists []. rewrite app_nil_r. split; [exact Hout|constructor].
    + rewrite (vcpu_tb_trans_fresh _ _ Hk). cbn.
      split; [exact Ht|]. split.
      * intros pc info Hl. apply lookup_insert_Some in Hl as [[_ <-]|[_ Hl]];
          [exact He|exact (Hn pc info Hl)].
      * exists []. rewrite app_nil_r. split; [exact Hout|constructor].
  - destruct (blocks st !! pc) as [info|] eqn:Hpc.
    2:{ rewrite vcpu_tb_exec_unknown by exact Hpc.
        split; [exact Ht|]. split; [exact Hn|].
        exists []. rewrite app_nil_r. split; [exact Hout|constructor]. }
    pose proof (exact_bounds st pc info Hst Hpc) as Hb.
    pose proof (Hn pc info Hpc) as Hshort.
    assert (forall p i, blocks (vcpu_tb_exec st pc) !! p = Some i ->
                        n_insns i <= insns_interval_length st) as Hn'.
    { intros p i Hl. apply vcpu_tb_exec_records in Hl as (i0 & v & H0 & ->).
      cbn. exact (Hn p i0 H0). }
    destruct (Z_le_gt_dec (insns_executed st + n_insns info)
                (insns_interval_length st)) as [Hle|Hgt].
    + destruct (exec_below_consistent st pc info Hst Hpc Hfit Hle) as (_ & Ho & Ht' & _).
      split; [lia|]. split; [exact Hn'|].
      exists []. rewrite app_nil_r. split; [congruence|constructor].
    + destruct (exec_above_consistent st pc info Hst Hpc Hfit out Hout Hgt)
        as (_ & (line & Ho & Htot & Hline) & Ht' & _).
      split; [lia|]. split; [exact Hn'|].
      exists [line]. split; [exact Ho|]. constructor; [|constructor].
      rewrite <- Htot. apply line_entries_at_most_total.
      rewrite Hline. apply foreach_print_bb_freq_positive.
      destruct Hst as [_ _ Hrec Hsum].
      intros p i Hi. apply lookup_insert_Some in Hi as [[_ <-]|[_ Hi]].
      * cbn. rewrite wrap64_small by (rewrite modulus_eq; lia). lia.
      * destruct (Hrec p i Hi) as [Hc _].
        pose proof (sum_counts_bound tb_dynamic_count (blocks st) p i
                      (fun p0 i0 H => proj1 (Hrec p0 i0 H)) Hi). lia.
Qed.

(** X23. vcpu_tb_exec, print_bb_freq.  When no translated block is
    longer than the interval, the running total between two callbacks
    never exceeds the interval length, and every count printed in a line
    during the run is positive and at most the interval length (for a
    run from installation with a BBV stream whose instruction total is
    below [2^63]). *)
Theorem bbv_short_blocks_give_positive_counts fopen_ok argv rc st0 evs :
  qemu_plugin_install fopen_ok argv = (rc, Some st0) ->
  is_Some (bb_out st0) ->
  blocks_fit (insns_interval_length st0) evs ->
  total_dynamic_instructions_executed evs st0 < 2 ^ 63 ->
  insns_executed (run evs st0) <= insns_interval_length st0 /\
  exists lines,
    bb_out (run evs st0) = Some lines /\
    Forall (Forall (fun p : Z * Z => 0 < p.2 <= insns_interval_length st0)) lines.
Proof.
  intros Hinst Hsome Hshort Hfit.
  destruct (qemu_plugin_install_state _ _ _ _ Hinst) as (_ & Hb & Ht & _ & HL & Hout).
  destruct Hout as [Hout|Hout]; [rewrite Hout in Hsome; destruct Hsome; discriminate|].
  destruct (installed_consistent st0 Hb Ht (proj1 HL) Hsome) as [Hc _].
  assert (forall evs st out,
    consistent st -> bb_out st = Some out ->
    insns_executed st <= insns_interval_length st ->
    (forall pc info, blocks st !! pc = Some info ->
                     n_insns info <= insns_interval_length st) ->
    blocks_fit (insns_interval_length st) evs ->
    insns_executed st + total_dynamic_instructions_executed evs st < 2 ^ 63 ->
    insns_executed (run evs st) <= insns_interval_length st /\
    exists more, bb_out (run evs st) = Some (out ++ more) /\
      Forall (Forall (fun p : Z * Z => 0 < p.2 <= insns_interval_length st)) more) as Hrun.
  { clear. induction evs as [|e evs IH]; intros st out Hst Hout Ht Hn Hshort Hfit.
    - split; [exact Ht|]. exists []. rewrite app_nil_r. split; [exact Hout|constructor].
    - rewrite run_cons. cbn [total_dynamic_instructions_executed] in Hfit.
      apply Forall_cons in Hshort as [He Hshort].
      pose proof (total_nonneg evs (step st e)
        (step_counted_insns_nonneg st e (consistent_counted_insns_nonneg st Hst))) as Hpos.
      destruct (step_consistent st e out Hst Hout) as (Hc1 & Hle & _); [lia|].
      destruct (step_short_blocks st e out Hst Hout Ht Hn He)
        as (Ht1 & Hn1 & more1 & Ho1 & Hall1); [lia|].
      destruct (IH (step st e) (out ++ more1) Hc1 Ho1) as (Ht2 & more2 & Ho2 & Hall2).
      + rewrite step_length. exact Ht1.
      + rewrite step_length. exact Hn1.
      + rewrite step_length. exact Hshort.
      + lia.
      + rewrite step_length in Ht2, Hall2. split; [exact Ht2|].
        exists (more1 ++ more2). rewrite app_assoc. split; [exact Ho2|].
        apply Forall_app. split; assumption. }
  destruct (Hrun evs st0 [] Hc Hout) as (Ht' & more & Ho & Hall).
  - rewrite Ht. apply HL.
  - intros pc info. rewrite Hb, lookup_empty. discriminate.
  - exact Hshort.
  - lia.
  - split; [exact Ht'|]. exists more. split; [exact Ho|exact Hall].
Qed.

Lemma bbv_short_blocks_give_positive_counts_witness :
  exists lines,
    bb_out (run three_times_40 (installed argv_100)) = Some lines /\
    Forall (Forall (fun p : Z * Z => 0 < p.2 <= 100)) lines.
Proof.
  destruct (bbv_short_blocks_give_positive_counts always_opens argv_100 0
              (installed argv_100) three_times_40 eq_refl (ex_intro _ [] eq_refl))
    as (_ & lines & H1 & H2).
  - repeat constructor. discriminate.
  - reflexivity.
  - exists lines. split; [exact H1|exact H2].
Defined.

End bbv_short_blocks.

(** * Percentages of the first section *)

Section hot_blocks_percentages.
Import HotBlocks Scenarios.

Lemma dynamic_insncount_range e : 0 <= dynamic_insncount e < modulus.
Proof. apply wrap64_range. Qed.

Lemma sumZ_visited_le (l : list Z) :
  Forall (fun y => 0 <= y) l -> sumZ (removelast l) <= sumZ l.
Proof.
  intros Hall. destruct l as [|x l']; [reflexivity|].
  rewrite (app_removelast_last 0 (l := x :: l')) at 2 by discriminate.
  rewrite sumZ_app, sumZ_cons. cbn [sumZ foldr].
  assert (0 <= List.last (x :: l') 0); [|lia].
  rewrite Forall_forall in Hall. apply Hall.
  rewrite (app_removelast_last 0 (l := x :: l')) at 2 by discriminate.
  apply elem_of_app. right. left.
Qed.

Lemma fmap_removelast {A B} (f : A -> B) (l : list A) :
  f <$> removelast l = removelast (f <$> l).
Proof.
  induction l as [|x [|y l] IH]; [reflexivity..|].
  change (removelast (x :: y :: l)) with (x :: removelast (y :: l)).
  rewrite !fmap_cons. rewrite IH. reflexivity.
Qed.

(** X24. plugin_exit.  As long as the 64-bit products
    [exec_count * n_insns] of the blocks of the table add up to less than
    [2^64], no line of the by-dynamic-instructions section has a count
    above the total it is divided by: no percentage of that section
    exceeds 100. *)
Theorem hot_blocks_first_section_counts_at_most_total (blocks : gmap Z TBExecCount) :
  sumZ (dynamic_insncount <$> g_hash_table_get_values blocks) < modulus ->
  forall line,
    line ∈ by_dynamic_instructions (plugin_exit blocks) ->
    0 <= numerator (line_percent line) <= denominator (line_percent line).
Proof.
  intros Hsum line Hin.
  destruct (plugin_exit_sections blocks) as (H1 & _ & _).
  rewrite H1 in Hin. apply list_elem_of_fmap in Hin as (e & -> & He).
  cbn [insn_line line_percent numerator denominator].
  replace (wrap64 (n_insns e * exec_count e)) with (dynamic_insncount e)
    by (unfold dynamic_insncount; f_equal; lia).
  pose proof (dynamic_insncount_range e) as Hr. split; [lia|].
  rewrite total_insn_executed_sum.
  assert (Forall (fun y => 0 <= y)
            (dynamic_insncount <$> sorted_by_insncount blocks)) as Hnn.
  { apply Forall_fmap, Forall_forall. intros x _. apply dynamic_insncount_range. }
  pose proof (sumZ_visited_le _ Hnn) as Hle.
  rewrite <- fmap_removelast in Hle. fold (visited (sorted_by_insncount blocks)) in Hle.
  assert (sumZ (dynamic_insncount <$> sorted_by_insncount blocks)
          = sumZ (dynamic_insncount <$> g_hash_table_get_values blocks)) as Hperm.
  { apply sumZ_perm. unfold sorted_by_insncount. rewrite g_list_sort_perm. reflexivity. }
  assert (Forall (fun y => 0 <= y)
            (dynamic_insncount <$> visited (sorted_by_insncount blocks))) as Hnv.
  { apply Forall_fmap, Forall_forall. intros x _. apply dynamic_insncount_range. }
  pose proof (sumZ_nonneg _ Hnv) as Hpos.
  rewrite wrap64_small by lia.
  apply sumZ_member_le; [exact Hnv|].
  apply list_elem_of_fmap. exists e. auto.
Qed.

Lemma hot_blocks_first_section_counts_at_most_total_witness :
  Forall (fun line => 0 <= numerator (line_percent line)
                      <= denominator (line_percent line))
    (by_dynamic_instructions (plugin_exit (run five_and_one))).
Proof.
  apply Forall_forall.
  exact (hot_blocks_first_section_counts_at_most_total (run five_and_one) eq_refl).
Defined.

End hot_blocks_percentages.
